(** * go-sq-tool: the WAV collaborator (internal/wav/wav.go)

    A shallow embedding of the RIFF/WAVE reader and of the PCM16 and
    float32 writers, with the sample conversions at the I/O boundary.

    - float64 and float32 values are [spec_float]s of the Standard
      Library (IEEE-754 binary64: precision 53, emax 1024; binary32:
      precision 24, emax 128); arithmetic is [SFmul], [SFdiv] and
      [SFcompare] at those parameters;
    - a byte stream ([io.Reader] over a byte slice) is a [list byte];
      the reader functions thread the unread rest of the stream;
    - Go's [(value, error)] results are the [result] type below. *)

From Stdlib Require Import ZArith Zbitwise List Bool Lia Lqa QArith Qabs String SpecFloat.
From coqutil Require Import Byte Word.LittleEndianList.
Import ListNotations.
Local Open Scope Z_scope.
Local Open Scope list_scope.

(* ------------------------------------------------------------------ *)
(** ** float64 and float32 *)
(* ------------------------------------------------------------------ *)

Module F64.

Definition prec : Z := 53.
Definition emax : Z := 1024.

Definition float64 : Type := spec_float.

(** A [spec_float] is a float64 value when its mantissa and exponent
    are the canonical ones of binary64. *)
Definition valid (x : float64) : bool := valid_binary prec emax x.

(** [float64(v)] for an integer [v]. *)
Definition of_Z (v : Z) : float64 := binary_normalize prec emax v 0 false.

Definition zero : float64 := S754_zero false.
Definition one : float64 := of_Z 1.
Definition mone : float64 := of_Z (-1).

Definition mul (x y : float64) : float64 := SFmul prec emax x y.
Definition div (x y : float64) : float64 := SFdiv prec emax x y.
Definition sub (x y : float64) : float64 := SFsub prec emax x y.
Definition abs (x : float64) : float64 := SFabs x.

(** Go's [x < y], [x <= y], [x > y], [x >= y]: false when an operand
    is NaN. *)
Definition ltb (x y : float64) : bool := SFltb x y.
Definition leb (x y : float64) : bool := SFleb x y.
Definition gtb (x y : float64) : bool := SFltb y x.
Definition geb (x y : float64) : bool := SFleb y x.

(** [math.IsNaN(v)] and [math.IsInf(v, 0)]. *)
Definition IsNaN (v : float64) : bool :=
  match v with S754_nan => true | _ => false end.
Definition IsInf (v : float64) : bool :=
  match v with S754_infinity _ => true | _ => false end.

Definition is_finite (v : float64) : bool :=
  match v with S754_zero _ | S754_finite _ _ _ => true | _ => false end.

(** The integer nearest to [m / 2^k], halves rounded up
    (on magnitudes: away from zero). *)
Definition round_half_up (m : Z) (k : Z) : Z :=
  let d := 2 ^ k in
  if d <=? 2 * (m mod d) then m / d + 1 else m / d.

(** [math.Round(x)]: the nearest integer, rounding half away from
    zero; Round(±0) = ±0, Round(±Inf) = ±Inf, Round(NaN) = NaN. *)
Definition Round (x : float64) : float64 :=
  match x with
  | S754_finite s m e =>
      if 0 <=? e then x
      else
        match round_half_up (Zpos m) (- e) with
        | Z0 => S754_zero s
        | n => binary_normalize prec emax (cond_Zopp s n) 0 s
        end
  | _ => x
  end.

(** The integer part of a finite float, fraction discarded. *)
Definition truncZ (x : float64) : option Z :=
  match x with
  | S754_zero _ => Some 0
  | S754_finite s m e =>
      Some (cond_Zopp s (if 0 <=? e then Zpos m * 2 ^ e else Zpos m / 2 ^ (- e)))
  | _ => None
  end.

(** The rational number a finite float stands for (0 for NaN and the
    infinities, which have none). *)
Definition toQ (x : float64) : Q :=
  match x with
  | S754_finite s m e =>
      match e with
      | Z0 => inject_Z (cond_Zopp s (Zpos m))
      | Zpos k => inject_Z (cond_Zopp s (Zpos m * 2 ^ Zpos k))
      | Zneg k => Qmake (cond_Zopp s (Zpos m)) (2 ^ k)%positive
      end
  | _ => 0%Q
  end.

End F64.

Module F32.

Definition prec : Z := 24.
Definition emax : Z := 128.

(** [float32(x)] for a float64 [x]: round to nearest even in binary32;
    too large a magnitude becomes an infinity. *)
Definition of_float64 (x : spec_float) : spec_float :=
  match x with
  | S754_finite s m e => binary_normalize prec emax (cond_Zopp s (Zpos m)) e s
  | _ => x
  end.

(** [float64(v)] for a float32 [v]: exact. *)
Definition to_float64 (v : spec_float) : spec_float :=
  match v with
  | S754_finite s m e =>
      binary_normalize F64.prec F64.emax (cond_Zopp s (Zpos m)) e s
  | _ => v
  end.

(** [math.Float32frombits]: sign bit 31, exponent bits 30..23,
    fraction bits 22..0. *)
Definition frombits (b : Z) : spec_float :=
  let s := Z.testbit b 31 in
  let e := (b / 2 ^ 23) mod 2 ^ 8 in
  let m := b mod 2 ^ 23 in
  if e =? 255 then (if m =? 0 then S754_infinity s else S754_nan)
  else if e =? 0 then
    match m with
    | Zpos p => S754_finite s p (-149)
    | _ => S754_zero s
    end
  else
    match m + 2 ^ 23 with
    | Zpos p => S754_finite s p (e - 150)
    | _ => S754_zero s
    end.

(** [math.Float32bits]; the NaN written is the quiet NaN 0x7fc00000. *)
Definition bits (v : spec_float) : Z :=
  let sign (s : bool) := if s then 2 ^ 31 else 0 in
  match v with
  | S754_zero s => sign s
  | S754_infinity s => sign s + 255 * 2 ^ 23
  | S754_nan => 255 * 2 ^ 23 + 2 ^ 22
  | S754_finite s m e =>
      if Zpos m <? 2 ^ 23 then sign s + Zpos m
      else sign s + (e + 150) * 2 ^ 23 + (Zpos m - 2 ^ 23)
  end.

End F32.

(* ------------------------------------------------------------------ *)
(** ** Results, errors and byte streams *)
(* ------------------------------------------------------------------ *)

(** [io.EOF] and [io.ErrUnexpectedEOF]. *)
Inductive ioError : Type := EOF | ErrUnexpectedEOF.

(** One constructor per [fmt.Errorf] of wav.go; an [ioError] argument is
    the wrapped [%w] error. *)
Inductive wavError : Type :=
| ErrReadRIFFHeader (e : ioError)
| ErrNotRIFF
| ErrReadRIFFSize (e : ioError)
| ErrReadWAVEHeader (e : ioError)
| ErrNotWAVE
| ErrReadChunkID (e : ioError)
| ErrReadChunkSize (e : ioError)
| ErrInvalidFmtChunkSize (size : Z)
| ErrReadAudioFormat (e : ioError)
| ErrReadNumChannels (e : ioError)
| ErrReadSampleRate (e : ioError)
| ErrReadByteRate (e : ioError)
| ErrReadBlockAlign (e : ioError)
| ErrReadBitsPerSample (e : ioError)
| ErrSkipFmtExtension (e : ioError)
| ErrDataBeforeFmt
| ErrInputChannels (expected got : Z)
| ErrInvalidBlockAlign
| ErrDataNotAligned
| ErrReadPCM16Sample (e : ioError)
| ErrReadPCM24Sample (e : ioError)
| ErrUnsupportedPCMBitDepth (bits : Z)
| ErrUnsupportedFloatBitDepth (bits : Z)
| ErrReadFloat32Sample (e : ioError)
| ErrUnsupportedAudioFormat (format : Z)
| ErrReadDataPadByte (e : ioError)
| ErrSkipChunk (id : string) (e : ioError)
| ErrReadPadByte (e : ioError)
| ErrNoDataChunk
| ErrFailedToReadWAV (e : wavError)
| ErrOutputChannels (want got : Z)
| ErrNumSamplesNegative
| ErrChannelTooShort (ch len want : Z).

Inductive result (A : Type) : Type :=
| Ok (a : A)
| Err (e : wavError).
Arguments Ok {A} a.
Arguments Err {A} e.

(** The unread rest of an in-memory stream. *)
Definition stream : Type := list byte.

(** A read of the [io] package: an [ioError], or a value and the rest. *)
Definition io (A : Type) : Type := stream -> ioError + (A * stream).

(** A step of [readWAV]: a [wavError], or a value and the rest. *)
Definition Reader (A : Type) : Type := stream -> result (A * stream).

Definition ret {A} (a : A) : Reader A := fun s => Ok (a, s).

Definition fail {A} (e : wavError) : Reader A := fun _ => Err e.

Definition bind {A B} (m : Reader A) (k : A -> Reader B) : Reader B :=
  fun s => match m s with
           | Ok (a, s') => k a s'
           | Err e => Err e
           end.

(** [if err := op; err != nil { return nil, fmt.Errorf("...: %w", err) }] *)
Definition wrap {A} (mk : ioError -> wavError) (op : io A) : Reader A :=
  fun s => match op s with
           | inl e => Err (mk e)
           | inr (a, s') => Ok (a, s')
           end.

Declare Scope reader_scope.
Delimit Scope reader_scope with reader.
Notation "x <- m ;; k" := (bind m (fun x => k))
  (at level 61, m at next level, right associativity) : reader_scope.
Notation "m ;;; k" := (bind m (fun _ => k))
  (at level 61, right associativity) : reader_scope.

(** [io.ReadFull(r, buf)] with [len(buf) = n]: [io.EOF] when no byte is
    left, [io.ErrUnexpectedEOF] when some but fewer than [n] are. *)
Definition ReadFull (n : nat) : io (list byte) :=
  fun s =>
    if (n <=? List.length s)%nat then inr (firstn n s, skipn n s)
    else inl (match s with [] => EOF | _ :: _ => ErrUnexpectedEOF end).

(** [binary.Read(r, binary.LittleEndian, &v)] for an unsigned [v] of
    [n] bytes. *)
Definition readUint (n : nat) : io Z :=
  fun s => match ReadFull n s with
           | inl e => inl e
           | inr (bs, s') => inr (le_combine bs, s')
           end.

(** The same for a signed [v] of [n] bytes (two's complement). *)
Definition readInt (n : nat) : io Z :=
  fun s => match readUint n s with
           | inl e => inl e
           | inr (u, s') =>
               inr (if u <? 2 ^ (8 * Z.of_nat n - 1) then u
                    else u - 2 ^ (8 * Z.of_nat n), s')
           end.

(** [io.CopyN(io.Discard, r, n)]: [io.EOF] when fewer than [n] bytes
    are left. *)
Definition CopyN (n : Z) : io unit :=
  fun s =>
    if n <=? Z.of_nat (List.length s) then inr (tt, skipn (Z.to_nat n) s)
    else inl EOF.

(** [br.ReadByte()]. *)
Definition ReadByte : io byte :=
  fun s => match s with
           | [] => inl EOF
           | b :: s' => inr (b, s')
           end.

(** [l[i] = v]; the loops below only index inside the slice. *)
Fixpoint list_set {A} (l : list A) (i : nat) (v : A) : list A :=
  match l, i with
  | [], _ => []
  | _ :: t, O => v :: t
  | h :: t, S i' => h :: list_set t i' v
  end.

(* ------------------------------------------------------------------ *)
(** ** wav.go *)
(* ------------------------------------------------------------------ *)

Module Wav.
Import F64.
Local Open Scope reader_scope.

Record AudioData : Type := {
  SampleRate : Z;                    (* uint32 *)
  Samples : list (list float64);     (* [channel][sample] *)
  NumSamples : Z                     (* int *)
}.

Record wavFormat : Type := {
  audioFormat : Z;                   (* uint16 *)
  numChannels : Z;                   (* uint16 *)
  sampleRate : Z;                    (* uint32 *)
  byteRate : Z;                      (* uint32 *)
  blockAlign : Z;                    (* uint16 *)
  bitsPerSample : Z                  (* uint16 *)
}.

(** *** Sample conversions *)

(** [int16(x)] for a float64 [x]: the value itself when it is an
    integer of the int16 range.  Outside that range Go leaves the
    result to the implementation; this is what amd64 computes (the
    low 16 bits of the int32 conversion, which is -2^31 when the value
    is no int32).  [floatToPCM16] never leaves the range. *)
Definition int16_of_float64 (x : float64) : Z :=
  match truncZ x with
  | Some n =>
      if (- 2 ^ 31 <=? n) && (n <? 2 ^ 31)
      then (n + 2 ^ 15) mod 2 ^ 16 - 2 ^ 15
      else 0
  | None => 0
  end.

Definition floatToPCM16 (v : float64) : Z :=
  let v := if IsNaN v || IsInf v then zero else v in
  if geb v one then 32767
  else if leb v mone then -32768
  else int16_of_float64 (Round (mul v (of_Z 32767))).

(** [float64(v) / 32768.0] *)
Definition pcm16ToFloat (v : Z) : float64 := div (of_Z v) (of_Z 32768).

(** [float64(v) / 8388608.0] *)
Definition pcm24ToFloat (v : Z) : float64 := div (of_Z v) (of_Z 8388608).

(** The sample of the float32 branch of [readWAV]. *)
Definition float32ToFloat (v : spec_float) : float64 :=
  let fv := F32.to_float64 v in
  let fv := if IsNaN fv || IsInf fv then zero else fv in
  if gtb fv one then one
  else if ltb fv mone then mone
  else fv.

(** The value the float32 writer hands to [binary.Write]. *)
Definition clampFloat32 (val : float64) : spec_float :=
  let val :=
    if gtb val one then one
    else if ltb val mone then mone
    else if IsNaN val || IsInf val then zero
    else val in
  F32.of_float64 val.

(** *** The reader *)

Definition readPCM24Sample : io Z :=
  fun s => match ReadFull 3 s with
           | inl e => inl e
           | inr (b, s') =>
               let v :=
                 Z.lor (Z.lor (byte.unsigned (nth 0 b Byte.x00))
                              (Z.shiftl (byte.unsigned (nth 1 b Byte.x00)) 8))
                       (Z.shiftl (byte.unsigned (nth 2 b Byte.x00)) 16) in
               let v :=
                 if negb (Z.land v 8388608 =? 0)
                 then Z.lor v (Z.lnot 16777215) else v in
               inr (v, s')
           end.

Definition readPCM16 : Reader float64 :=
  v <- wrap ErrReadPCM16Sample (readInt 2) ;; ret (pcm16ToFloat v).

Definition readPCM24 : Reader float64 :=
  v <- wrap ErrReadPCM24Sample readPCM24Sample ;; ret (pcm24ToFloat v).

Definition readFloat32 : Reader float64 :=
  b <- wrap ErrReadFloat32Sample (readUint 4) ;;
  ret (float32ToFloat (F32.frombits b)).

(** [samplesByChannel[ch][i] = v] *)
Definition setSample (samples : list (list float64)) (ch i : nat) (v : float64)
  : list (list float64) :=
  list_set samples ch (list_set (nth ch samples []) i v).

(** [for ch := range expectedChannels { ... }] at frame [i]; [n]
    channels are left, starting at [ch]. *)
Fixpoint readFrame (decode : Reader float64) (i : nat) (n ch : nat)
         (samples : list (list float64)) : Reader (list (list float64)) :=
  match n with
  | O => ret samples
  | S n' =>
      v <- decode ;;
      readFrame decode i n' (S ch) (setSample samples ch i v)
  end.

(** [for i := range numFrames { ... }]; [n] frames are left, starting
    at [i]. *)
Fixpoint readFrames (decode : Reader float64) (channels : nat) (n i : nat)
         (samples : list (list float64)) : Reader (list (list float64)) :=
  match n with
  | O => ret samples
  | S n' =>
      samples' <- readFrame decode i channels 0 samples ;;
      readFrames decode channels n' (S i) samples'
  end.

(** The body of [case "fmt "]. *)
Definition readFmt (chunkSize : Z) : Reader wavFormat :=
  if chunkSize <? 16 then fail (ErrInvalidFmtChunkSize chunkSize)
  else
    af <- wrap ErrReadAudioFormat (readUint 2) ;;
    nc <- wrap ErrReadNumChannels (readUint 2) ;;
    sr <- wrap ErrReadSampleRate (readUint 4) ;;
    br <- wrap ErrReadByteRate (readUint 4) ;;
    ba <- wrap ErrReadBlockAlign (readUint 2) ;;
    bps <- wrap ErrReadBitsPerSample (readUint 2) ;;
    let remaining := chunkSize - 16 in
    (if 0 <? remaining then wrap ErrSkipFmtExtension (CopyN remaining)
     else ret tt) ;;;
    ret {| audioFormat := af; numChannels := nc; sampleRate := sr;
           byteRate := br; blockAlign := ba; bitsPerSample := bps |}.

(** [switch fmtChunk.audioFormat { ... }] of wav.go. *)
Definition readSamples (f : wavFormat) (expectedChannels numFrames : nat)
           (samplesByChannel : list (list float64))
  : Reader (list (list float64)) :=
  match audioFormat f with
  | 1 =>
      match bitsPerSample f with
      | 16 => readFrames readPCM16 expectedChannels numFrames 0 samplesByChannel
      | 24 => readFrames readPCM24 expectedChannels numFrames 0 samplesByChannel
      | bits => fail (ErrUnsupportedPCMBitDepth bits)
      end
  | 3 =>
      if negb (bitsPerSample f =? 32)
      then fail (ErrUnsupportedFloatBitDepth (bitsPerSample f))
      else readFrames readFloat32 expectedChannels numFrames 0 samplesByChannel
  | format => fail (ErrUnsupportedAudioFormat format)
  end.

(** The same switch in the earlier version of the file
    (src/unnamed/part_000): PCM is 16-bit or nothing. *)
Definition readSamples_old (f : wavFormat) (expectedChannels numFrames : nat)
           (samplesByChannel : list (list float64))
  : Reader (list (list float64)) :=
  match audioFormat f with
  | 1 =>
      if negb (bitsPerSample f =? 16)
      then fail (ErrUnsupportedPCMBitDepth (bitsPerSample f))
      else readFrames readPCM16 expectedChannels numFrames 0 samplesByChannel
  | 3 =>
      if negb (bitsPerSample f =? 32)
      then fail (ErrUnsupportedFloatBitDepth (bitsPerSample f))
      else readFrames readFloat32 expectedChannels numFrames 0 samplesByChannel
  | format => fail (ErrUnsupportedAudioFormat format)
  end.

(** The body of [case "data"], over the format switch. *)
Definition readData
           (samplesOf : wavFormat -> nat -> nat -> list (list float64) ->
                        Reader (list (list float64)))
           (expectedChannels : Z) (fmtChunk : option wavFormat) (chunkSize : Z)
  : Reader AudioData :=
  match fmtChunk with
  | None => fail ErrDataBeforeFmt
  | Some f =>
      if negb (numChannels f =? expectedChannels)
      then fail (ErrInputChannels expectedChannels (numChannels f))
      else if blockAlign f =? 0 then fail ErrInvalidBlockAlign
      else if negb (chunkSize mod blockAlign f =? 0) then fail ErrDataNotAligned
      else
        let numFrames := chunkSize / blockAlign f in
        let samplesByChannel :=
          repeat (repeat zero (Z.to_nat numFrames)) (Z.to_nat expectedChannels) in
        samples <- samplesOf f (Z.to_nat expectedChannels) (Z.to_nat numFrames)
                             samplesByChannel ;;
        (if chunkSize mod 2 =? 1 then
           _ <- wrap ErrReadDataPadByte ReadByte ;; ret tt
         else ret tt) ;;;
        ret {| SampleRate := sampleRate f;
               Samples := samples;
               NumSamples := numFrames |}
  end.

(** The body of [default:]: skip an unknown chunk and its pad byte. *)
Definition skipChunk (chunkID : list byte) (chunkSize : Z) : Reader unit :=
  wrap (ErrSkipChunk (string_of_list_byte chunkID)) (CopyN chunkSize) ;;;
  (if chunkSize mod 2 =? 1 then
     _ <- wrap ErrReadPadByte ReadByte ;; ret tt
   else ret tt).

(** The chunk loop [for { ... }].  Every turn consumes at least the
    eight bytes of a chunk header, so [fuel] beyond the length of the
    stream is never used up; [None] is the loop cut short. *)
Fixpoint readChunks
         (samplesOf : wavFormat -> nat -> nat -> list (list float64) ->
                      Reader (list (list float64)))
         (fuel : nat) (expectedChannels : Z) (fmtChunk : option wavFormat)
         (s : stream) : option (result AudioData) :=
  match fuel with
  | O => None
  | S fuel' =>
      match ReadFull 4 s with
      | inl EOF => Some (Err ErrNoDataChunk)
      | inl e => Some (Err (ErrReadChunkID e))
      | inr (chunkID, s1) =>
          match wrap ErrReadChunkSize (readUint 4) s1 with
          | Err e => Some (Err e)
          | Ok (chunkSize, s2) =>
              if (string_of_list_byte chunkID =? "fmt ")%string then
                match readFmt chunkSize s2 with
                | Err e => Some (Err e)
                | Ok (f, s3) =>
                    readChunks samplesOf fuel' expectedChannels (Some f) s3
                end
              else if (string_of_list_byte chunkID =? "data")%string then
                match readData samplesOf expectedChannels fmtChunk chunkSize s2 with
                | Err e => Some (Err e)
                | Ok (a, _) => Some (Ok a)
                end
              else
                match skipChunk chunkID chunkSize s2 with
                | Err e => Some (Err e)
                | Ok (_, s3) =>
                    readChunks samplesOf fuel' expectedChannels fmtChunk s3
                end
          end
      end
  end.

(** The RIFF/WAVE header in front of the chunk loop. *)
Definition readHeader : Reader unit :=
  riff <- wrap ErrReadRIFFHeader (ReadFull 4) ;;
  if negb (string_of_list_byte riff =? "RIFF")%string then fail ErrNotRIFF
  else
    _ <- wrap ErrReadRIFFSize (readUint 4) ;;
    wave <- wrap ErrReadWAVEHeader (ReadFull 4) ;;
    if negb (string_of_list_byte wave =? "WAVE")%string then fail ErrNotWAVE
    else ret tt.

(** The loop run to its end: more fuel than the stream has bytes. *)
Definition chunkLoop
           (samplesOf : wavFormat -> nat -> nat -> list (list float64) ->
                        Reader (list (list float64)))
           (expectedChannels : Z) (fmtChunk : option wavFormat) (s : stream)
  : result AudioData :=
  match readChunks samplesOf (S (List.length s)) expectedChannels fmtChunk s with
  | Some res => res
  | None => Err ErrNoDataChunk
  end.

Definition readWAVWith
           (samplesOf : wavFormat -> nat -> nat -> list (list float64) ->
                        Reader (list (list float64)))
           (r : stream) (expectedChannels : Z) : result AudioData :=
  match readHeader r with
  | Err e => Err e
  | Ok (_, s) => chunkLoop samplesOf expectedChannels None s
  end.

(** [readWAV] of internal/wav/wav.go. *)
Definition readWAV (r : stream) (expectedChannels : Z) : result AudioData :=
  readWAVWith readSamples r expectedChannels.

(** [readWAV] of src/unnamed/part_000: the same text but for the PCM
    branch of the format switch. *)
Definition readWAV_old (r : stream) (expectedChannels : Z) : result AudioData :=
  readWAVWith readSamples_old r expectedChannels.

Definition ReadWAVFromReader (r : stream) (channels : Z) : result AudioData :=
  match readWAV r channels with
  | Err e => Err (ErrFailedToReadWAV e)
  | Ok audioData => Ok audioData
  end.

Definition ReadWAVBytes (data : list byte) (channels : Z) : result AudioData :=
  ReadWAVFromReader data channels.

(** [ReadWAVChannels] on a file whose content is [file]. *)
Definition ReadWAVChannels (file : list byte) (channels : Z) : result AudioData :=
  ReadWAVFromReader file channels.

(** [ReadWAV] on a file whose content is [file]. *)
Definition ReadWAV (file : list byte) : result AudioData :=
  ReadWAVChannels file 2.

(** *** The writers

    The bytes handed to the [bufio.Writer], in order; the writer
    itself (an in-memory buffer or a fresh file) does not fail. *)

Definition writeString (s : string) : list byte := list_byte_of_string s.

(** The RIFF header, the fmt chunk and the header of the data chunk. *)
Definition writeHeader
           (audioFormat numChannels sampleRate byteRate blockAlign
            bitsPerSample dataSize : Z) : list byte :=
  writeString "RIFF" ++ le_split 4 ((36 + dataSize) mod 2 ^ 32) ++
  writeString "WAVE" ++
  writeString "fmt " ++ le_split 4 16 ++
  le_split 2 audioFormat ++ le_split 2 numChannels ++
  le_split 4 sampleRate ++ le_split 4 byteRate ++
  le_split 2 blockAlign ++ le_split 2 bitsPerSample ++
  writeString "data" ++ le_split 4 dataSize.

(** [for ch := 0; ch < channels; ch++ { if len(data.Samples[ch]) <
    data.NumSamples { return ... } }]; [n] channels are left. *)
Fixpoint checkChannels (samples : list (list float64)) (numSamples : Z)
         (n ch : nat) : option wavError :=
  match n with
  | O => None
  | S n' =>
      let len := Z.of_nat (List.length (nth ch samples [])) in
      if len <? numSamples
      then Some (ErrChannelTooShort (Z.of_nat ch) len numSamples)
      else checkChannels samples numSamples n' (S ch)
  end.

(** The inner and the outer loop over the interleaved samples. *)
Fixpoint writeFrame (enc : float64 -> list byte) (samples : list (list float64))
         (i : nat) (n ch : nat) : list byte :=
  match n with
  | O => []
  | S n' =>
      enc (nth i (nth ch samples []) zero) ++ writeFrame enc samples i n' (S ch)
  end.

Fixpoint writeFrames (enc : float64 -> list byte) (samples : list (list float64))
         (channels : nat) (n i : nat) : list byte :=
  match n with
  | O => []
  | S n' =>
      writeFrame enc samples i channels 0 ++
      writeFrames enc samples channels n' (S i)
  end.

Definition checkOutput (data : AudioData) (channels : Z) : option wavError :=
  if negb (Z.of_nat (List.length (Samples data)) =? channels)
  then Some (ErrOutputChannels channels (Z.of_nat (List.length (Samples data))))
  else if NumSamples data <? 0 then Some ErrNumSamplesNegative
  else checkChannels (Samples data) (NumSamples data) (Z.to_nat channels) 0.

Definition writeWAVPCM16ToWriter (data : AudioData) (channels : Z)
  : result (list byte) :=
  match checkOutput data channels with
  | Some e => Err e
  | None =>
      let numChannels := channels mod 2 ^ 16 in
      let bitsPerSample := 16 in
      let blockAlign := (numChannels * (bitsPerSample / 8)) mod 2 ^ 16 in
      let byteRate := (SampleRate data * blockAlign) mod 2 ^ 32 in
      let audioFormat := 1 in
      let dataSize := ((NumSamples data mod 2 ^ 32) * blockAlign) mod 2 ^ 32 in
      Ok (writeHeader audioFormat numChannels (SampleRate data) byteRate
                      blockAlign bitsPerSample dataSize ++
          writeFrames (fun v => le_split 2 (floatToPCM16 v)) (Samples data)
                      (Z.to_nat channels) (Z.to_nat (NumSamples data)) 0)
  end.

Definition writeWAVFloat32ToWriter (data : AudioData) (channels : Z)
  : result (list byte) :=
  match checkOutput data channels with
  | Some e => Err e
  | None =>
      let numChannels := channels mod 2 ^ 16 in
      let bitsPerSample := 32 in
      let byteRate :=
        (SampleRate data * numChannels * (bitsPerSample / 8)) mod 2 ^ 32 in
      let blockAlign := (numChannels * (bitsPerSample / 8)) mod 2 ^ 16 in
      let audioFormat := 3 in
      let dataSize :=
        ((NumSamples data mod 2 ^ 32) * numChannels * (bitsPerSample / 8))
          mod 2 ^ 32 in
      Ok (writeHeader audioFormat numChannels (SampleRate data) byteRate
                      blockAlign bitsPerSample dataSize ++
          writeFrames (fun v => le_split 4 (F32.bits (clampFloat32 v)))
                      (Samples data)
                      (Z.to_nat channels) (Z.to_nat (NumSamples data)) 0)
  end.

(** The file [WriteStereoWAV] leaves behind. *)
Definition WriteStereoWAV (data : AudioData) : result (list byte) :=
  writeWAVPCM16ToWriter data 2.

Definition WriteWAV (data : AudioData) : result (list byte) :=
  writeWAVPCM16ToWriter data 4.

Definition WriteStereoFloat32WAV (data : AudioData) : result (list byte) :=
  writeWAVFloat32ToWriter data 2.

Definition WriteFloat32WAV (data : AudioData) : result (list byte) :=
  writeWAVFloat32ToWriter data 4.

End Wav.

(* ------------------------------------------------------------------ *)
(** ** Files and values the statements speak about *)
(* ------------------------------------------------------------------ *)

Module WavFile.
Import F64 Wav.

(** A decimal literal [num/den] of the Go source: the float64 nearest
    to the quotient, which is what the correctly rounded division of
    the two (exact) integers gives. *)
Definition decimal (num den : Z) : float64 := div (of_Z num) (of_Z den).

(** [a.Samples[ch][i]] *)
Definition sample (a : AudioData) (ch i : nat) : float64 :=
  nth i (nth ch (Samples a) []) zero.

(** The value of two and of three little-endian bytes as a signed
    integer (two's complement). *)
Definition sint16 (b0 b1 : byte) : Z :=
  let u := byte.unsigned b0 + 2 ^ 8 * byte.unsigned b1 in
  if u <? 2 ^ 15 then u else u - 2 ^ 16.

Definition sint24 (b0 b1 b2 : byte) : Z :=
  let u := byte.unsigned b0 + 2 ^ 8 * byte.unsigned b1
           + 2 ^ 16 * byte.unsigned b2 in
  if u <? 2 ^ 23 then u else u - 2 ^ 24.

(** A finite sample of the nominal range. *)
Definition unit_range (x : float64) : Prop :=
  is_finite x = true /\ (- (1) <= toQ x <= 1)%Q.

(** "RIFF" <size> "WAVE" *)
Definition riffHeader (riffSize : Z) : list byte :=
  writeString "RIFF" ++ le_split 4 riffSize ++ writeString "WAVE".

(** A chunk as it lies in a file: identifier, payload, and the byte
    that pads an odd payload to a word boundary. *)
Record chunk : Type := {
  ckID : list byte;
  ckData : list byte;
  ckPad : byte
}.

Definition chunkBytes (c : chunk) : list byte :=
  ckID c ++ le_split 4 (Z.of_nat (List.length (ckData c))) ++ ckData c ++
  (if Z.of_nat (List.length (ckData c)) mod 2 =? 1 then [ckPad c] else []).

Definition chunksBytes (cs : list chunk) : list byte :=
  flat_map chunkBytes cs.

(** A chunk the reader has no case for: a four-byte identifier other
    than "fmt " and "data", with a payload whose size fits uint32. *)
Definition isUnknownChunk (c : chunk) : bool :=
  (List.length (ckID c) =? 4)%nat &&
  negb (string_of_list_byte (ckID c) =? "fmt ")%string &&
  negb (string_of_list_byte (ckID c) =? "data")%string &&
  (Z.of_nat (List.length (ckData c)) <? 2 ^ 32).

(** The fields of a format fit their widths. *)
Definition wfFormat (f : wavFormat) : bool :=
  (0 <=? audioFormat f) && (audioFormat f <? 2 ^ 16) &&
  (0 <=? numChannels f) && (numChannels f <? 2 ^ 16) &&
  (0 <=? sampleRate f) && (sampleRate f <? 2 ^ 32) &&
  (0 <=? byteRate f) && (byteRate f <? 2 ^ 32) &&
  (0 <=? blockAlign f) && (blockAlign f <? 2 ^ 16) &&
  (0 <=? bitsPerSample f) && (bitsPerSample f <? 2 ^ 16).

(** What holds of every format [readFmt] returns: the fields are
    unsigned 16-bit values. *)
Definition fmtRead (f : wavFormat) : Prop :=
  0 <= numChannels f < 2 ^ 16 /\ 0 <= blockAlign f < 2 ^ 16.

(** A fmt chunk: the sixteen bytes of the format and an extension. *)
Definition fmtBytes (f : wavFormat) (ext : list byte) : list byte :=
  writeString "fmt " ++ le_split 4 (16 + Z.of_nat (List.length ext)) ++
  le_split 2 (audioFormat f) ++ le_split 2 (numChannels f) ++
  le_split 4 (sampleRate f) ++ le_split 4 (byteRate f) ++
  le_split 2 (blockAlign f) ++ le_split 2 (bitsPerSample f) ++ ext.

(** The header of a data chunk of declared size [size]. *)
Definition dataHeader (size : Z) : list byte :=
  writeString "data" ++ le_split 4 size.

(** The formats [readWAV] has a decoder for. *)
Definition bytesPerSample (f : wavFormat) : option Z :=
  match audioFormat f, bitsPerSample f with
  | 1, 16 => Some 2
  | 1, 24 => Some 3
  | 3, 32 => Some 4
  | _, _ => None
  end.

(** The error with which the earlier reader rejects 24-bit PCM. *)
Definition depth24 : wavError := ErrUnsupportedPCMBitDepth 24.

(** A sample the PCM24 branch stores: three little-endian bytes,
    sign-extended, over 8388608. *)
Definition pcm24Sample (x : float64) : Prop :=
  exists b0 b1 b2, x = pcm24ToFloat (sint24 b0 b1 b2).

(** What the PCM24 branch can end in: decoded samples, or a short
    read of a sample or of the pad byte. *)
Definition pcm24Result (r : result AudioData) : Prop :=
  match r with
  | Ok a => Forall (Forall pcm24Sample) (Samples a)
  | Err e =>
      (exists err, e = ErrReadPCM24Sample err) \/
      (exists err, e = ErrReadDataPadByte err)
  end.

(** The two results: the present one is never the 24-bit rejection;
    they agree, or the earlier one is that rejection and the present
    one went through the PCM24 branch. *)
Definition oldNew (ro rn : result AudioData) : Prop :=
  rn <> Err depth24 /\
  (ro = rn \/ (ro = Err depth24 /\ pcm24Result rn)).

(** The result of a chunk body once the rest of the stream is dropped. *)
Definition dropRest {A} (r : result (A * stream)) : result A :=
  match r with
  | Ok (a, _) => Ok a
  | Err e => Err e
  end.

(** *** The samples of a data chunk, by position *)

(** [samples[ch][i]] of a bare slice of channels. *)
Definition getSample (samples : list (list float64)) (ch i : nat) : float64 :=
  nth i (nth ch samples []) zero.

(** [channels] slices of [frames] samples each. *)
Definition shaped (channels frames : nat) (samples : list (list float64)) : Prop :=
  List.length samples = channels /\
  Forall (fun c => List.length c = frames) samples.

(** What the three sample loops store for the bytes of one sample. *)
Definition decodePCM16 (b : list byte) : float64 :=
  pcm16ToFloat (sint16 (nth 0 b Byte.x00) (nth 1 b Byte.x00)).

Definition decodePCM24 (b : list byte) : float64 :=
  pcm24ToFloat (sint24 (nth 0 b Byte.x00) (nth 1 b Byte.x00) (nth 2 b Byte.x00)).

Definition decodeFloat32 (b : list byte) : float64 :=
  float32ToFloat (F32.frombits (le_combine b)).

Definition decoderOf (f : wavFormat) : list byte -> float64 :=
  match audioFormat f, bitsPerSample f with
  | 1, 16 => decodePCM16
  | 1, 24 => decodePCM24
  | _, _ => decodeFloat32
  end.

(** The sample of channel [ch] in frame [i] of an interleaved payload
    of [channels] channels and [w] bytes per sample. *)
Definition sampleAt (dec : list byte -> float64) (w channels : nat)
           (payload : list byte) (ch i : nat) : float64 :=
  dec (firstn w (skipn ((i * channels + ch) * w) payload)).

Definition decodedSamples (dec : list byte -> float64) (w channels frames : nat)
           (payload : list byte) : list (list float64) :=
  map (fun ch => map (fun i => sampleAt dec w channels payload ch i)
                     (seq 0 frames))
      (seq 0 channels).

(** A sample written as PCM16 and read back. *)
Definition pcm16RoundTrip (v : float64) : float64 :=
  pcm16ToFloat (floatToPCM16 v).

(** A sample written as float32 and read back. *)
Definition float32RoundTrip (v : float64) : float64 :=
  float32ToFloat (F32.frombits (F32.bits (clampFloat32 v) mod 2 ^ 32)).

(** *** Readers and longer streams *)

(** A read that succeeds on a stream succeeds alike on every longer
    one, and leaves the added bytes unread. *)
Definition stableIO {A} (op : io A) : Prop :=
  forall s a s' x, op s = inr (a, s') -> op (s ++ x) = inr (a, s' ++ x).

Definition stable {A} (m : Reader A) : Prop :=
  forall s a s' x, m s = Ok (a, s') -> m (s ++ x) = Ok (a, s' ++ x).

(** A format with another byte rate. *)
Definition withByteRate (f : wavFormat) (br : Z) : wavFormat :=
  {| audioFormat := audioFormat f; numChannels := numChannels f;
     sampleRate := sampleRate f; byteRate := br;
     blockAlign := blockAlign f; bitsPerSample := bitsPerSample f |}.

(** *** Whole files *)

(** A file as the reader walks it: the RIFF header, unknown chunks,
    a fmt chunk, unknown chunks again, the header of a data chunk of
    declared size [size], and what lies behind that header. *)
Definition wavFile (riffSize : Z) (before : list chunk) (f : wavFormat)
           (ext : list byte) (between : list chunk) (size : Z)
           (body : list byte) : list byte :=
  riffHeader riffSize ++ chunksBytes before ++ fmtBytes f ext ++
  chunksBytes between ++ dataHeader size ++ body.

(** The pad byte behind a payload of odd length. *)
Definition padOf (payload : list byte) (pad : byte) : list byte :=
  if Z.of_nat (List.length payload) mod 2 =? 1 then [pad] else [].

(** The error of the sample loop that serves a format. *)
Definition sampleError (f : wavFormat) : ioError -> wavError :=
  match audioFormat f, bitsPerSample f with
  | 1, 16 => ErrReadPCM16Sample
  | 1, 24 => ErrReadPCM24Sample
  | _, _ => ErrReadFloat32Sample
  end.

(** The error of the format switch on a format it has no loop for. *)
Definition unsupportedError (f : wavFormat) : wavError :=
  if audioFormat f =? 1 then ErrUnsupportedPCMBitDepth (bitsPerSample f)
  else if audioFormat f =? 3 then ErrUnsupportedFloatBitDepth (bitsPerSample f)
  else ErrUnsupportedAudioFormat (audioFormat f).

(** What [io.ReadFull] reports on a stream of [len] bytes cut inside
    or in front of a sample of [w] bytes. *)
Definition shortRead (len w : nat) : ioError :=
  if (len mod w =? 0)%nat then EOF else ErrUnexpectedEOF.

(** *** The PCM24 branch, as a function of the bytes *)

(** What stands in the place of a read on a stream: the read leaves
    a suffix of it. *)
Definition consumesIO {A} (op : io A) : Prop :=
  forall s a s', op s = inr (a, s') -> exists c, s = c ++ s'.

Definition consumes {A} (m : Reader A) : Prop :=
  forall s a s', m s = Ok (a, s') -> exists c, s = c ++ s'.

(** The answer to a data chunk of declared size [size] under a 24-bit
    PCM format [f], [body] being the stream behind the chunk header:
    [size / blockAlign] frames, the sample of channel [ch] in frame
    [i] being the three little-endian bytes at offset
    [(i * numChannels + ch) * 3] of [body], sign-extended, over
    8388608; the sample read error when [body] is too short for the
    frames; the pad byte error when the size is odd and [body] ends
    with the last sample. *)
Definition pcm24Outcome (f : wavFormat) (size : Z) (body : list byte)
  : result AudioData :=
  let frames := size / blockAlign f in
  let need := (Z.to_nat frames * (Z.to_nat (numChannels f) * 3))%nat in
  if (List.length body <? need)%nat
  then Err (ErrReadPCM24Sample (shortRead (List.length body) 3))
  else if (size mod 2 =? 1) && (List.length body =? need)%nat
  then Err (ErrReadDataPadByte EOF)
  else Ok {| SampleRate := sampleRate f;
             Samples := decodedSamples decodePCM24 3
                          (Z.to_nat (numChannels f)) (Z.to_nat frames) body;
             NumSamples := frames |}.

(** *** Writing and reading back *)

(** The frame a reader gets back from a written file: the first
    [NumSamples] samples of every channel, each through the round
    trip [g] of the sample format. *)
Definition readBack (g : float64 -> float64) (data : AudioData) : AudioData :=
  {| SampleRate := SampleRate data;
     Samples := map (fun c => map g (firstn (Z.to_nat (NumSamples data)) c))
                    (Samples data);
     NumSamples := NumSamples data |}.

(** What the writers demand of a frame. *)
Definition writable (data : AudioData) (channels : Z) : Prop :=
  Z.of_nat (List.length (Samples data)) = channels /\
  0 <= NumSamples data /\
  Forall (fun c => NumSamples data <= Z.of_nat (List.length c)) (Samples data).

(** The fmt chunks the two writers write. *)
Definition fmtPCM16 (data : AudioData) (channels : Z) : wavFormat :=
  {| audioFormat := 1; numChannels := channels;
     sampleRate := SampleRate data;
     byteRate := (SampleRate data * (2 * channels)) mod 2 ^ 32;
     blockAlign := 2 * channels; bitsPerSample := 16 |}.

Definition fmtFloat32 (data : AudioData) (channels : Z) : wavFormat :=
  {| audioFormat := 3; numChannels := channels;
     sampleRate := SampleRate data;
     byteRate := (SampleRate data * (4 * channels)) mod 2 ^ 32;
     blockAlign := 4 * channels; bitsPerSample := 32 |}.

(** What a PCM16 sample [n] becomes when the float read for it is
    written again: the samples beyond half scale move one step
    towards zero, -32768 and the others stay. *)
Definition reencoded (n : Z) : Z :=
  if (n =? -32768) || (Z.abs n <=? 16384) then n else n - Z.sgn n.

(** *** Literal inputs of the scenarios *)

(** S2: the stereo frame of [TestReadWAVChannels_StereoRoundTrip]. *)
Definition stereoIn : AudioData :=
  {| SampleRate := 44100;
     Samples :=
       [[zero; decimal 5 10; decimal (-5) 10; of_Z 1; of_Z (-1);
         decimal 25 100; decimal (-25) 100];
        [decimal 1 10; decimal (-1) 10; decimal 9 10; decimal (-9) 10;
         zero; decimal 75 100; decimal (-75) 100]];
     NumSamples := 7 |}.

(** S3: the silent stereo frame of [TestReadWAVChannels_ChannelMismatch]. *)
Definition silentStereo : AudioData :=
  {| SampleRate := 44100;
     Samples := [[zero; zero; zero; zero]; [zero; zero; zero; zero]];
     NumSamples := 4 |}.

(** A stereo frame with an infinite sample in each channel. *)
Definition infiniteStereo : AudioData :=
  {| SampleRate := 44100;
     Samples := [[S754_infinity false]; [S754_infinity true]];
     NumSamples := 1 |}.

(** A mono PCM16 format at 8000 Hz and its two chunks. *)
Definition monoPCM16 : wavFormat :=
  {| audioFormat := 1; numChannels := 1; sampleRate := 8000;
     byteRate := 16000; blockAlign := 2; bitsPerSample := 16 |}.

Definition stereoPCM16 : wavFormat :=
  {| audioFormat := 1; numChannels := 2; sampleRate := 44100;
     byteRate := 176400; blockAlign := 4; bitsPerSample := 16 |}.

Definition monoPCM24 : wavFormat :=
  {| audioFormat := 1; numChannels := 1; sampleRate := 8000;
     byteRate := 24000; blockAlign := 3; bitsPerSample := 24 |}.

(** One frame holding the int16 -32768 (bytes 00 80). *)
Definition dataMin16 : list byte :=
  dataHeader 2 ++ [Byte.x00; Byte.x80].

(** An unknown chunk "LIST" of odd size 3, with its pad byte. *)
Definition listChunk : chunk :=
  {| ckID := list_byte_of_string "LIST";
     ckData := [Byte.x01; Byte.x02; Byte.x03];
     ckPad := Byte.x00 |}.

(** Stereo PCM16 whose frames are declared eight bytes apart. *)
Definition stereoPCM16Wide : wavFormat :=
  {| audioFormat := 1; numChannels := 2; sampleRate := 44100;
     byteRate := 176400; blockAlign := 8; bitsPerSample := 16 |}.

(** Mono 8-bit PCM and mono A-law: formats the switch has no loop for. *)
Definition monoPCM8 : wavFormat :=
  {| audioFormat := 1; numChannels := 1; sampleRate := 8000;
     byteRate := 8000; blockAlign := 1; bitsPerSample := 8 |}.

(** Mono PCM16 declared with blockAlign 0. *)
Definition monoPCM16NoAlign : wavFormat :=
  {| audioFormat := 1; numChannels := 1; sampleRate := 8000;
     byteRate := 16000; blockAlign := 0; bitsPerSample := 16 |}.

(** A stereo frame whose second channel is one sample short. *)
Definition shortStereo : AudioData :=
  {| SampleRate := 44100;
     Samples := [[zero; zero]; [zero]];
     NumSamples := 2 |}.

(** A silent frame of four channels. *)
Definition silentQuad : AudioData :=
  {| SampleRate := 44100;
     Samples := [[zero; zero]; [zero; zero]; [zero; zero]; [zero; zero]];
     NumSamples := 2 |}.

(** Four-channel PCM16 at 44100 Hz. *)
Definition quadPCM16 : wavFormat :=
  {| audioFormat := 1; numChannels := 4; sampleRate := 44100;
     byteRate := 352800; blockAlign := 8; bitsPerSample := 16 |}.

(** An empty "JUNK" chunk. *)
Definition emptyJunk : chunk :=
  {| ckID := list_byte_of_string "JUNK"; ckData := []; ckPad := Byte.x00 |}.

(** One frame of four PCM16 samples: 16384, -16384, 0, 32767. *)
Definition quadFrame : list byte :=
  [Byte.x00; Byte.x40; Byte.x00; Byte.xc0;
   Byte.x00; Byte.x00; Byte.xff; Byte.x7f].

(** A "JUNK" chunk of 108 bytes; behind 67 zero bytes its payload
    holds the bytes of a four-channel fmt chunk and of a data chunk
    with [quadFrame]. *)
Definition carrierJunk : chunk :=
  {| ckID := list_byte_of_string "JUNK";
     ckData := repeat Byte.x00 67 ++ fmtBytes quadPCM16 [] ++
               dataHeader 8 ++ quadFrame ++ [Byte.x00];
     ckPad := Byte.x00 |}.

(** The data chunk of one silent stereo PCM16 frame. *)
Definition stereoData : chunk :=
  {| ckID := list_byte_of_string "data";
     ckData := [Byte.x00; Byte.x00; Byte.x00; Byte.x00];
     ckPad := Byte.x00 |}.

(** A RIFF file of four chunks, the RIFF size being that of what
    follows it: a fmt chunk declaring stereo PCM16, the two "JUNK"
    chunks, and the data chunk.  The fmt chunk carries the extension
    bytes [ext] and, when their number is odd, the pad byte every
    RIFF chunk of odd size is followed by. *)
Definition junkFile (ext : list byte) : list byte :=
  let chunks :=
    fmtBytes stereoPCM16 ext ++ padOf ext Byte.x00 ++
    chunksBytes [emptyJunk; carrierJunk; stereoData] in
  riffHeader (4 + Z.of_nat (List.length chunks)) ++ chunks.

(** The file with a fmt chunk of size 17, and with one of size 18. *)
Definition oddFmtFile : list byte := junkFile [Byte.x00].

Definition evenFmtFile : list byte := junkFile [Byte.x00; Byte.x00].

Definition fileFmtFirst : list byte :=
  riffHeader 0 ++ fmtBytes monoPCM16 [] ++ dataMin16.

Definition fileDataFirst : list byte :=
  riffHeader 0 ++ dataMin16 ++ fmtBytes monoPCM16 [].

Definition fileWithList : list byte :=
  riffHeader 0 ++ chunkBytes listChunk ++ fmtBytes monoPCM16 [] ++
  chunkBytes listChunk ++ dataMin16.

(** A mono PCM24 file with the frames 0x800000 (-8388608) and
    0x7fffff (8388607). *)
Definition filePCM24 : list byte :=
  riffHeader 0 ++ fmtBytes monoPCM24 [] ++ dataHeader 6 ++
  [Byte.x00; Byte.x00; Byte.x80; Byte.xff; Byte.xff; Byte.x7f].

End WavFile.

(* ------------------------------------------------------------------ *)
(** ** Bit operations on integers *)
(* ------------------------------------------------------------------ *)

Module BitFacts.

Lemma lor_disjoint a b : Z.land a b = 0 -> Z.lor a b = a + b.
Proof. intros H. rewrite <- (Z.add_lor_land a b), H. lia. Qed.

Lemma testbit_small u n i : 0 <= u < 2 ^ n -> n <= i -> Z.testbit u i = false.
Proof.
  intros Hu Hi. destruct (Z.eq_dec u 0) as [->|Hne]; [apply Z.bits_0|].
  apply Z.bits_above_log2; [lia|].
  assert (Z.log2 u < n) by (apply Z.log2_lt_pow2; lia). lia.
Qed.

Lemma lor_shiftl_add a b n :
  0 <= n -> 0 <= a < 2 ^ n -> Z.lor a (Z.shiftl b n) = a + b * 2 ^ n.
Proof.
  intros Hn Ha. rewrite <- (Z.shiftl_mul_pow2 b n) by lia.
  apply lor_disjoint.
  apply Z.bits_inj'. intros i Hi.
  rewrite Z.land_spec, Z.bits_0.
  destruct (Z.lt_ge_cases i n) as [H|H].
  - rewrite Z.shiftl_spec_low by lia. apply andb_false_r.
  - rewrite (testbit_small a n i) by lia. reflexivity.
Qed.

(** [v & (1 << n) == 0] tests the top bit of an (n+1)-bit value. *)
Lemma land_pow2_test u n :
  0 <= n -> 0 <= u < 2 ^ (n + 1) ->
  (Z.land u (2 ^ n) =? 0) = (u <? 2 ^ n).
Proof.
  intros Hn Hu.
  assert (Hl : Z.land u (2 ^ n) = if Z.testbit u n then 2 ^ n else 0).
  { apply Z.bits_inj'. intros i Hi. rewrite Z.land_spec, Z.pow2_bits_eqb by lia.
    destruct (Z.eqb_spec n i) as [->|Hne].
    - destruct (Z.testbit u i) eqn:E; cbn.
      + rewrite Z.pow2_bits_true by lia. reflexivity.
      + rewrite Z.bits_0. reflexivity.
    - rewrite andb_false_r. destruct (Z.testbit u n).
      + rewrite Z.pow2_bits_false by lia. reflexivity.
      + rewrite Z.bits_0. reflexivity. }
  rewrite Hl. assert (Hp : 0 < 2 ^ n) by (apply Z.pow_pos_nonneg; lia).
  rewrite Z.pow_add_r in Hu by lia. change (2 ^ 1) with 2 in Hu.
  destruct (Z.testbit u n) eqn:E.
  - apply Z.testbit_true in E; [|lia].
    assert (u / 2 ^ n <> 0) by (intro H0; rewrite H0 in E; discriminate).
    assert (2 ^ n <= u).
    { destruct (Z.lt_ge_cases u (2 ^ n)) as [H1|H1]; [|assumption].
      rewrite Z.div_small in H by lia. contradiction. }
    destruct (Z.ltb_spec u (2 ^ n)); destruct (Z.eqb_spec (2 ^ n) 0); lia.
  - apply Z.testbit_false in E; [|lia].
    assert (u / 2 ^ n < 2) by (apply Z.div_lt_upper_bound; lia).
    assert (0 <= u / 2 ^ n) by (apply Z.div_pos; lia).
    assert (u / 2 ^ n = 0).
    { destruct (Z.eq_dec (u / 2 ^ n) 0); [assumption|].
      assert (u / 2 ^ n = 1) by lia. rewrite H1 in E. discriminate. }
    assert (u < 2 ^ n).
    { pose proof (Z.div_mod u (2 ^ n) ltac:(lia)).
      pose proof (Z.mod_pos_bound u (2 ^ n) Hp). nia. }
    destruct (Z.ltb_spec u (2 ^ n)); [reflexivity|lia].
Qed.

(** [v |= ^(1<<n - 1)] on an n-bit value subtracts [2^n]. *)
Lemma lor_sign_extend u n :
  0 <= n -> 0 <= u < 2 ^ n -> Z.lor u (Z.lnot (2 ^ n - 1)) = u - 2 ^ n.
Proof.
  intros Hn Hu.
  replace (Z.lnot (2 ^ n - 1)) with (- 2 ^ n) by (unfold Z.lnot; lia).
  replace (u - 2 ^ n) with (u + - 2 ^ n) by lia.
  apply lor_disjoint.
  apply Z.bits_inj'. intros i Hi. rewrite Z.land_spec, Z.bits_0.
  destruct (Z.lt_ge_cases i n) as [H|H].
  - replace (- 2 ^ n) with (Z.lnot (Z.ones n))
      by (rewrite Z.ones_equiv; unfold Z.lnot; lia).
    rewrite Z.lnot_spec, Z.ones_spec_low by lia. apply andb_false_r.
  - rewrite (testbit_small u n i) by lia. reflexivity.
Qed.

Lemma le_combine_2 b0 b1 :
  le_combine [b0; b1] = byte.unsigned b0 + 2 ^ 8 * byte.unsigned b1.
Proof.
  change (le_combine [b0; b1])
    with (Z.lor (byte.unsigned b0)
                (Z.shiftl (Z.lor (byte.unsigned b1) (Z.shiftl 0 8)) 8)).
  rewrite Z.shiftl_0_l, Z.lor_0_r.
  rewrite lor_shiftl_add by (try lia; apply byte.unsigned_range). lia.
Qed.

Lemma le_combine_4 b0 b1 b2 b3 :
  0 <= le_combine [b0; b1; b2; b3] < 2 ^ 32.
Proof. apply (le_combine_bound [b0; b1; b2; b3]). Qed.

End BitFacts.

(* ------------------------------------------------------------------ *)
(** ** Facts about binary64 rounding *)
(* ------------------------------------------------------------------ *)

Module F64Facts.
Import F64.

Lemma pow2_split a b : 0 <= a -> 0 <= b -> 2 ^ (a + b) = 2 ^ a * 2 ^ b.
Proof. intros. apply Z.pow_add_r; assumption. Qed.

Lemma pow2_pos a : 0 <= a -> 0 < 2 ^ a.
Proof. intros. apply Z.pow_pos_nonneg; lia. Qed.

(** *** Bit lengths *)

Lemma digits2_pos_bounds p :
  2 ^ (Zpos (digits2_pos p) - 1) <= Zpos p < 2 ^ Zpos (digits2_pos p).
Proof.
  induction p as [p IH | p IH |]; cbn [digits2_pos].
  - rewrite Pos2Z.inj_succ.
    replace (Z.succ (Zpos (digits2_pos p)) - 1)
      with (Zpos (digits2_pos p) - 1 + 1) by lia.
    rewrite Z.pow_succ_r by lia. rewrite Z.pow_add_r by lia. lia.
  - rewrite Pos2Z.inj_succ.
    replace (Z.succ (Zpos (digits2_pos p)) - 1)
      with (Zpos (digits2_pos p) - 1 + 1) by lia.
    rewrite Z.pow_succ_r by lia. rewrite Z.pow_add_r by lia. lia.
  - cbn. lia.
Qed.

Lemma digits2_pos_le p n :
  0 <= n -> Zpos p < 2 ^ n -> Zpos (digits2_pos p) <= n.
Proof.
  intros Hn Hp. destruct (digits2_pos_bounds p) as [Hlo _].
  destruct (Z_le_gt_dec (Zpos (digits2_pos p)) n) as [|Hgt]; [assumption|].
  assert (2 ^ n <= 2 ^ (Zpos (digits2_pos p) - 1))
    by (apply Z.pow_le_mono_r; lia).
  lia.
Qed.

Lemma digits2_pos_ge p n :
  2 ^ n <= Zpos p -> n < Zpos (digits2_pos p).
Proof.
  intros Hp. destruct (digits2_pos_bounds p) as [_ Hhi].
  destruct (Z_lt_le_dec n (Zpos (digits2_pos p))) as [|Hle]; [assumption|].
  assert (2 ^ Zpos (digits2_pos p) <= 2 ^ n)
    by (apply Z.pow_le_mono_r; lia).
  lia.
Qed.

Lemma Zdigits2_le m n : 0 <= n -> 0 <= m < 2 ^ n -> Zdigits2 m <= n.
Proof.
  intros Hn [H0 Hm]. destruct m as [|p|p]; cbn [Zdigits2]; try lia.
  now apply digits2_pos_le.
Qed.

Lemma iter_xO_Z m d : Zpos (Pos.iter xO m d) = Zpos m * 2 ^ Zpos d.
Proof.
  revert m. induction d as [|d IH] using Pos.peano_ind; intros m.
  - cbn. lia.
  - rewrite Pos.iter_succ, Pos2Z.inj_xO, IH, Pos2Z.inj_succ, Z.pow_succ_r by lia.
    lia.
Qed.

Lemma iter_xO_digits m d :
  Zpos (digits2_pos (Pos.iter xO m d)) = Zpos (digits2_pos m) + Zpos d.
Proof.
  induction d as [|d IH] using Pos.peano_ind.
  - cbn. lia.
  - rewrite Pos.iter_succ. cbn [digits2_pos]. rewrite Pos2Z.inj_succ, IH. lia.
Qed.

(** *** Shifting right and rounding *)

Lemma iter_pos_nat {A} (f : A -> A) p : forall x,
  iter_pos f p x = Nat.iter (Pos.to_nat p) f x.
Proof.
  induction p as [p IH | p IH |]; intros x; cbn [iter_pos].
  - rewrite !IH, Pos2Nat.inj_xI.
    replace (S (2 * Pos.to_nat p))
      with (Pos.to_nat p + (Pos.to_nat p + 1))%nat by lia.
    rewrite !Nat.iter_add. reflexivity.
  - rewrite !IH, Pos2Nat.inj_xO.
    replace (2 * Pos.to_nat p)%nat with (Pos.to_nat p + Pos.to_nat p)%nat by lia.
    rewrite Nat.iter_add. reflexivity.
  - reflexivity.
Qed.

Lemma shr_1_spec r : 0 <= shr_m r ->
  shr_m (shr_1 r) = shr_m r / 2 /\
  (shr_r (shr_1 r) || shr_s (shr_1 r))
  = (Z.odd (shr_m r) || (shr_r r || shr_s r)).
Proof.
  destruct r as [m r s]. cbn [shr_m]. intros Hm.
  destruct m as [|[p|p|]|p]; cbn [shr_1 shr_m shr_r shr_s Z.odd orb]; try lia.
  - split; reflexivity.
  - split; [|reflexivity]. apply Z.div_unique with 1; lia.
  - split; [|reflexivity]. apply Z.div_unique with 0; lia.
  - split; reflexivity.
Qed.

Lemma iter_shr_1_spec M n : 0 <= M ->
  shr_m (Nat.iter n shr_1 (Build_shr_record M false false))
  = M / 2 ^ Z.of_nat n /\
  (shr_r (Nat.iter n shr_1 (Build_shr_record M false false))
   || shr_s (Nat.iter n shr_1 (Build_shr_record M false false)))
  = negb (M mod 2 ^ Z.of_nat n =? 0).
Proof.
  intros HM. induction n as [|n IH].
  - cbn. rewrite Z.div_1_r, Z.mod_1_r. split; reflexivity.
  - change (Nat.iter (S n) shr_1 (Build_shr_record M false false))
      with (shr_1 (Nat.iter n shr_1 (Build_shr_record M false false))).
    destruct IH as [IHm IHl].
    set (r := Nat.iter n shr_1 _) in *.
    assert (Hr : 0 <= shr_m r) by (rewrite IHm; apply Z.div_pos; lia).
    destruct (shr_1_spec r Hr) as [Hm' Hl'].
    rewrite Hm', Hl', IHm, IHl.
    rewrite Nat2Z.inj_succ, Z.pow_succ_r by lia.
    assert (Hp : 0 < 2 ^ Z.of_nat n) by (apply pow2_pos; lia).
    split.
    + rewrite Z.div_div by lia. f_equal. lia.
    + rewrite (Z.mul_comm 2), Z.rem_mul_r by lia.
      pose proof (Z.mod_pos_bound M (2 ^ Z.of_nat n) Hp) as Hb.
      pose proof (Z.mod_pos_bound (M / 2 ^ Z.of_nat n) 2 ltac:(lia)) as Hb2.
      rewrite Zodd_mod.
      destruct (Z.eqb_spec (M mod 2 ^ Z.of_nat n) 0) as [E|E];
        destruct (Z.eqb_spec ((M / 2 ^ Z.of_nat n) mod 2) 1) as [E2|E2];
        cbn [negb orb]; symmetry;
        first [ apply negb_true_iff, Z.eqb_neq; nia
              | apply negb_false_iff, Z.eqb_eq; nia ].
Qed.

Lemma shr_spec M e k : 0 <= M ->
  snd (shr (Build_shr_record M false false) e k) = e + Z.max 0 k /\
  shr_m (fst (shr (Build_shr_record M false false) e k)) = M / 2 ^ Z.max 0 k /\
  (loc_of_shr_record (fst (shr (Build_shr_record M false false) e k)) = loc_Exact
   <-> M mod 2 ^ Z.max 0 k = 0).
Proof.
  intros HM. destruct k as [|p|p]; cbn [shr fst snd Z.max].
  - change (Z.max 0 0) with 0. rewrite Z.add_0_r, Z.div_1_r, Z.mod_1_r.
    cbn. intuition.
  - change (Z.max 0 (Zpos p)) with (Zpos p).
    rewrite iter_pos_nat.
    destruct (iter_shr_1_spec M (Pos.to_nat p) HM) as [Hm Hl].
    rewrite positive_nat_Z in Hm, Hl.
    split; [reflexivity|]. split; [exact Hm|].
    destruct (Nat.iter (Pos.to_nat p) shr_1 _) as [m' r' s'].
    cbn [shr_r shr_s] in Hl. cbn [loc_of_shr_record].
    destruct (Z.eqb_spec (M mod 2 ^ Zpos p) 0) as [E|E]; cbn [negb] in Hl.
    + apply orb_false_iff in Hl. destruct Hl as [-> ->]. intuition.
    + destruct r', s'; cbn in Hl; try discriminate; split; intros; try discriminate; contradiction.
  - change (Z.max 0 (Zneg p)) with 0. rewrite Z.add_0_r, Z.div_1_r, Z.mod_1_r.
    cbn. intuition.
Qed.

Lemma round_nearest_even_bounds m l :
  m <= round_nearest_even m l <= m + 1 /\
  (l = loc_Exact -> round_nearest_even m l = m).
Proof.
  destruct l as [|[| |]]; cbn [round_nearest_even];
    try destruct (Z.even m); split; auto; try lia; discriminate.
Qed.

(** One rounding stage: shift towards the canonical exponent, then round
    to nearest even.  A value bounded by an integer that the target
    exponent represents stays bounded by it. *)
Lemma shr_fexp_round_bound M e N :
  0 <= M -> e <= 0 -> 0 < N < 2 ^ 53 -> M <= N * 2 ^ (- e) ->
  forall r e', shr_fexp 53 1024 M e loc_Exact = (r, e') ->
  e' <= 0 /\
  0 <= round_nearest_even (shr_m r) (loc_of_shr_record r) <= N * 2 ^ (- e').
Proof.
  intros HM He HN Hb r e' Hs.
  unfold shr_fexp in Hs. cbn [shr_record_of_loc] in Hs.
  set (k := fexp 53 1024 (Zdigits2 M + e) - e) in *.
  destruct (shr_spec M e k HM) as (H1 & H2 & H3).
  rewrite Hs in H1, H2, H3. cbn [fst snd] in H1, H2, H3.
  destruct (round_nearest_even_bounds (shr_m r) (loc_of_shr_record r)) as [Hr1 Hr2].
  assert (Hpe : 0 < 2 ^ (- e)) by (apply pow2_pos; lia).
  assert (Hd : Zdigits2 M <= 53 - e).
  { apply Zdigits2_le; [lia|]. split; [lia|].
    replace (53 - e) with (53 + - e) by lia.
    rewrite pow2_split by lia. nia. }
  assert (He' : e' <= 0).
  { subst e' k. unfold fexp, emin. lia. }
  split; [exact He'|].
  assert (Hk : 0 <= Z.max 0 k) by lia.
  assert (Hpk : 0 < 2 ^ Z.max 0 k) by (apply pow2_pos; lia).
  assert (Hpe' : 0 < 2 ^ (- e')) by (apply pow2_pos; lia).
  assert (Hsplit : 2 ^ (- e) = 2 ^ (- e') * 2 ^ Z.max 0 k).
  { rewrite <- pow2_split by lia. f_equal. lia. }
  assert (Hq0 : 0 <= shr_m r) by (rewrite H2; apply Z.div_pos; lia).
  split; [lia|].
  pose proof (Z.div_mod M (2 ^ Z.max 0 k) ltac:(lia)) as Hdm.
  pose proof (Z.mod_pos_bound M (2 ^ Z.max 0 k) Hpk) as Hmb.
  rewrite <- H2 in Hdm.
  destruct (Z_lt_le_dec (shr_m r) (N * 2 ^ (- e'))) as [Hlt|Hge]; [lia|].
  assert (Hex : M mod 2 ^ Z.max 0 k = 0) by nia.
  apply H3 in Hex. rewrite (Hr2 Hex). nia.
Qed.

Lemma shr_floor_bound M e N :
  0 <= M -> e <= 0 -> 0 < N < 2 ^ 53 -> M <= N * 2 ^ (- e) ->
  forall r e', shr_fexp 53 1024 M e loc_Exact = (r, e') ->
  e' <= 0 /\ 0 <= shr_m r <= N * 2 ^ (- e').
Proof.
  intros HM He HN Hb r e' Hs.
  destruct (shr_fexp_round_bound M e N HM He HN Hb r e' Hs) as [He' _].
  split; [exact He'|].
  unfold shr_fexp in Hs. cbn [shr_record_of_loc] in Hs.
  set (k := fexp 53 1024 (Zdigits2 M + e) - e) in *.
  destruct (shr_spec M e k HM) as (H1 & H2 & _).
  rewrite Hs in H1, H2. cbn [fst snd] in H1, H2.
  assert (Hk : 0 <= Z.max 0 k) by lia.
  assert (Hpk : 0 < 2 ^ Z.max 0 k) by (apply pow2_pos; lia).
  assert (Hpe' : 0 < 2 ^ (- e')) by (apply pow2_pos; lia).
  assert (Hsplit : 2 ^ (- e) = 2 ^ (- e') * 2 ^ Z.max 0 k).
  { rewrite <- pow2_split by lia. f_equal. lia. }
  rewrite H2. split; [apply Z.div_pos; lia|].
  apply Z.div_le_upper_bound; [lia|]. nia.
Qed.

(** Rounding to binary64 is monotone against a representable integer:
    a magnitude at most [N] (below 2^53) rounds to a magnitude at most [N]. *)
Lemma binary_round_aux_bound s M e N :
  e <= 0 -> 0 < N < 2 ^ 53 -> Zpos M <= N * 2 ^ (- e) ->
  match binary_round_aux 53 1024 s (Zpos M) e loc_Exact with
  | S754_zero s' => s' = s
  | S754_finite s' m' e' => s' = s /\ e' <= 0 /\ Zpos m' <= N * 2 ^ (- e')
  | _ => False
  end.
Proof.
  intros He HN Hb. unfold binary_round_aux.
  destruct (shr_fexp 53 1024 (Zpos M) e loc_Exact) as [r1 e1] eqn:E1.
  destruct (shr_fexp_round_bound (Zpos M) e N ltac:(lia) He HN Hb r1 e1 E1) as [He1 Hm1].
  set (m1 := round_nearest_even (shr_m r1) (loc_of_shr_record r1)) in *.
  destruct (shr_fexp 53 1024 m1 e1 loc_Exact) as [r2 e2] eqn:E2.
  destruct (shr_floor_bound m1 e1 N ltac:(lia) He1 HN ltac:(lia) r2 e2 E2) as [He2 Hm2].
  revert Hm2. destruct (shr_m r2) as [|m2|m2]; intros Hm2; [reflexivity| |lia].
  replace (e2 <=? 1024 - 53) with true by (symmetry; apply Z.leb_le; lia).
  repeat split; (reflexivity || lia).
Qed.

(** *** Canonical forms *)

(** [binary_round_aux] leaves a canonical mantissa alone. *)
Lemma binary_round_aux_canonical s m e :
  bounded 53 1024 m e = true ->
  binary_round_aux 53 1024 s (Zpos m) e loc_Exact = S754_finite s m e.
Proof.
  unfold bounded, canonical_mantissa. intros H.
  apply andb_true_iff in H. destruct H as [Hc He].
  apply Z.eqb_eq in Hc.
  unfold binary_round_aux, shr_fexp. cbn [Zdigits2 shr_record_of_loc].
  rewrite Hc, Z.sub_diag.
  cbn [shr shr_m loc_of_shr_record round_nearest_even Zdigits2].
  rewrite Hc, Z.sub_diag. cbn [shr shr_m]. rewrite He. reflexivity.
Qed.

Lemma bounded_53 m e :
  Zpos (digits2_pos m) = 53 -> -1074 <= e <= 971 -> bounded 53 1024 m e = true.
Proof.
  intros Hd He. unfold bounded, canonical_mantissa, fexp, emin. rewrite Hd.
  apply andb_true_iff. split; [apply Z.eqb_eq|apply Z.leb_le]; lia.
Qed.

(** An integer mantissa of at most 53 bits is normalised exactly: the
    mantissa is shifted left to 53 bits. *)
Lemma binary_round_normal s p e :
  Zpos (digits2_pos p) <= 53 ->
  -1074 <= e + Zpos (digits2_pos p) - 53 <= 971 ->
  exists m,
    binary_round 53 1024 s p e
    = S754_finite s m (e + Zpos (digits2_pos p) - 53) /\
    Zpos m = Zpos p * 2 ^ (53 - Zpos (digits2_pos p)) /\
    Zpos (digits2_pos m) = 53.
Proof.
  set (d := Zpos (digits2_pos p)). intros Hd He.
  unfold binary_round, shl_align. fold d. unfold fexp, emin.
  replace (Z.max (d + e - 53) (3 - 1024 - 53)) with (e + d - 53) by lia.
  destruct (e + d - 53 - e) as [|q|q] eqn:Eq; try lia.
  - exists p. replace (53 - d) with 0 by lia.
    replace (e + d - 53) with e by lia.
    rewrite binary_round_aux_canonical by (apply bounded_53; fold d; lia).
    repeat split; fold d; lia.
  - exists (Pos.iter xO p q).
    assert (Hq : Zpos q = 53 - d) by lia.
    assert (Hdig : Zpos (digits2_pos (Pos.iter xO p q)) = 53)
      by (rewrite iter_xO_digits; fold d; lia).
    rewrite binary_round_aux_canonical by (apply bounded_53; lia).
    rewrite iter_xO_Z, Hq. repeat split; assumption.
Qed.

(** Division of a normal number by a power of two only moves the
    exponent. *)
Lemma div_pow2 s m e ey :
  Zpos (digits2_pos m) = 53 ->
  -1073 <= e - ey - 52 <= 971 ->
  SFdiv 53 1024 (S754_finite s m e) (S754_finite false 4503599627370496 ey)
  = S754_finite s m (e - ey - 52).
Proof.
  intros Hd He.
  unfold SFdiv, SFdiv_core_binary. cbn [Zdigits2]. rewrite Hd.
  change (Zpos (digits2_pos 4503599627370496)) with 53.
  unfold fexp, emin.
  replace (Z.min (Z.max (53 + e - (53 + ey) - 53) (3 - 1024 - 53)) (e - ey))
    with (e - ey - 53) by lia.
  replace (e - ey - (e - ey - 53)) with 53 by lia.
  rewrite Z.shiftl_mul_pow2 by lia.
  pose proof (Z.div_eucl_eq (Zpos m * 2 ^ 53) 4503599627370496 ltac:(lia)) as Heq.
  pose proof (Z.mod_pos_bound (Zpos m * 2 ^ 53) 4503599627370496 ltac:(lia)) as Hb.
  unfold Z.modulo in Hb.
  destruct (Z.div_eucl (Zpos m * 2 ^ 53) 4503599627370496) as [q r].
  change (2 ^ 53) with (2 * 4503599627370496) in Heq.
  assert (Hq : q = Zpos m~0) by lia.
  assert (Hr : r = 0) by lia.
  subst q r.
  change (new_location 4503599627370496 0) with loc_Exact.
  rewrite xorb_false_r.
  unfold binary_round_aux, shr_fexp. cbn [Zdigits2 digits2_pos shr_record_of_loc].
  rewrite Pos2Z.inj_succ, Hd. unfold fexp, emin.
  replace (Z.max (Z.succ 53 + (e - ey - 53) - 53) (3 - 1024 - 53) - (e - ey - 53))
    with 1 by lia.
  cbn [shr iter_pos shr_1 shr_m loc_of_shr_record round_nearest_even Zdigits2 orb].
  rewrite Hd.
  replace (Z.max (53 + (e - ey - 53 + 1) - 53) (3 - 1024 - 53) - (e - ey - 53 + 1))
    with 0 by lia.
  cbn [shr shr_m].
  replace (e - ey - 53 + 1) with (e - ey - 52) by lia.
  replace (e - ey - 52 <=? 1024 - 53) with true by (symmetry; apply Z.leb_le; lia).
  reflexivity.
Qed.

(** *** Integers as floats *)

Lemma binary_normalize_int z s0 :
  z <> 0 -> Z.abs z < 2 ^ 53 ->
  exists m,
    binary_normalize 53 1024 z 0 s0
    = S754_finite (z <? 0) m (Zdigits2 z - 53) /\
    Zpos m = Z.abs z * 2 ^ (53 - Zdigits2 z) /\
    Zpos (digits2_pos m) = 53 /\
    1 <= Zdigits2 z <= 53.
Proof.
  intros Hz Hb.
  destruct z as [|p|p]; [contradiction| |];
    cbn [binary_normalize Zdigits2 Z.abs Z.ltb Z.compare] in *.
  - assert (Hd : Zpos (digits2_pos p) <= 53) by (apply digits2_pos_le; lia).
    destruct (binary_round_normal false p 0 Hd ltac:(lia)) as (m & E & Hm & Hdm).
    exists m. rewrite E. repeat split; try assumption; try lia.
  - assert (Hd : Zpos (digits2_pos p) <= 53) by (apply digits2_pos_le; lia).
    destruct (binary_round_normal true p 0 Hd ltac:(lia)) as (m & E & Hm & Hdm).
    exists m. rewrite E. repeat split; try assumption; try lia.
Qed.

Lemma truncZ_int z s0 :
  Z.abs z < 2 ^ 53 -> truncZ (binary_normalize 53 1024 z 0 s0) = Some z.
Proof.
  intros Hb. destruct (Z.eq_dec z 0) as [->|Hz]; [reflexivity|].
  destruct (binary_normalize_int z s0 Hz Hb) as (m & E & Hm & Hdm & Hd).
  rewrite E. cbn [truncZ]. f_equal. rewrite Hm.
  set (d := Zdigits2 z) in *.
  assert (Hp : 0 < 2 ^ (53 - d)) by (apply pow2_pos; lia).
  destruct (Z.leb_spec 0 (d - 53)) as [H|H].
  - replace (d - 53) with 0 by lia. replace (53 - d) with 0 by lia.
    destruct (Z.ltb_spec z 0); cbn [cond_Zopp]; lia.
  - replace (- (d - 53)) with (53 - d) by lia.
    rewrite Z.div_mul by lia.
    destruct (Z.ltb_spec z 0); cbn [cond_Zopp]; lia.
Qed.

(** *** The rational value *)

Lemma toQ_neg_exp s m e :
  e < 0 ->
  toQ (S754_finite s m e)
  = Qmake (cond_Zopp s (Zpos m)) (Z.to_pos (2 ^ (- e))).
Proof.
  intros He. destruct e as [|k|k]; try lia.
  cbn [toQ Z.opp]. f_equal.
  rewrite <- Pos2Z.inj_pow. reflexivity.
Qed.

Lemma Zpos_to_pos_pow2 k : 0 <= k -> Zpos (Z.to_pos (2 ^ k)) = 2 ^ k.
Proof. intros Hk. apply Z2Pos.id. apply pow2_pos; assumption. Qed.

Lemma cond_Zopp_abs z : cond_Zopp (z <? 0) (Z.abs z) = z.
Proof. destruct (Z.ltb_spec z 0); cbn [cond_Zopp]; lia. Qed.

(** [float64(v) / 2^k] is the exact quotient: no rounding happens. *)
Lemma div_int_pow2 v b k :
  of_Z b = S754_finite false 4503599627370496 (k - 52) ->
  1 <= k <= 64 -> Z.abs v < 2 ^ 53 ->
  is_finite (div (of_Z v) (of_Z b)) = true /\
  valid (div (of_Z v) (of_Z b)) = true /\
  (toQ (div (of_Z v) (of_Z b)) == Qmake v (Z.to_pos (2 ^ k)))%Q.
Proof.
  intros Hb Hk Hv. rewrite Hb.
  destruct (Z.eq_dec v 0) as [->|Hz].
  { cbn. repeat split. }
  destruct (binary_normalize_int v false Hz Hv) as (m & E & Hm & Hdm & Hd).
  unfold of_Z, div, prec, emax. rewrite E.
  rewrite div_pow2 by (assumption || lia).
  set (d := Zdigits2 v) in *.
  repeat split.
  - unfold valid. cbn [valid_binary]. apply bounded_53; [assumption|lia].
  - rewrite toQ_neg_exp by lia.
    unfold Qeq. cbn [Qnum Qden].
    rewrite !Zpos_to_pos_pow2 by lia.
    replace (- (d - 53 - (k - 52) - 52)) with ((53 - d) + k) by lia.
    rewrite pow2_split by lia.
    rewrite <- (cond_Zopp_abs v) at 2.
    destruct (v <? 0); cbn [cond_Zopp]; rewrite Hm; ring.
Qed.

(** *** Comparison with 1.0 and -1.0 *)

Lemma valid_finite s m e :
  valid (S754_finite s m e) = true ->
  Zpos m < 2 ^ 53 /\ -1074 <= e /\
  (-1074 < e -> 2 ^ 52 <= Zpos m).
Proof.
  unfold valid, prec, emax. cbn [valid_binary]. unfold bounded, canonical_mantissa.
  intros H. apply andb_true_iff in H. destruct H as [Hc _].
  apply Z.eqb_eq in Hc. unfold fexp, emin in Hc.
  destruct (digits2_pos_bounds m) as [Hlo Hhi].
  assert (Hd : Zpos (digits2_pos m) <= 53) by lia.
  assert (2 ^ Zpos (digits2_pos m) <= 2 ^ 53) by (apply Z.pow_le_mono_r; lia).
  repeat split; try lia.
  intros He. replace (Zpos (digits2_pos m) - 1) with 52 in Hlo by lia. exact Hlo.
Qed.

Lemma one_eq : one = S754_finite false 4503599627370496 (-52).
Proof. reflexivity. Qed.

Lemma mone_eq : mone = S754_finite true 4503599627370496 (-52).
Proof. reflexivity. Qed.

(** A float64 that is neither [>= 1.0] nor [<= -1.0] has a magnitude
    below one. *)
Lemma abs_lt_one s m e :
  valid (S754_finite s m e) = true ->
  geb (S754_finite s m e) one = false ->
  leb (S754_finite s m e) mone = false ->
  e <= -53 /\ Zpos m < 2 ^ 53.
Proof.
  intros Hv Hge Hle. destruct (valid_finite s m e Hv) as (Hm & He & Hn).
  split; [|exact Hm].
  rewrite one_eq in Hge. rewrite mone_eq in Hle.
  unfold geb, leb, SFleb, SFcompare in Hge, Hle.
  change (Pos.compare_cont Eq) with Pos.compare in Hge, Hle.
  rewrite Pos2Z.inj_compare in Hge, Hle.
  destruct s.
  - destruct (Z.compare_spec e (-52)) as [E|E|E]; try lia; try discriminate.
    subst e. specialize (Hn ltac:(lia)).
    destruct (Z.compare_spec (Zpos m) (Zpos 4503599627370496)) as [E|E|E];
      cbn in Hle; try discriminate.
    change (2 ^ 52) with (Zpos 4503599627370496) in Hn. lia.
  - destruct (Z.compare_spec (-52) e) as [E|E|E]; try lia; try discriminate.
    subst e. specialize (Hn ltac:(lia)).
    destruct (Z.compare_spec (Zpos 4503599627370496) (Zpos m)) as [E|E|E];
      cbn in Hge; try discriminate.
    change (2 ^ 52) with (Zpos 4503599627370496) in Hn. lia.
Qed.

Lemma le_mone_not_ge_one v :
  is_finite v = true -> leb v mone = true -> geb v one = false.
Proof.
  rewrite one_eq, mone_eq. unfold leb, geb, SFleb, SFcompare.
  destruct v as [s|s|  |[|] m e]; intros Hf H; try discriminate; reflexivity.
Qed.

(** A valid finite float that is not [> 1.0] is at most one, and one
    that is not [< -1.0] is at least minus one. *)
Lemma not_gt_one_le x :
  valid x = true -> is_finite x = true -> gtb x one = false -> (toQ x <= 1)%Q.
Proof.
  intros Hv Hf Hgt. destruct x as [s|s| |s m e]; try discriminate.
  destruct (valid_finite s m e Hv) as (Hm & He & Hn).
  rewrite one_eq in Hgt. unfold gtb, SFltb, SFcompare in Hgt.
  change (Pos.compare_cont Eq) with Pos.compare in Hgt.
  rewrite Pos2Z.inj_compare in Hgt.
  destruct s.
  - (* negative *)
    destruct e as [|k|k]; cbn [toQ cond_Zopp]; unfold Qle; cbn [Qnum Qden inject_Z]; lia.
  - destruct (Z.compare_spec (-52) e) as [E|E|E]; try discriminate.
    + subst e.
      destruct (Z.compare_spec (Zpos 4503599627370496) (Zpos m)) as [E|E|E]; try discriminate.
      * cbn [toQ cond_Zopp Qopp]. unfold Qle. cbn [Qnum Qden Qopp]. rewrite Pos2Z.inj_pow. lia.
      * cbn [toQ cond_Zopp Qopp]. unfold Qle. cbn [Qnum Qden Qopp]. rewrite Pos2Z.inj_pow. lia.
    + rewrite toQ_neg_exp by lia. unfold Qle. cbn [Qnum Qden cond_Zopp].
      rewrite Zpos_to_pos_pow2 by lia.
      assert (2 ^ 53 <= 2 ^ (- e)) by (apply Z.pow_le_mono_r; lia).
      lia.
Qed.

Lemma not_lt_mone_ge x :
  valid x = true -> is_finite x = true -> ltb x mone = false -> (- (1) <= toQ x)%Q.
Proof.
  intros Hv Hf Hlt. destruct x as [s|s| |s m e]; try discriminate.
  destruct (valid_finite s m e Hv) as (Hm & He & Hn).
  rewrite mone_eq in Hlt. unfold ltb, SFltb, SFcompare in Hlt.
  change (Pos.compare_cont Eq) with Pos.compare in Hlt.
  rewrite Pos2Z.inj_compare in Hlt.
  destruct s.
  - destruct (Z.compare_spec e (-52)) as [E|E|E]; try discriminate.
    + subst e.
      destruct (Z.compare_spec (Zpos m) (Zpos 4503599627370496)) as [E|E|E];
        cbn in Hlt; try discriminate.
      * cbn [toQ cond_Zopp Qopp]. unfold Qle. cbn [Qnum Qden Qopp]. rewrite Pos2Z.inj_pow. lia.
      * cbn [toQ cond_Zopp Qopp]. unfold Qle. cbn [Qnum Qden Qopp]. rewrite Pos2Z.inj_pow. lia.
    + rewrite toQ_neg_exp by lia. unfold Qle. cbn [Qnum Qden cond_Zopp Qopp].
      rewrite Zpos_to_pos_pow2 by lia.
      assert (2 ^ 53 <= 2 ^ (- e)) by (apply Z.pow_le_mono_r; lia).
      lia.
  - destruct e as [|k|k]; cbn [toQ cond_Zopp]; unfold Qle; cbn [Qnum Qden inject_Z Qopp]; lia.
Qed.

(** *** [math.Round] *)

Lemma round_half_up_spec m k N :
  0 <= m -> 0 < k -> 0 <= N -> m <= N * 2 ^ k ->
  0 <= round_half_up m k <= N /\
  Z.abs (2 * (round_half_up m k * 2 ^ k - m)) <= 2 ^ k.
Proof.
  intros Hm Hk HN Hb. unfold round_half_up.
  assert (Hp : 0 < 2 ^ k) by (apply pow2_pos; lia).
  pose proof (Z.div_mod m (2 ^ k) ltac:(lia)) as Hdm.
  pose proof (Z.mod_pos_bound m (2 ^ k) Hp) as Hmb.
  assert (Hq : 0 <= m / 2 ^ k) by (apply Z.div_pos; lia).
  destruct (Z.leb_spec (2 ^ k) (2 * (m mod 2 ^ k))) as [H|H]; split; try nia.
Qed.

Lemma truncZ_Round s m e n :
  n = (if 0 <=? e then Zpos m * 2 ^ e else round_half_up (Zpos m) (- e)) ->
  0 <= n < 2 ^ 53 ->
  truncZ (Round (S754_finite s m e)) = Some (cond_Zopp s n).
Proof.
  intros Hn Hb. unfold Round.
  destruct (Z.leb_spec 0 e) as [He|He].
  - cbn [truncZ]. replace (0 <=? e) with true by (symmetry; apply Z.leb_le; lia).
    rewrite Hn. reflexivity.
  - rewrite <- Hn. destruct n as [|p|p].
    + destruct s; reflexivity.
    + unfold prec, emax. rewrite truncZ_int; [reflexivity|].
      destruct s; cbn [cond_Zopp]; lia.
    + lia.
Qed.

End F64Facts.

(* ------------------------------------------------------------------ *)
(** ** The sample conversions *)
(* ------------------------------------------------------------------ *)

Module ConvFacts.
Import F64 F64Facts Wav WavFile.

Lemma int16_wrap_id n :
  -32768 <= n <= 32767 -> (n + 2 ^ 15) mod 2 ^ 16 - 2 ^ 15 = n.
Proof. intros H. rewrite Z.mod_small; lia. Qed.

Lemma int16_of_float64_trunc x n :
  truncZ x = Some n -> -32768 <= n <= 32767 -> int16_of_float64 x = n.
Proof.
  intros Ht Hn. unfold int16_of_float64. rewrite Ht.
  replace ((- 2 ^ 31 <=? n) && (n <? 2 ^ 31)) with true.
  - apply int16_wrap_id; assumption.
  - symmetry. apply andb_true_iff. split; [apply Z.leb_le|apply Z.ltb_lt]; lia.
Qed.

(** Rounding a float of magnitude at most [N] to an int16. *)
Lemma int16_Round s m e N :
  e <= 0 -> 0 < N <= 32767 -> Zpos m <= N * 2 ^ (- e) ->
  - N <= int16_of_float64 (Round (S754_finite s m e)) <= N /\
  (Qabs (inject_Z (int16_of_float64 (Round (S754_finite s m e)))
         - toQ (S754_finite s m e)) <= 1 # 2)%Q.
Proof.
  intros He HN Hb.
  destruct (Z.eq_dec e 0) as [->|Hne].
  - change (2 ^ (- 0)) with 1 in Hb.
    rewrite (int16_of_float64_trunc _ (cond_Zopp s (Zpos m))).
    + split; [destruct s; cbn [cond_Zopp]; lia|].
      cbn [toQ]. unfold Qminus, Qplus, Qopp, Qabs, Qle, inject_Z.
      cbn [Qnum Qden]. lia.
    + rewrite (truncZ_Round s m 0 (Zpos m)); [reflexivity|cbn; lia|lia].
    + destruct s; cbn [cond_Zopp]; lia.
  - destruct (round_half_up_spec (Zpos m) (- e) N ltac:(lia) ltac:(lia) ltac:(lia) Hb)
      as [Hr Hn].
    set (n := round_half_up (Zpos m) (- e)) in *.
    assert (Ht : truncZ (Round (S754_finite s m e)) = Some (cond_Zopp s n)).
    { apply truncZ_Round; [|lia].
      replace (0 <=? e) with false by (symmetry; apply Z.leb_gt; lia).
      reflexivity. }
    rewrite (int16_of_float64_trunc _ _ Ht)
      by (destruct s; cbn [cond_Zopp]; lia).
    split; [destruct s; cbn [cond_Zopp]; lia|].
    rewrite toQ_neg_exp by lia.
    unfold Qminus, Qplus, Qopp, Qabs, Qle, inject_Z. cbn [Qnum Qden].
    rewrite Pos.mul_1_l, Zpos_to_pos_pow2 by lia.
    destruct s; cbn [cond_Zopp]; lia.
Qed.

Lemma of_Z_32767 : of_Z 32767 = S754_finite false 9006924376834048 (-38).
Proof. reflexivity. Qed.

(** The product [v * 32767.0] of a float64 of magnitude below one,
    rounded and converted, stays inside [-32767, 32767] and is an
    integer nearest to the product. *)
Lemma floatToPCM16_inner s m e :
  valid (S754_finite s m e) = true ->
  geb (S754_finite s m e) one = false ->
  leb (S754_finite s m e) mone = false ->
  -32767 <= int16_of_float64 (Round (mul (S754_finite s m e) (of_Z 32767)))
          <= 32767 /\
  (Qabs (inject_Z (int16_of_float64
                     (Round (mul (S754_finite s m e) (of_Z 32767))))
         - toQ (mul (S754_finite s m e) (of_Z 32767))) <= 1 # 2)%Q.
Proof.
  intros Hv Hge Hle.
  destruct (abs_lt_one s m e Hv Hge Hle) as [He Hm].
  rewrite of_Z_32767. unfold mul, prec, emax. cbn [SFmul].
  assert (Hb : Zpos (m * 9006924376834048) <= 32767 * 2 ^ (- (e + -38))).
  { rewrite Pos2Z.inj_mul.
    replace (- (e + -38)) with (38 + - e) by lia.
    rewrite pow2_split by lia.
    assert (2 ^ 53 <= 2 ^ (- e)) by (apply Z.pow_le_mono_r; lia).
    change (Zpos 9006924376834048) with (32767 * 2 ^ 38).
    assert (0 < 2 ^ 38) by (apply pow2_pos; lia).
    nia. }
  pose proof (binary_round_aux_bound (xorb s false) (m * 9006924376834048)
                (e + -38) 32767 ltac:(lia) ltac:(split; [lia|reflexivity]) Hb) as Hr.
  destruct (binary_round_aux 53 1024 (xorb s false)
              (Zpos (m * 9006924376834048)) (e + -38) loc_Exact)
    as [s'|s'| |s' m' e']; try contradiction.
  - split; [cbn; lia|]. cbn. unfold Qle. cbn. lia.
  - destruct Hr as (_ & He' & Hm').
    apply (int16_Round s' m' e' 32767); [assumption|lia|assumption].
Qed.

(** *** The read conversions *)

Lemma sint16_range b0 b1 : -32768 <= sint16 b0 b1 <= 32767.
Proof.
  unfold sint16.
  pose proof (byte.unsigned_range b0). pose proof (byte.unsigned_range b1).
  destruct (Z.ltb_spec (byte.unsigned b0 + 2 ^ 8 * byte.unsigned b1) (2 ^ 15)); lia.
Qed.

Lemma sint24_range b0 b1 b2 : -8388608 <= sint24 b0 b1 b2 <= 8388607.
Proof.
  unfold sint24.
  pose proof (byte.unsigned_range b0). pose proof (byte.unsigned_range b1).
  pose proof (byte.unsigned_range b2).
  destruct (Z.ltb_spec (byte.unsigned b0 + 2 ^ 8 * byte.unsigned b1
                        + 2 ^ 16 * byte.unsigned b2) (2 ^ 23)); lia.
Qed.

Lemma readInt_2 b0 b1 rest :
  readInt 2 (b0 :: b1 :: rest) = inr (sint16 b0 b1, rest).
Proof.
  unfold readInt, readUint, ReadFull. cbn [List.length Nat.leb firstn skipn].
  rewrite BitFacts.le_combine_2. reflexivity.
Qed.

Lemma readPCM24Sample_3 b0 b1 b2 rest :
  readPCM24Sample (b0 :: b1 :: b2 :: rest) = inr (sint24 b0 b1 b2, rest).
Proof.
  unfold readPCM24Sample, ReadFull. cbn [List.length Nat.leb firstn skipn nth].
  pose proof (byte.unsigned_range b0) as H0.
  pose proof (byte.unsigned_range b1) as H1.
  pose proof (byte.unsigned_range b2) as H2.
  rewrite (BitFacts.lor_shiftl_add (byte.unsigned b0) _ 8) by lia.
  rewrite (BitFacts.lor_shiftl_add _ (byte.unsigned b2) 16) by lia.
  set (u := byte.unsigned b0 + byte.unsigned b1 * 2 ^ 8 + byte.unsigned b2 * 2 ^ 16).
  assert (Hu : 0 <= u < 2 ^ 24) by (unfold u; lia).
  change 8388608 with (2 ^ 23). change 16777215 with (2 ^ 24 - 1).
  rewrite (BitFacts.land_pow2_test u 23) by (cbn; lia).
  f_equal. f_equal. unfold sint24.
  replace (byte.unsigned b0 + 2 ^ 8 * byte.unsigned b1 + 2 ^ 16 * byte.unsigned b2)
    with u by (unfold u; lia).
  destruct (Z.ltb_spec u (2 ^ 23)); cbn [negb]; [reflexivity|].
  apply BitFacts.lor_sign_extend; lia.
Qed.

Lemma readPCM16_spec b0 b1 rest :
  readPCM16 (b0 :: b1 :: rest) = Ok (pcm16ToFloat (sint16 b0 b1), rest).
Proof. unfold readPCM16, bind, wrap, ret. rewrite readInt_2. reflexivity. Qed.

Lemma readPCM24_spec b0 b1 b2 rest :
  readPCM24 (b0 :: b1 :: b2 :: rest) = Ok (pcm24ToFloat (sint24 b0 b1 b2), rest).
Proof.
  unfold readPCM24, bind, wrap, ret. rewrite readPCM24Sample_3. reflexivity.
Qed.

Lemma readFloat32_spec b0 b1 b2 b3 rest :
  readFloat32 (b0 :: b1 :: b2 :: b3 :: rest)
  = Ok (float32ToFloat (F32.frombits (le_combine [b0; b1; b2; b3])), rest).
Proof. reflexivity. Qed.

(** [float64(v) / 32768.0] and [float64(v) / 8388608.0] are exact. *)
Lemma pcm16ToFloat_exact v :
  -32768 <= v <= 32767 ->
  is_finite (pcm16ToFloat v) = true /\
  valid (pcm16ToFloat v) = true /\
  (toQ (pcm16ToFloat v) == v # 32768)%Q.
Proof.
  intros Hv. unfold pcm16ToFloat.
  apply (div_int_pow2 v 32768 15); [reflexivity|lia|lia].
Qed.

Lemma pcm24ToFloat_exact v :
  -8388608 <= v <= 8388607 ->
  is_finite (pcm24ToFloat v) = true /\
  valid (pcm24ToFloat v) = true /\
  (toQ (pcm24ToFloat v) == v # 8388608)%Q.
Proof.
  intros Hv. unfold pcm24ToFloat.
  apply (div_int_pow2 v 8388608 23); [reflexivity|lia|lia].
Qed.

Lemma Qle_of_num a b (d : positive) : a <= b -> (a # d <= b # d)%Q.
Proof. intros H. unfold Qle. cbn [Qnum Qden]. nia. Qed.

Lemma pcm16ToFloat_range v :
  -32768 <= v <= 32767 ->
  is_finite (pcm16ToFloat v) = true /\
  (- (1) <= toQ (pcm16ToFloat v) <= 32767 # 32768)%Q.
Proof.
  intros Hv. destruct (pcm16ToFloat_exact v Hv) as (Hf & _ & Hq).
  split; [exact Hf|]. rewrite Hq. split.
  - assert (E : (- (1) == -32768 # 32768)%Q) by reflexivity.
    rewrite E. apply Qle_of_num; lia.
  - apply Qle_of_num; lia.
Qed.

Lemma pcm24ToFloat_range v :
  -8388608 <= v <= 8388607 ->
  is_finite (pcm24ToFloat v) = true /\
  (- (1) <= toQ (pcm24ToFloat v) <= 8388607 # 8388608)%Q.
Proof.
  intros Hv. destruct (pcm24ToFloat_exact v Hv) as (Hf & _ & Hq).
  split; [exact Hf|]. rewrite Hq. split.
  - assert (E : (- (1) == -8388608 # 8388608)%Q) by reflexivity.
    rewrite E. apply Qle_of_num; lia.
  - apply Qle_of_num; lia.
Qed.

(** *** float32 samples *)

Lemma frombits_bounds b :
  match F32.frombits b with
  | S754_finite _ m e => Zpos m < 2 ^ 24 /\ -149 <= e <= 104
  | _ => True
  end.
Proof.
  unfold F32.frombits.
  pose proof (Z.mod_pos_bound (b / 2 ^ 23) (2 ^ 8) ltac:(lia)) as He.
  pose proof (Z.mod_pos_bound b (2 ^ 23) ltac:(lia)) as Hm.
  destruct (Z.eqb_spec ((b / 2 ^ 23) mod 2 ^ 8) 255) as [E|E].
  { destruct (b mod 2 ^ 23 =? 0); exact I. }
  destruct (Z.eqb_spec ((b / 2 ^ 23) mod 2 ^ 8) 0) as [E0|E0].
  - destruct (b mod 2 ^ 23) as [|p|p]; try exact I. lia.
  - destruct (b mod 2 ^ 23 + 2 ^ 23) as [|p|p] eqn:Ep; try exact I. lia.
Qed.

Lemma to_float64_valid v :
  match v with
  | S754_finite _ m e => Zpos m < 2 ^ 24 /\ -149 <= e <= 104
  | _ => True
  end ->
  valid (F32.to_float64 v) = true.
Proof.
  destruct v as [s|s| |s m e]; try reflexivity.
  intros [Hm He]. unfold F32.to_float64, F64.prec, F64.emax.
  assert (Hd : Zpos (digits2_pos m) <= 24) by (apply digits2_pos_le; lia).
  pose proof (digits2_pos_bounds m) as Hdb.
  assert (1 <= Zpos (digits2_pos m)) by lia.
  destruct s; cbn [cond_Zopp Z.opp binary_normalize].
  - destruct (binary_round_normal true m e ltac:(lia) ltac:(lia)) as (m' & E & _ & Hd').
    rewrite E. unfold valid. cbn [valid_binary]. apply bounded_53; [assumption|lia].
  - destruct (binary_round_normal false m e ltac:(lia) ltac:(lia)) as (m' & E & _ & Hd').
    rewrite E. unfold valid. cbn [valid_binary]. apply bounded_53; [assumption|lia].
Qed.

Lemma unit_range_zero : unit_range zero.
Proof. split; [reflexivity|]. split; discriminate. Qed.

Lemma unit_range_one : unit_range one.
Proof. split; [reflexivity|]. split; discriminate. Qed.

Lemma unit_range_mone : unit_range mone.
Proof. split; [reflexivity|]. split; discriminate. Qed.

(** Whatever float32 is read, the sample stored is finite and inside
    [-1, 1]. *)
Lemma float32ToFloat_range v :
  valid (F32.to_float64 v) = true -> unit_range (float32ToFloat v).
Proof.
  intros Hv. unfold float32ToFloat.
  set (fv := F32.to_float64 v) in *.
  destruct (IsNaN fv || IsInf fv) eqn:Es.
  - change (gtb zero one) with false. change (ltb zero mone) with false.
    cbn iota. apply unit_range_zero.
  - assert (Hf : is_finite fv = true).
    { destruct fv; cbn in Es |- *; congruence. }
    destruct (gtb fv one) eqn:Eg; [apply unit_range_one|].
    destruct (ltb fv mone) eqn:El; [apply unit_range_mone|].
    split; [exact Hf|]. split.
    + apply not_lt_mone_ge; assumption.
    + apply not_gt_one_le; assumption.
Qed.

Lemma readFloat32_range s x s' :
  readFloat32 s = Ok (x, s') -> unit_range x.
Proof.
  unfold readFloat32, bind, wrap, ret.
  destruct (readUint 4 s) as [e|[b s1]]; [discriminate|].
  intros H. injection H as <- _.
  apply float32ToFloat_range, to_float64_valid, frombits_bounds.
Qed.

Lemma readPCM16_range s x s' :
  readPCM16 s = Ok (x, s') ->
  is_finite x = true /\ (- (1) <= toQ x <= 32767 # 32768)%Q.
Proof.
  destruct s as [|b0 [|b1 rest]]; try discriminate.
  rewrite readPCM16_spec. intros H. injection H as <- _.
  apply pcm16ToFloat_range, sint16_range.
Qed.

Lemma readPCM24_range s x s' :
  readPCM24 s = Ok (x, s') ->
  is_finite x = true /\ (- (1) <= toQ x <= 8388607 # 8388608)%Q.
Proof.
  destruct s as [|b0 [|b1 [|b2 rest]]]; try discriminate.
  rewrite readPCM24_spec. intros H. injection H as <- _.
  apply pcm24ToFloat_range, sint24_range.
Qed.

End ConvFacts.

(* ------------------------------------------------------------------ *)
(** ** The reader *)
(* ------------------------------------------------------------------ *)

Module ReaderFacts.
Import F64 Wav WavFile.

(** *** Reads of the [io] package *)

Lemma ReadFull_length n s bs s' :
  ReadFull n s = inr (bs, s') ->
  List.length bs = n /\ (List.length s' + n = List.length s)%nat.
Proof.
  unfold ReadFull. destruct (Nat.leb_spec n (List.length s)) as [H|H].
  - intros E. injection E as <- <-.
    rewrite length_firstn, length_skipn. lia.
  - destruct s; discriminate.
Qed.

Lemma ReadFull_app n a rest :
  List.length a = n -> ReadFull n (a ++ rest) = inr (a, rest).
Proof.
  intros <-. unfold ReadFull. rewrite length_app.
  replace (List.length a <=? List.length a + List.length rest)%nat with true
    by (symmetry; apply Nat.leb_le; lia).
  rewrite firstn_app, skipn_app, Nat.sub_diag, firstn_all, skipn_all.
  cbn [firstn skipn]. rewrite app_nil_r. reflexivity.
Qed.

Lemma readUint_length n s v s' :
  readUint n s = inr (v, s') ->
  0 <= v < 2 ^ (8 * Z.of_nat n) /\ (List.length s' + n = List.length s)%nat.
Proof.
  unfold readUint. destruct (ReadFull n s) as [e|[bs s1]] eqn:E; [discriminate|].
  intros H. injection H as <- <-.
  destruct (ReadFull_length n s bs s1 E) as [Hl Hs].
  split; [|exact Hs]. pose proof (le_combine_bound bs) as Hb.
  rewrite Hl in Hb. exact Hb.
Qed.

Lemma readUint_app n v rest :
  readUint n (le_split n v ++ rest) = inr (v mod 2 ^ (Z.of_nat n * 8), rest).
Proof.
  unfold readUint. rewrite ReadFull_app by apply length_le_split.
  rewrite le_combine_split. reflexivity.
Qed.

Lemma readUint_app_small n v rest :
  0 <= v < 2 ^ (Z.of_nat n * 8) ->
  readUint n (le_split n v ++ rest) = inr (v, rest).
Proof. intros H. rewrite readUint_app, Z.mod_small by assumption. reflexivity. Qed.

Lemma CopyN_length n s s' :
  CopyN n s = inr (tt, s') -> (List.length s' <= List.length s)%nat.
Proof.
  unfold CopyN. destruct (n <=? Z.of_nat (List.length s)); [|discriminate].
  intros H. injection H as <-. rewrite length_skipn. lia.
Qed.

Lemma CopyN_app a rest :
  CopyN (Z.of_nat (List.length a)) (a ++ rest) = inr (tt, rest).
Proof.
  unfold CopyN. rewrite length_app, Nat2Z.id.
  replace (Z.of_nat (List.length a) <=? Z.of_nat (List.length a + List.length rest))
    with true by (symmetry; apply Z.leb_le; lia).
  rewrite skipn_app, Nat.sub_diag, skipn_all. reflexivity.
Qed.

(** *** Slices updated by index *)

Lemma length_list_set {A} (l : list A) i v :
  List.length (list_set l i v) = List.length l.
Proof.
  revert i. induction l as [|h t IH]; intros [|i]; cbn [list_set List.length];
    try reflexivity. rewrite IH. reflexivity.
Qed.

Lemma Forall_list_set {A} (P : A -> Prop) (l : list A) i v :
  Forall P l -> P v -> Forall P (list_set l i v).
Proof.
  intros Hl Hv. revert i. induction Hl as [|h t Hh Ht IH]; intros [|i];
    cbn [list_set]; constructor; auto.
Qed.

Lemma Forall_nth_nil {A} (P : list A -> Prop) (l : list (list A)) ch :
  P [] -> Forall P l -> P (nth ch l []).
Proof.
  intros H0 Hl. revert ch. induction Hl as [|h t Hh Ht IH]; intros [|ch];
    cbn [nth]; auto.
Qed.

Lemma map_length_list_set {A} (l : list (list A)) ch c :
  List.length c = List.length (nth ch l []) ->
  map (@List.length A) (list_set l ch c) = map (@List.length A) l.
Proof.
  revert ch. induction l as [|h t IH]; intros [|ch]; cbn [list_set map nth];
    intros H; try reflexivity.
  - rewrite H. reflexivity.
  - rewrite IH by assumption. reflexivity.
Qed.

Lemma setSample_shape samples ch i v :
  map (@List.length float64) (setSample samples ch i v)
  = map (@List.length float64) samples.
Proof. unfold setSample. apply map_length_list_set, length_list_set. Qed.

Lemma setSample_Forall (P : float64 -> Prop) samples ch i v :
  Forall (Forall P) samples -> P v -> Forall (Forall P) (setSample samples ch i v).
Proof.
  intros Hs Hv. unfold setSample. apply Forall_list_set; [assumption|].
  apply Forall_list_set; [|assumption].
  apply (Forall_nth_nil (Forall P)); [constructor|assumption].
Qed.

(** *** The sample loops *)

Section Frames.
Variable decode : Reader float64.

Lemma readFrame_shape i n : forall ch samples s samples' s',
  readFrame decode i n ch samples s = Ok (samples', s') ->
  map (@List.length float64) samples' = map (@List.length float64) samples.
Proof.
  induction n as [|n IH]; intros ch samples s samples' s'; cbn [readFrame].
  - unfold ret. intros H. injection H as <- _. reflexivity.
  - unfold bind. destruct (decode s) as [[v s1]|e]; [|discriminate].
    intros H. apply IH in H. rewrite H. apply setSample_shape.
Qed.

Lemma readFrames_shape channels n : forall i samples s samples' s',
  readFrames decode channels n i samples s = Ok (samples', s') ->
  map (@List.length float64) samples' = map (@List.length float64) samples.
Proof.
  induction n as [|n IH]; intros i samples s samples' s'; cbn [readFrames].
  - unfold ret. intros H. injection H as <- _. reflexivity.
  - unfold bind.
    destruct (readFrame decode i channels 0 samples s) as [[s1 r1]|e] eqn:E;
      [|discriminate].
    intros H. apply IH in H. rewrite H. eapply readFrame_shape; eassumption.
Qed.

Variable P : float64 -> Prop.
Hypothesis decode_P : forall s x s', decode s = Ok (x, s') -> P x.

Lemma readFrame_Forall i n : forall ch samples s samples' s',
  readFrame decode i n ch samples s = Ok (samples', s') ->
  Forall (Forall P) samples -> Forall (Forall P) samples'.
Proof.
  induction n as [|n IH]; intros ch samples s samples' s'; cbn [readFrame].
  - unfold ret. intros H. injection H as <- _. auto.
  - unfold bind. destruct (decode s) as [[v s1]|e] eqn:E; [|discriminate].
    intros H Hs. apply IH in H; [assumption|].
    apply setSample_Forall; [assumption|]. eapply decode_P; eassumption.
Qed.

Lemma readFrames_Forall channels n : forall i samples s samples' s',
  readFrames decode channels n i samples s = Ok (samples', s') ->
  Forall (Forall P) samples -> Forall (Forall P) samples'.
Proof.
  induction n as [|n IH]; intros i samples s samples' s'; cbn [readFrames].
  - unfold ret. intros H. injection H as <- _. auto.
  - unfold bind.
    destruct (readFrame decode i channels 0 samples s) as [[s1 r1]|e] eqn:E;
      [|discriminate].
    intros H Hs. apply IH in H; [assumption|].
    eapply readFrame_Forall; eassumption.
Qed.
End Frames.

(** *** Chunk bodies *)

Ltac read_uint H :=
  match type of H with
  | context [readUint ?n ?s] =>
      let E := fresh "E" in
      destruct (readUint n s) as [?|[? ?]] eqn:E; [discriminate|];
      apply readUint_length in E; destruct E
  end.

Lemma readFmt_length chunkSize s f s' :
  readFmt chunkSize s = Ok (f, s') ->
  (List.length s' + 16 <= List.length s)%nat /\ fmtRead f.
Proof.
  unfold readFmt. destruct (chunkSize <? 16); [discriminate|].
  unfold bind, wrap, ret. intros H.
  do 6 read_uint H.
  destruct (0 <? chunkSize - 16).
  - match type of H with
    | context [CopyN ?n ?s0] =>
        destruct (CopyN n s0) as [?|[[] s6]] eqn:E6; [discriminate|]
    end.
    apply CopyN_length in E6. injection H as <- <-.
    split; [lia|]. split; cbn; assumption.
  - injection H as <- <-. split; [lia|]. split; cbn; assumption.
Qed.

Lemma skipChunk_length chunkID chunkSize s u s' :
  skipChunk chunkID chunkSize s = Ok (u, s') ->
  (List.length s' <= List.length s)%nat.
Proof.
  unfold skipChunk, bind, wrap, ret.
  destruct (CopyN chunkSize s) as [?|[[] s1]] eqn:E1; [discriminate|].
  apply CopyN_length in E1.
  destruct (chunkSize mod 2 =? 1).
  - destruct s1 as [|b s2]; cbn [ReadByte]; [discriminate|].
    intros H. injection H as _ <-. cbn [List.length] in E1. lia.
  - intros H. injection H as _ <-. exact E1.
Qed.

(** *** Fuel *)

Section Fuel.
Variable samplesOf :
  wavFormat -> nat -> nat -> list (list float64) -> Reader (list (list float64)).

(** Fuel beyond the length of the stream is never used up. *)
Lemma readChunks_enough fuel : forall e f s,
  (List.length s < fuel)%nat -> readChunks samplesOf fuel e f s <> None.
Proof.
  induction fuel as [|fuel IH]; intros e f s Hlen; [lia|].
  cbn [readChunks].
  destruct (ReadFull 4 s) as [[|]|[chunkID s1]] eqn:E1; try discriminate.
  apply ReadFull_length in E1. destruct E1 as [_ E1].
  unfold wrap.
  destruct (readUint 4 s1) as [?|[chunkSize s2]] eqn:E2; [discriminate|].
  apply readUint_length in E2. destruct E2 as [_ E2].
  destruct (string_of_list_byte chunkID =? "fmt ")%string.
  { destruct (readFmt chunkSize s2) as [[f' s3]|?] eqn:E3; [|discriminate].
    apply readFmt_length in E3. apply IH. lia. }
  destruct (string_of_list_byte chunkID =? "data")%string.
  { destruct (readData samplesOf e f chunkSize s2) as [[a ?]|?]; discriminate. }
  destruct (skipChunk chunkID chunkSize s2) as [[u s3]|?] eqn:E3; [|discriminate].
  apply skipChunk_length in E3. apply IH. lia.
Qed.

(** More fuel does not change a result. *)
Lemma readChunks_mono fuel : forall fuel' e f s r,
  readChunks samplesOf fuel e f s = Some r -> (fuel <= fuel')%nat ->
  readChunks samplesOf fuel' e f s = Some r.
Proof.
  induction fuel as [|fuel IH]; intros fuel' e f s r H Hle; [discriminate|].
  destruct fuel' as [|fuel']; [lia|].
  cbn [readChunks] in H |- *.
  destruct (ReadFull 4 s) as [[|]|[chunkID s1]]; try assumption.
  destruct (wrap ErrReadChunkSize (readUint 4) s1) as [[chunkSize s2]|?];
    [|assumption].
  destruct (string_of_list_byte chunkID =? "fmt ")%string.
  { destruct (readFmt chunkSize s2) as [[f' s3]|?]; [|assumption].
    apply IH; [assumption|lia]. }
  destruct (string_of_list_byte chunkID =? "data")%string; [assumption|].
  destruct (skipChunk chunkID chunkSize s2) as [[u s3]|?]; [|assumption].
  apply IH; [assumption|lia].
Qed.

(** With enough fuel the loop returns what [chunkLoop] returns. *)
Lemma readChunks_chunkLoop fuel e f s :
  (List.length s < fuel)%nat ->
  readChunks samplesOf fuel e f s = Some (chunkLoop samplesOf e f s).
Proof.
  intros Hlen. unfold chunkLoop.
  destruct (readChunks samplesOf (S (List.length s)) e f s) as [r|] eqn:E.
  - apply (readChunks_mono _ _ _ _ _ _ E). lia.
  - exfalso. revert E. apply readChunks_enough. lia.
Qed.

(** One turn of the loop, as an equation on [chunkLoop]. *)
Lemma chunkLoop_step e f s :
  chunkLoop samplesOf e f s =
  match ReadFull 4 s with
  | inl EOF => Err ErrNoDataChunk
  | inl err => Err (ErrReadChunkID err)
  | inr (chunkID, s1) =>
      match wrap ErrReadChunkSize (readUint 4) s1 with
      | Err err => Err err
      | Ok (chunkSize, s2) =>
          if (string_of_list_byte chunkID =? "fmt ")%string then
            match readFmt chunkSize s2 with
            | Err err => Err err
            | Ok (f', s3) => chunkLoop samplesOf e (Some f') s3
            end
          else if (string_of_list_byte chunkID =? "data")%string then
            match readData samplesOf e f chunkSize s2 with
            | Err err => Err err
            | Ok (a, _) => Ok a
            end
          else
            match skipChunk chunkID chunkSize s2 with
            | Err err => Err err
            | Ok (_, s3) => chunkLoop samplesOf e f s3
            end
      end
  end.
Proof.
  unfold chunkLoop at 1. cbn [readChunks].
  destruct (ReadFull 4 s) as [[|]|[chunkID s1]] eqn:E1; try reflexivity.
  apply ReadFull_length in E1. destruct E1 as [_ E1].
  unfold wrap.
  destruct (readUint 4 s1) as [?|[chunkSize s2]] eqn:E2; [reflexivity|].
  apply readUint_length in E2. destruct E2 as [_ E2].
  destruct (string_of_list_byte chunkID =? "fmt ")%string.
  { destruct (readFmt chunkSize s2) as [[f' s3]|?] eqn:E3; [|reflexivity].
    apply readFmt_length in E3.
    rewrite readChunks_chunkLoop by lia. reflexivity. }
  destruct (string_of_list_byte chunkID =? "data")%string.
  { destruct (readData samplesOf e f chunkSize s2) as [[a ?]|?]; reflexivity. }
  destruct (skipChunk chunkID chunkSize s2) as [[u s3]|?] eqn:E3; [|reflexivity].
  apply skipChunk_length in E3.
  rewrite readChunks_chunkLoop by lia. reflexivity.
Qed.
End Fuel.

(** *** Files chunk by chunk *)

Lemma readHeader_riff riffSize rest :
  readHeader (riffHeader riffSize ++ rest) = Ok (tt, rest).
Proof.
  unfold riffHeader, readHeader, bind, wrap, ret, fail.
  rewrite <- !app_assoc.
  rewrite ReadFull_app by reflexivity.
  change (string_of_list_byte (writeString "RIFF") =? "RIFF")%string with true.
  cbn [negb]. rewrite readUint_app.
  rewrite ReadFull_app by reflexivity.
  reflexivity.
Qed.

Lemma readWAVWith_riff samplesOf riffSize s e :
  readWAVWith samplesOf (riffHeader riffSize ++ s) e
  = chunkLoop samplesOf e None s.
Proof. unfold readWAVWith. rewrite readHeader_riff. reflexivity. Qed.

Lemma chunkLoop_unknown samplesOf e f c rest :
  isUnknownChunk c = true ->
  chunkLoop samplesOf e f (chunkBytes c ++ rest) = chunkLoop samplesOf e f rest.
Proof.
  unfold isUnknownChunk. intros H.
  apply andb_true_iff in H. destruct H as [H Hsz].
  apply andb_true_iff in H. destruct H as [H Hdata].
  apply andb_true_iff in H. destruct H as [Hlen Hfmt].
  apply Nat.eqb_eq in Hlen. apply Z.ltb_lt in Hsz.
  apply negb_true_iff in Hfmt, Hdata.
  rewrite chunkLoop_step. unfold chunkBytes. rewrite <- !app_assoc.
  rewrite ReadFull_app by assumption.
  unfold wrap at 1. rewrite readUint_app_small by (change (Z.of_nat 4 * 8) with 32; lia).
  rewrite Hfmt, Hdata.
  unfold skipChunk, bind, wrap, ret. rewrite CopyN_app.
  destruct (Z.of_nat (List.length (ckData c)) mod 2 =? 1); reflexivity.
Qed.

Lemma chunkLoop_unknowns samplesOf e f cs rest :
  forallb isUnknownChunk cs = true ->
  chunkLoop samplesOf e f (chunksBytes cs ++ rest) = chunkLoop samplesOf e f rest.
Proof.
  induction cs as [|c cs IH]; cbn [forallb chunksBytes flat_map]; intros H.
  - reflexivity.
  - apply andb_true_iff in H. destruct H as [Hc Hcs].
    rewrite <- app_assoc, chunkLoop_unknown by assumption.
    apply IH. assumption.
Qed.

Lemma wfFormat_bounds f :
  wfFormat f = true ->
  0 <= audioFormat f < 2 ^ 16 /\ 0 <= numChannels f < 2 ^ 16 /\
  0 <= sampleRate f < 2 ^ 32 /\ 0 <= byteRate f < 2 ^ 32 /\
  0 <= blockAlign f < 2 ^ 16 /\ 0 <= bitsPerSample f < 2 ^ 16.
Proof.
  unfold wfFormat. intros H.
  repeat (apply andb_true_iff in H; destruct H as [H ?]).
  repeat match goal with
         | H : (_ <=? _) = true |- _ => apply Z.leb_le in H
         | H : (_ <? _) = true |- _ => apply Z.ltb_lt in H
         end.
  lia.
Qed.

Lemma readFmt_fmtBytes f ext rest :
  wfFormat f = true ->
  readFmt (16 + Z.of_nat (List.length ext))
          (le_split 2 (audioFormat f) ++ le_split 2 (numChannels f) ++
           le_split 4 (sampleRate f) ++ le_split 4 (byteRate f) ++
           le_split 2 (blockAlign f) ++ le_split 2 (bitsPerSample f) ++
           ext ++ rest)
  = Ok (f, rest).
Proof.
  intros Hwf. apply wfFormat_bounds in Hwf.
  destruct Hwf as (H1 & H2 & H3 & H4 & H5 & H6).
  unfold readFmt.
  replace (16 + Z.of_nat (List.length ext) <? 16) with false
    by (symmetry; apply Z.ltb_ge; lia).
  unfold bind, wrap, ret.
  rewrite !readUint_app_small
    by (change (Z.of_nat 4 * 8) with 32; change (Z.of_nat 2 * 8) with 16; lia).
  replace (16 + Z.of_nat (List.length ext) - 16)
    with (Z.of_nat (List.length ext)) by lia.
  destruct f as [af nc sr br ba bps]. cbn [audioFormat numChannels sampleRate
    byteRate blockAlign bitsPerSample].
  destruct (0 <? Z.of_nat (List.length ext)) eqn:E.
  - rewrite CopyN_app. reflexivity.
  - apply Z.ltb_ge in E. destruct ext; [reflexivity|cbn [List.length] in E; lia].
Qed.

Lemma chunkLoop_fmt samplesOf e f f' ext rest :
  wfFormat f' = true -> 16 + Z.of_nat (List.length ext) < 2 ^ 32 ->
  chunkLoop samplesOf e f (fmtBytes f' ext ++ rest)
  = chunkLoop samplesOf e (Some f') rest.
Proof.
  intros Hwf Hsz. rewrite chunkLoop_step. unfold fmtBytes.
  rewrite <- !app_assoc.
  rewrite ReadFull_app by reflexivity.
  unfold wrap at 1. rewrite readUint_app_small by (change (Z.of_nat 4 * 8) with 32; lia).
  change (string_of_list_byte (writeString "fmt ") =? "fmt ")%string with true.
  cbn iota. rewrite readFmt_fmtBytes by assumption. reflexivity.
Qed.

Lemma chunkLoop_data samplesOf e f size rest :
  chunkLoop samplesOf e f (dataHeader size ++ rest)
  = match readData samplesOf e f (size mod 2 ^ 32) rest with
    | Err err => Err err
    | Ok (a, _) => Ok a
    end.
Proof.
  rewrite chunkLoop_step. unfold dataHeader. rewrite <- !app_assoc.
  rewrite ReadFull_app by reflexivity.
  unfold wrap at 1. rewrite readUint_app.
  change (string_of_list_byte (writeString "data") =? "fmt ")%string with false.
  change (string_of_list_byte (writeString "data") =? "data")%string with true.
  reflexivity.
Qed.

(** *** What every returned [AudioData] satisfies *)

Section Results.
Variable samplesOf :
  wavFormat -> nat -> nat -> list (list float64) -> Reader (list (list float64)).
Variable Q : Z -> AudioData -> Prop.
Hypothesis data_Q : forall e f chunkSize s a s',
  fmtRead f -> 0 <= chunkSize ->
  readData samplesOf e (Some f) chunkSize s = Ok (a, s') -> Q e a.

Lemma readChunks_Q fuel : forall e f s a,
  match f with Some f => fmtRead f | None => True end ->
  readChunks samplesOf fuel e f s = Some (Ok a) -> Q e a.
Proof.
  induction fuel as [|fuel IH]; intros e f s a Hf; [discriminate|].
  cbn [readChunks].
  destruct (ReadFull 4 s) as [[|]|[chunkID s1]]; try discriminate.
  unfold wrap.
  destruct (readUint 4 s1) as [?|[chunkSize s2]] eqn:E2; [discriminate|].
  apply readUint_length in E2. destruct E2 as [Hcs _].
  destruct (string_of_list_byte chunkID =? "fmt ")%string.
  { destruct (readFmt chunkSize s2) as [[f' s3]|?] eqn:E3; [|discriminate].
    apply readFmt_length in E3. destruct E3 as [_ Hf'].
    apply IH. exact Hf'. }
  destruct (string_of_list_byte chunkID =? "data")%string.
  { destruct f as [f|]; [|discriminate].
    destruct (readData samplesOf e (Some f) chunkSize s2) as [[a' s3]|?] eqn:E3;
      [|discriminate].
    intros H. injection H as <-.
    eapply data_Q; [exact Hf| |exact E3]. lia. }
  destruct (skipChunk chunkID chunkSize s2) as [[u s3]|?]; [|discriminate].
  apply IH. exact Hf.
Qed.

Lemma readWAVWith_Q r e a : readWAVWith samplesOf r e = Ok a -> Q e a.
Proof.
  unfold readWAVWith, chunkLoop.
  destruct (readHeader r) as [[u s]|?]; [|discriminate].
  destruct (readChunks samplesOf (S (List.length s)) e None s) as [res|] eqn:E;
    [|discriminate].
  intros ->. eapply readChunks_Q; [|exact E]. exact I.
Qed.
End Results.

Lemma map_length_repeat {A} (l : list (list A)) n k :
  map (@List.length A) l = map (@List.length A) (repeat (repeat (A:=A) n k) 0)
  -> l = [].
Proof. destruct l; [reflexivity|discriminate]. Qed.

Lemma shape_of_map_length {A} (x : A) (l : list (list A)) nf nc :
  map (@List.length A) l = map (@List.length A) (repeat (repeat x nf) nc) ->
  Forall (fun c => List.length c = nf) l /\ List.length l = nc.
Proof.
  revert l. induction nc as [|nc IH]; intros [|c l]; cbn [repeat map];
    intros H; try discriminate.
  - split; [constructor|reflexivity].
  - injection H as Hc Hl. rewrite repeat_length in Hc.
    destruct (IH l Hl) as [Hf Hn].
    split; [constructor; assumption|cbn [List.length]; lia].
Qed.

(** The two format switches as tests on the fields. *)
Lemma readSamples_eq f nch nfr init :
  readSamples f nch nfr init =
  if audioFormat f =? 1 then
    if bitsPerSample f =? 16 then readFrames readPCM16 nch nfr 0 init
    else if bitsPerSample f =? 24 then readFrames readPCM24 nch nfr 0 init
    else fail (ErrUnsupportedPCMBitDepth (bitsPerSample f))
  else if audioFormat f =? 3 then
    if negb (bitsPerSample f =? 32)
    then fail (ErrUnsupportedFloatBitDepth (bitsPerSample f))
    else readFrames readFloat32 nch nfr 0 init
  else fail (ErrUnsupportedAudioFormat (audioFormat f)).
Proof.
  unfold readSamples.
  destruct (audioFormat f) as [|p|p]; try reflexivity.
  do 2 (try (destruct p as [p|p|]; try reflexivity)).
  destruct (bitsPerSample f) as [|q|q]; try reflexivity.
  do 6 (try (destruct q as [q|q|]; try reflexivity)).
Qed.

Lemma readSamples_old_eq f nch nfr init :
  readSamples_old f nch nfr init =
  if audioFormat f =? 1 then
    if negb (bitsPerSample f =? 16)
    then fail (ErrUnsupportedPCMBitDepth (bitsPerSample f))
    else readFrames readPCM16 nch nfr 0 init
  else if audioFormat f =? 3 then
    if negb (bitsPerSample f =? 32)
    then fail (ErrUnsupportedFloatBitDepth (bitsPerSample f))
    else readFrames readFloat32 nch nfr 0 init
  else fail (ErrUnsupportedAudioFormat (audioFormat f)).
Proof.
  unfold readSamples_old.
  destruct (audioFormat f) as [|p|p]; try reflexivity.
  do 2 (try (destruct p as [p|p|]; try reflexivity)).
Qed.

Lemma readSamples_shape f nch nfr init s samples s' :
  readSamples f nch nfr init s = Ok (samples, s') ->
  map (@List.length float64) samples = map (@List.length float64) init.
Proof.
  rewrite readSamples_eq. unfold fail.
  destruct (audioFormat f =? 1).
  { destruct (bitsPerSample f =? 16); [apply readFrames_shape|].
    destruct (bitsPerSample f =? 24); [apply readFrames_shape|discriminate]. }
  destruct (audioFormat f =? 3); [|discriminate].
  destruct (negb (bitsPerSample f =? 32)); [discriminate|apply readFrames_shape].
Qed.

Lemma readSamples_range f nch nfr init s samples s' :
  readSamples f nch nfr init s = Ok (samples, s') ->
  Forall (Forall unit_range) init -> Forall (Forall unit_range) samples.
Proof.
  rewrite readSamples_eq. unfold fail.
  destruct (audioFormat f =? 1).
  { destruct (bitsPerSample f =? 16).
    { apply readFrames_Forall. intros s0 x s0' H.
      destruct (ConvFacts.readPCM16_range s0 x s0' H) as [Hf [Hlo Hhi]].
      split; [exact Hf|]. split; [exact Hlo|].
      eapply Qle_trans; [exact Hhi|]. discriminate. }
    destruct (bitsPerSample f =? 24); [|discriminate].
    apply readFrames_Forall. intros s0 x s0' H.
    destruct (ConvFacts.readPCM24_range s0 x s0' H) as [Hf [Hlo Hhi]].
    split; [exact Hf|]. split; [exact Hlo|].
    eapply Qle_trans; [exact Hhi|]. discriminate. }
  destruct (audioFormat f =? 3); [|discriminate].
  destruct (negb (bitsPerSample f =? 32)); [discriminate|].
  apply readFrames_Forall. apply ConvFacts.readFloat32_range.
Qed.

Lemma Forall_repeat {A} (P : A -> Prop) x n : P x -> Forall P (repeat x n).
Proof. intros H. induction n; cbn [repeat]; constructor; assumption. Qed.

(** The checks in front of the format switch. *)
Lemma readData_inv samplesOf e f chunkSize s a s' :
  readData samplesOf e (Some f) chunkSize s = Ok (a, s') ->
  numChannels f = e /\ blockAlign f <> 0 /\
  exists samples s1,
    samplesOf f (Z.to_nat e) (Z.to_nat (chunkSize / blockAlign f))
              (repeat (repeat zero (Z.to_nat (chunkSize / blockAlign f)))
                      (Z.to_nat e)) s
    = Ok (samples, s1) /\
    a = {| SampleRate := sampleRate f; Samples := samples;
           NumSamples := chunkSize / blockAlign f |}.
Proof.
  unfold readData, fail.
  destruct (Z.eqb_spec (numChannels f) e) as [Hn|Hn]; cbn [negb]; [|discriminate].
  destruct (Z.eqb_spec (blockAlign f) 0) as [Hb|Hb]; [discriminate|].
  destruct (negb (chunkSize mod blockAlign f =? 0)); [discriminate|].
  unfold bind, ret.
  destruct (samplesOf f _ _ _ s) as [[samples s1]|?] eqn:E; [|discriminate].
  intros H. repeat split; try assumption.
  exists samples, s1. split; [reflexivity|].
  destruct (chunkSize mod 2 =? 1).
  - unfold wrap in H. destruct (ReadByte s1) as [?|[b s2]]; [discriminate|].
    injection H as <- _. reflexivity.
  - injection H as <- _. reflexivity.
Qed.

Lemma readData_shape e f chunkSize s a s' :
  fmtRead f -> 0 <= chunkSize ->
  readData readSamples e (Some f) chunkSize s = Ok (a, s') ->
  Forall (fun c => Z.of_nat (List.length c) = NumSamples a) (Samples a) /\
  Z.of_nat (List.length (Samples a)) = e.
Proof.
  intros [Hnc Hba] Hcs H.
  apply readData_inv in H. destruct H as (Hn & Hb & samples & s1 & E & ->).
  cbn [Samples NumSamples].
  apply readSamples_shape in E.
  apply (shape_of_map_length zero) in E. destruct E as [Hf Hl].
  assert (0 <= chunkSize / blockAlign f) by (apply Z.div_pos; lia).
  split.
  - eapply Forall_impl; [|exact Hf]. cbn beta. intros c Hc. rewrite Hc. lia.
  - rewrite Hl. lia.
Qed.

Lemma readData_range e f chunkSize s a s' :
  fmtRead f -> 0 <= chunkSize ->
  readData readSamples e (Some f) chunkSize s = Ok (a, s') ->
  Forall (Forall unit_range) (Samples a).
Proof.
  intros _ _ H.
  apply readData_inv in H. destruct H as (Hn & Hb & samples & s1 & E & ->).
  cbn [Samples]. eapply readSamples_range; [exact E|].
  apply Forall_repeat, Forall_repeat, ConvFacts.unit_range_zero.
Qed.

(** *** Where an error can come from *)

Lemma readFrame_err decode (E : wavError -> Prop) i n :
  (forall s e, decode s = Err e -> E e) ->
  forall ch samples s e,
    readFrame decode i n ch samples s = Err e -> E e.
Proof.
  intros HE. induction n as [|n IH]; intros ch samples s e; cbn [readFrame].
  - discriminate.
  - unfold bind. destruct (decode s) as [[v s1]|e0] eqn:Ed.
    + apply IH.
    + intros H. injection H as <-. eapply HE; eassumption.
Qed.

Lemma readFrames_err decode (E : wavError -> Prop) channels n :
  (forall s e, decode s = Err e -> E e) ->
  forall i samples s e,
    readFrames decode channels n i samples s = Err e -> E e.
Proof.
  intros HE. induction n as [|n IH]; intros i samples s e; cbn [readFrames].
  - discriminate.
  - unfold bind.
    destruct (readFrame decode i channels 0 samples s) as [[s1 r1]|e0] eqn:Ef.
    + apply IH.
    + intros H. injection H as <-. eapply readFrame_err; eassumption.
Qed.

Lemma readPCM16_err s e :
  readPCM16 s = Err e -> exists err, e = ErrReadPCM16Sample err.
Proof.
  unfold readPCM16, bind, wrap, ret.
  destruct (readInt 2 s) as [err|[v s1]]; [|discriminate].
  intros H. injection H as <-. eauto.
Qed.

Lemma readPCM24_err s e :
  readPCM24 s = Err e -> exists err, e = ErrReadPCM24Sample err.
Proof.
  unfold readPCM24, bind, wrap, ret.
  destruct (readPCM24Sample s) as [err|[v s1]]; [|discriminate].
  intros H. injection H as <-. eauto.
Qed.

Lemma readFloat32_err s e :
  readFloat32 s = Err e -> exists err, e = ErrReadFloat32Sample err.
Proof.
  unfold readFloat32, bind, wrap, ret.
  destruct (readUint 4 s) as [err|[v s1]]; [|discriminate].
  intros H. injection H as <-. eauto.
Qed.

Lemma readFmt_err chunkSize s e : readFmt chunkSize s = Err e -> e <> depth24.
Proof.
  unfold readFmt, fail, bind, wrap, ret, depth24.
  destruct (chunkSize <? 16); [congruence|].
  repeat match goal with
         | |- context [readUint ?n ?s0] =>
             destruct (readUint n s0) as [?|[? ?]]; [congruence|]
         end.
  destruct (0 <? chunkSize - 16); [|discriminate].
  match goal with
  | |- context [CopyN ?n ?s0] => destruct (CopyN n s0) as [?|[[] ?]]
  end; congruence.
Qed.

Lemma skipChunk_err chunkID chunkSize s e :
  skipChunk chunkID chunkSize s = Err e -> e <> depth24.
Proof.
  unfold skipChunk, bind, wrap, ret, depth24.
  destruct (CopyN chunkSize s) as [?|[[] s1]]; [congruence|].
  destruct (chunkSize mod 2 =? 1); [|discriminate].
  destruct (ReadByte s1) as [?|[? ?]]; congruence.
Qed.

Lemma readHeader_err s e : readHeader s = Err e -> e <> depth24.
Proof.
  unfold readHeader, fail, bind, wrap, ret, depth24.
  destruct (ReadFull 4 s) as [?|[riff s1]]; [congruence|].
  destruct (negb (string_of_list_byte riff =? "RIFF")%string); [congruence|].
  destruct (readUint 4 s1) as [?|[? s2]]; [congruence|].
  destruct (ReadFull 4 s2) as [?|[wave s3]]; [congruence|].
  destruct (negb (string_of_list_byte wave =? "WAVE")%string); congruence.
Qed.

(** *** The earlier reader against the present one *)

Lemma pcm24Sample_zero : pcm24Sample zero.
Proof. exists Byte.x00, Byte.x00, Byte.x00. reflexivity. Qed.

Lemma readPCM24_sample s x s' : readPCM24 s = Ok (x, s') -> pcm24Sample x.
Proof.
  destruct s as [|b0 [|b1 [|b2 rest]]]; try discriminate.
  rewrite ConvFacts.readPCM24_spec. intros H. injection H as <- _.
  exists b0, b1, b2. reflexivity.
Qed.

(** The tail of the data case: the pad byte and the record. *)
Lemma readData_tail (m : Reader (list (list float64))) chunkSize sr nf s :
  dropRest
    (bind m (fun samples =>
       bind (if chunkSize mod 2 =? 1
             then bind (wrap ErrReadDataPadByte ReadByte) (fun _ => ret tt)
             else ret tt)
            (fun _ => ret (Build_AudioData sr samples nf))) s)
  = match m s with
    | Err e => Err e
    | Ok (samples, s1) =>
        if chunkSize mod 2 =? 1 then
          match s1 with
          | [] => Err (ErrReadDataPadByte EOF)
          | _ :: _ => Ok (Build_AudioData sr samples nf)
          end
        else Ok (Build_AudioData sr samples nf)
    end.
Proof.
  unfold bind, ret, wrap, dropRest.
  destruct (m s) as [[samples s1]|e]; [|reflexivity].
  destruct (chunkSize mod 2 =? 1); [|reflexivity].
  destruct s1; reflexivity.
Qed.

Lemma readData_oldNew e f chunkSize s :
  oldNew (dropRest (readData readSamples_old e f chunkSize s))
         (dropRest (readData readSamples e f chunkSize s)).
Proof.
  unfold readData, fail.
  destruct f as [f|]; [|split; [discriminate|left; reflexivity]].
  destruct (negb (numChannels f =? e));
    [split; [discriminate|left; reflexivity]|].
  destruct (blockAlign f =? 0); [split; [discriminate|left; reflexivity]|].
  destruct (negb (chunkSize mod blockAlign f =? 0));
    [split; [discriminate|left; reflexivity]|].
  rewrite !readData_tail. rewrite readSamples_eq, readSamples_old_eq.
  set (nch := Z.to_nat e). set (nfr := Z.to_nat (chunkSize / blockAlign f)).
  set (init := repeat (repeat zero nfr) nch).
  set (sr := sampleRate f). set (nf := chunkSize / blockAlign f).
  unfold fail.
  destruct (audioFormat f =? 1).
  - destruct (Z.eqb_spec (bitsPerSample f) 16) as [E16|E16]; cbn [negb].
    + split; [|left; reflexivity].
      destruct (readFrames readPCM16 nch nfr 0 init s) as [[samples s1]|err] eqn:Er.
      * destruct (chunkSize mod 2 =? 1); [destruct s1|]; discriminate.
      * apply (readFrames_err _ _ _ _ readPCM16_err) in Er.
        destruct Er as [io ->]. discriminate.
    + destruct (Z.eqb_spec (bitsPerSample f) 24) as [E24|E24].
      * rewrite E24.
        destruct (readFrames readPCM24 nch nfr 0 init s) as [[samples s1]|err] eqn:Er.
        -- assert (Hs : Forall (Forall pcm24Sample) samples).
           { eapply (readFrames_Forall _ _ readPCM24_sample); [exact Er|].
             unfold init. apply Forall_repeat, Forall_repeat, pcm24Sample_zero. }
           destruct (chunkSize mod 2 =? 1); [destruct s1|];
             (split; [discriminate|right; split; [reflexivity|]]); cbn; eauto.
        -- apply (readFrames_err _ _ _ _ readPCM24_err) in Er.
           destruct Er as [io ->].
           split; [discriminate|right; split; [reflexivity|]]. cbn. eauto.
      * split; [|left; reflexivity]. unfold depth24. congruence.
  - destruct (audioFormat f =? 3); [|split; [discriminate|left; reflexivity]].
    destruct (negb (bitsPerSample f =? 32));
      [split; [discriminate|left; reflexivity]|].
    split; [|left; reflexivity].
    destruct (readFrames readFloat32 nch nfr 0 init s) as [[samples s1]|err] eqn:Er.
    * destruct (chunkSize mod 2 =? 1); [destruct s1|]; discriminate.
    * apply (readFrames_err _ _ _ _ readFloat32_err) in Er.
      destruct Er as [io ->]. discriminate.
Qed.

Lemma readChunks_oldNew fuel : forall e f s,
  match readChunks readSamples_old fuel e f s,
        readChunks readSamples fuel e f s with
  | Some ro, Some rn => oldNew ro rn
  | None, None => True
  | _, _ => False
  end.
Proof.
  induction fuel as [|fuel IH]; intros e f s; [exact I|].
  cbn [readChunks].
  destruct (ReadFull 4 s) as [[|]|[chunkID s1]];
    try (cbv beta iota; split; [discriminate|left; reflexivity]).
  unfold wrap.
  destruct (readUint 4 s1) as [?|[chunkSize s2]];
    [cbv beta iota; split; [discriminate|left; reflexivity]|].
  destruct (string_of_list_byte chunkID =? "fmt ")%string.
  { destruct (readFmt chunkSize s2) as [[f' s3]|err] eqn:E3; [apply IH|].
    cbv beta iota. split; [|left; reflexivity].
    intros H. injection H as ->. exact (readFmt_err _ _ _ E3 eq_refl). }
  destruct (string_of_list_byte chunkID =? "data")%string.
  { pose proof (readData_oldNew e f chunkSize s2) as H. unfold dropRest in H.
    destruct (readData readSamples_old e f chunkSize s2) as [[? ?]|?];
      destruct (readData readSamples e f chunkSize s2) as [[? ?]|?]; exact H. }
  destruct (skipChunk chunkID chunkSize s2) as [[u s3]|err] eqn:E3; [apply IH|].
  cbv beta iota. split; [|left; reflexivity].
  intros H. injection H as ->. exact (skipChunk_err _ _ _ _ E3 eq_refl).
Qed.

Lemma readWAV_oldNew r e : oldNew (readWAV_old r e) (readWAV r e).
Proof.
  unfold readWAV_old, readWAV, readWAVWith, chunkLoop.
  destruct (readHeader r) as [[u s]|err] eqn:Eh.
  - pose proof (readChunks_oldNew (S (List.length s)) e None s) as H.
    destruct (readChunks readSamples_old (S (List.length s)) e None s);
      destruct (readChunks readSamples (S (List.length s)) e None s);
      try contradiction; [exact H|].
    split; [discriminate|left; reflexivity].
  - split; [|left; reflexivity].
    intros H. injection H as ->. exact (readHeader_err _ _ Eh eq_refl).
Qed.

(** *** When the data chunk is complete *)

Section Enough.
Variable decode : Reader float64.
Variable w : nat.
Hypothesis decode_enough : forall s,
  (w <= List.length s)%nat -> exists x, decode s = Ok (x, skipn w s).

Lemma readFrame_enough i n : forall ch samples s,
  (n * w <= List.length s)%nat ->
  exists samples', readFrame decode i n ch samples s = Ok (samples', skipn (n * w) s).
Proof.
  induction n as [|n IH]; intros ch samples s Hlen; cbn [readFrame].
  - exists samples. reflexivity.
  - cbn [Nat.mul] in Hlen |- *.
    unfold bind. destruct (decode_enough s ltac:(lia)) as [x ->].
    destruct (IH (S ch) (setSample samples ch i x) (skipn w s)) as [samples' E].
    { rewrite length_skipn. lia. }
    exists samples'. rewrite E, skipn_skipn. do 3 f_equal. lia.
Qed.

Lemma readFrames_enough channels n : forall i samples s,
  (n * (channels * w) <= List.length s)%nat ->
  exists samples',
    readFrames decode channels n i samples s
    = Ok (samples', skipn (n * (channels * w)) s).
Proof.
  induction n as [|n IH]; intros i samples s Hlen; cbn [readFrames].
  - exists samples. reflexivity.
  - cbn [Nat.mul] in Hlen |- *.
    unfold bind.
    destruct (readFrame_enough i channels 0%nat samples s ltac:(lia)) as [s1 ->].
    destruct (IH (S i) s1 (skipn (channels * w) s)) as [samples' E].
    { rewrite length_skipn. lia. }
    exists samples'. rewrite E, skipn_skipn. do 3 f_equal. lia.
Qed.
End Enough.

Lemma readPCM16_enough s :
  (2 <= List.length s)%nat -> exists x, readPCM16 s = Ok (x, skipn 2 s).
Proof.
  destruct s as [|b0 [|b1 rest]]; cbn [List.length]; try lia. intros _.
  rewrite ConvFacts.readPCM16_spec. eauto.
Qed.

Lemma readPCM24_enough s :
  (3 <= List.length s)%nat -> exists x, readPCM24 s = Ok (x, skipn 3 s).
Proof.
  destruct s as [|b0 [|b1 [|b2 rest]]]; cbn [List.length]; try lia. intros _.
  rewrite ConvFacts.readPCM24_spec. eauto.
Qed.

Lemma readFloat32_enough s :
  (4 <= List.length s)%nat -> exists x, readFloat32 s = Ok (x, skipn 4 s).
Proof.
  destruct s as [|b0 [|b1 [|b2 [|b3 rest]]]]; cbn [List.length]; try lia. intros _.
  rewrite ConvFacts.readFloat32_spec. eauto.
Qed.

Lemma bytesPerSample_cases f w :
  bytesPerSample f = Some w ->
  (audioFormat f = 1 /\ bitsPerSample f = 16 /\ w = 2) \/
  (audioFormat f = 1 /\ bitsPerSample f = 24 /\ w = 3) \/
  (audioFormat f = 3 /\ bitsPerSample f = 32 /\ w = 4).
Proof.
  unfold bytesPerSample.
  destruct (audioFormat f) as [|p|p]; try discriminate.
  do 2 (try (destruct p as [p|p|]; try discriminate));
    destruct (bitsPerSample f) as [|q|q]; try discriminate;
    do 6 (try (destruct q as [q|q|]; try discriminate));
    intros H; injection H as <-; auto.
Qed.

Lemma readSamples_enough f w nch nfr init s :
  bytesPerSample f = Some w ->
  (nfr * (nch * Z.to_nat w) <= List.length s)%nat ->
  exists samples,
    readSamples f nch nfr init s
    = Ok (samples, skipn (nfr * (nch * Z.to_nat w)) s).
Proof.
  intros Hw Hlen. rewrite readSamples_eq.
  destruct (bytesPerSample_cases f w Hw)
    as [(-> & -> & ->)|[(-> & -> & ->)|(-> & -> & ->)]]; cbn [Z.eqb Pos.eqb negb].
  - apply (readFrames_enough readPCM16 2 readPCM16_enough). exact Hlen.
  - apply (readFrames_enough readPCM24 3 readPCM24_enough). exact Hlen.
  - apply (readFrames_enough readFloat32 4 readFloat32_enough). exact Hlen.
Qed.

(** A data chunk whose payload is whole frames of a supported format,
    followed by its pad byte when odd, is read to its end. *)
Lemma readData_complete f w channels n payload pad rest :
  bytesPerSample f = Some w ->
  numChannels f = channels -> 0 < channels ->
  blockAlign f = channels * w ->
  Z.of_nat (List.length payload) = n * blockAlign f -> 0 <= n ->
  exists samples,
    readData readSamples channels (Some f) (Z.of_nat (List.length payload))
             (payload ++
              (if Z.of_nat (List.length payload) mod 2 =? 1 then [pad] else [])
              ++ rest)
    = Ok (Build_AudioData (sampleRate f) samples n, rest).
Proof.
  intros Hw Hnc Hch Hba Hlen Hn.
  assert (Hwpos : 0 < w).
  { destruct (bytesPerSample_cases f w Hw) as [(_ & _ & ->)|[(_ & _ & ->)|(_ & _ & ->)]];
      lia. }
  assert (Hbapos : 0 < blockAlign f) by nia.
  unfold readData, fail.
  replace (numChannels f =? channels) with true by (symmetry; apply Z.eqb_eq; assumption).
  replace (blockAlign f =? 0) with false by (symmetry; apply Z.eqb_neq; lia).
  rewrite Hlen, Z.mod_mul, Z.div_mul by lia.
  cbn [negb Z.eqb].
  set (nfr := Z.to_nat n). set (nch := Z.to_nat channels).
  assert (Hbytes : (nfr * (nch * Z.to_nat w))%nat = List.length payload).
  { apply Nat2Z.inj. rewrite !Nat2Z.inj_mul. unfold nfr, nch.
    rewrite !Z2Nat.id by lia. rewrite Hlen, Hba. reflexivity. }
  unfold bind.
  destruct (readSamples_enough f w nch nfr
              (repeat (repeat zero nfr) nch)
              (payload ++
               (if n * blockAlign f mod 2 =? 1 then [pad] else []) ++ rest) Hw)
    as [samples E].
  { rewrite length_app. lia. }
  rewrite E, Hbytes, skipn_app, Nat.sub_diag, skipn_all. cbn [skipn app].
  exists samples.
  destruct (n * blockAlign f mod 2 =? 1); reflexivity.
Qed.

(** *** The data case by format *)

Lemma readData_range16 e f chunkSize s a s' :
  readData readSamples e (Some f) chunkSize s = Ok (a, s') ->
  audioFormat f = 1 -> bitsPerSample f = 16 ->
  Forall (Forall (fun x => is_finite x = true /\
                           (- (1) <= toQ x <= 32767 # 32768)%Q)) (Samples a).
Proof.
  intros H Haf Hbps.
  apply readData_inv in H. destruct H as (_ & _ & samples & s1 & E & ->).
  cbn [Samples]. rewrite readSamples_eq, Haf, Hbps in E. cbn [Z.eqb Pos.eqb] in E.
  eapply (readFrames_Forall _ _ ConvFacts.readPCM16_range); [exact E|].
  apply Forall_repeat, Forall_repeat. split; [reflexivity|]. split; discriminate.
Qed.

Lemma readData_range24 e f chunkSize s a s' :
  readData readSamples e (Some f) chunkSize s = Ok (a, s') ->
  audioFormat f = 1 -> bitsPerSample f = 24 ->
  Forall (Forall (fun x => is_finite x = true /\
                           (- (1) <= toQ x <= 8388607 # 8388608)%Q)) (Samples a).
Proof.
  intros H Haf Hbps.
  apply readData_inv in H. destruct H as (_ & _ & samples & s1 & E & ->).
  cbn [Samples]. rewrite readSamples_eq, Haf, Hbps in E. cbn [Z.eqb Pos.eqb] in E.
  eapply (readFrames_Forall _ _ ConvFacts.readPCM24_range); [exact E|].
  apply Forall_repeat, Forall_repeat. split; [reflexivity|]. split; discriminate.
Qed.

(** The earlier reader answers "unsupported PCM bit depth 24" exactly
    when the checks of the data case pass and the format is PCM of 24
    bits. *)
Lemma readData_old_depth24 e f chunkSize s :
  dropRest (readData readSamples_old e (Some f) chunkSize s) = Err depth24 <->
  numChannels f = e /\ blockAlign f <> 0 /\ chunkSize mod blockAlign f = 0 /\
  audioFormat f = 1 /\ bitsPerSample f = 24.
Proof.
  unfold readData, fail.
  destruct (Z.eqb_spec (numChannels f) e) as [Hn|Hn]; cbn [negb dropRest];
    [|split; [discriminate|tauto]].
  destruct (Z.eqb_spec (blockAlign f) 0) as [Hb|Hb]; cbn [dropRest];
    [split; [discriminate|tauto]|].
  destruct (Z.eqb_spec (chunkSize mod blockAlign f) 0) as [Hm|Hm];
    cbn [negb dropRest]; [|split; [discriminate|tauto]].
  rewrite readData_tail, readSamples_old_eq. unfold fail.
  destruct (Z.eqb_spec (audioFormat f) 1) as [Haf|Haf].
  - destruct (Z.eqb_spec (bitsPerSample f) 16) as [E16|E16]; cbn [negb].
    + split; [|intros (_ & _ & _ & _ & H24); lia].
      match goal with
      | |- context [readFrames ?d ?c ?n ?i ?init s] =>
          destruct (readFrames d c n i init s) as [[samples s1]|err] eqn:Er
      end.
      * destruct (chunkSize mod 2 =? 1); [destruct s1|]; discriminate.
      * apply (readFrames_err _ _ _ _ readPCM16_err) in Er.
        destruct Er as [io ->]. discriminate.
    + split.
      * intros H. injection H as H. tauto.
      * intros (_ & _ & _ & _ & ->). reflexivity.
  - destruct (audioFormat f =? 3);
      [|split; [discriminate|intros (_ & _ & _ & H1 & _); contradiction]].
    destruct (negb (bitsPerSample f =? 32));
      [split; [discriminate|intros (_ & _ & _ & H1 & _); contradiction]|].
    split; [|intros (_ & _ & _ & H1 & _); contradiction].
    match goal with
    | |- context [readFrames ?d ?c ?n ?i ?init s] =>
        destruct (readFrames d c n i init s) as [[samples s1]|err] eqn:Er
    end.
    * destruct (chunkSize mod 2 =? 1); [destruct s1|]; discriminate.
    * apply (readFrames_err _ _ _ _ readFloat32_err) in Er.
      destruct Er as [io ->]. discriminate.
Qed.

End ReaderFacts.

(* ------------------------------------------------------------------ *)
(** ** The sample loops, sample by sample *)
(* ------------------------------------------------------------------ *)

Module FrameFacts.
Import F64 Wav WavFile.

(** *** Slices of slices *)

Lemma nth_list_set {A} (l : list A) i j v d :
  nth j (list_set l i v) d
  = if (j =? i)%nat && (i <? List.length l)%nat then v else nth j l d.
Proof.
  revert i j. induction l as [|h t IH]; intros i j.
  - replace (i <? List.length (@nil A))%nat with false
      by (symmetry; apply Nat.ltb_ge; cbn; lia).
    rewrite andb_false_r. destruct i; reflexivity.
  - destruct i as [|i], j as [|j]; cbn [list_set nth List.length]; try reflexivity.
    rewrite IH. reflexivity.
Qed.

Lemma shaped_repeat channels frames :
  shaped channels frames (repeat (repeat zero frames) channels).
Proof.
  split; [apply repeat_length|].
  apply ReaderFacts.Forall_repeat, repeat_length.
Qed.

Lemma shaped_map_length channels frames S S' :
  map (@List.length float64) S' = map (@List.length float64) S ->
  shaped channels frames S -> shaped channels frames S'.
Proof.
  intros Hm [Hl Hf]. split.
  - rewrite <- Hl, <- (length_map (@List.length float64) S'), Hm. apply length_map.
  - apply Forall_forall. intros c Hc.
    assert (Hin : In (List.length c) (map (@List.length float64) S'))
      by (apply in_map; assumption).
    rewrite Hm in Hin. apply in_map_iff in Hin. destruct Hin as (c0 & Hc0 & Hin).
    rewrite <- Hc0. rewrite Forall_forall in Hf. apply Hf. assumption.
Qed.

Lemma shaped_nth channels frames S ch :
  shaped channels frames S -> (ch < channels)%nat ->
  List.length (nth ch S []) = frames.
Proof.
  intros [Hl Hf] Hch. rewrite Forall_forall in Hf. apply Hf.
  apply nth_In. lia.
Qed.

Lemma getSample_setSample channels frames S ch i v ch' i' :
  shaped channels frames S -> (ch < channels)%nat -> (i < frames)%nat ->
  getSample (setSample S ch i v) ch' i'
  = if (ch' =? ch)%nat && (i' =? i)%nat then v else getSample S ch' i'.
Proof.
  intros HS Hch Hi. unfold getSample, setSample.
  rewrite (nth_list_set S ch ch').
  destruct HS as [Hl Hf].
  replace (ch <? List.length S)%nat with true by (symmetry; apply Nat.ltb_lt; lia).
  destruct (Nat.eqb_spec ch' ch) as [->|Hne]; cbn [andb]; [|reflexivity].
  rewrite nth_list_set.
  rewrite (shaped_nth channels frames S ch (conj Hl Hf) Hch).
  replace (i <? frames)%nat with true by (symmetry; apply Nat.ltb_lt; lia).
  rewrite andb_true_r. reflexivity.
Qed.

(** Two slices of slices of one shape with the same samples are equal. *)
Lemma shaped_ext channels frames S S' :
  shaped channels frames S -> shaped channels frames S' ->
  (forall ch i, (ch < channels)%nat -> (i < frames)%nat ->
                getSample S ch i = getSample S' ch i) ->
  S = S'.
Proof.
  intros HS HS' Hget.
  apply (nth_ext S S' [] []); [destruct HS, HS'; congruence|].
  intros ch Hch. assert (Hch' : (ch < channels)%nat) by (destruct HS; lia).
  apply (nth_ext _ _ zero zero).
  - rewrite (shaped_nth _ _ _ _ HS Hch'), (shaped_nth _ _ _ _ HS' Hch'). reflexivity.
  - intros i Hi. rewrite (shaped_nth _ _ _ _ HS Hch') in Hi.
    apply (Hget ch i Hch' Hi).
Qed.

Lemma shaped_decodedSamples dec w channels frames payload :
  shaped channels frames (decodedSamples dec w channels frames payload).
Proof.
  unfold decodedSamples. split.
  - rewrite length_map, length_seq. reflexivity.
  - apply Forall_forall. intros c Hc. apply in_map_iff in Hc.
    destruct Hc as (ch & <- & _). rewrite length_map, length_seq. reflexivity.
Qed.

Lemma getSample_decodedSamples dec w channels frames payload ch i :
  (ch < channels)%nat -> (i < frames)%nat ->
  getSample (decodedSamples dec w channels frames payload) ch i
  = sampleAt dec w channels payload ch i.
Proof.
  intros Hch Hi. unfold getSample, decodedSamples.
  rewrite (nth_indep _ [] (map (fun i0 => sampleAt dec w channels payload 0 i0)
                               (seq 0 frames)))
    by (rewrite length_map, length_seq; assumption).
  rewrite (map_nth (fun ch0 => map (fun i0 => sampleAt dec w channels payload ch0 i0)
                                   (seq 0 frames)) (seq 0 channels) 0%nat ch).
  rewrite seq_nth by assumption. cbn [Nat.add].
  rewrite (nth_indep _ zero (sampleAt dec w channels payload ch 0))
    by (rewrite length_map, length_seq; assumption).
  rewrite (map_nth (fun i0 => sampleAt dec w channels payload ch i0) (seq 0 frames) 0%nat i).
  rewrite seq_nth by assumption. reflexivity.
Qed.

(** *** The loops against the payload *)

Section Positional.
Variable decode : Reader float64.
Variable dec : list byte -> float64.
Variable w : nat.
Hypothesis decode_spec : forall s,
  (w <= List.length s)%nat -> decode s = Ok (dec (firstn w s), skipn w s).
Variables channels frames : nat.

(** One frame: channel [ch'] of frame [i] receives the sample at
    [(ch' - ch) * w] of the stream. *)
Lemma readFrame_at i n : forall ch smp s,
  shaped channels frames smp ->
  (i < frames)%nat -> (ch + n <= channels)%nat ->
  (n * w <= List.length s)%nat ->
  exists S',
    readFrame decode i n ch smp s = Ok (S', skipn (n * w) s) /\
    shaped channels frames S' /\
    forall ch' i', (ch' < channels)%nat -> (i' < frames)%nat ->
      getSample S' ch' i'
      = if (i' =? i)%nat && ((ch <=? ch')%nat && (ch' <? ch + n)%nat)
        then dec (firstn w (skipn ((ch' - ch) * w) s))
        else getSample smp ch' i'.
Proof.
  induction n as [|n IH]; intros ch smp s HS Hi Hch Hlen; cbn [readFrame].
  - exists smp. split; [reflexivity|]. split; [assumption|].
    intros ch' i' _ _.
    replace ((ch <=? ch')%nat && (ch' <? ch + 0)%nat) with false.
    + rewrite andb_false_r. reflexivity.
    + symmetry. apply andb_false_iff.
      destruct (Nat.leb_spec ch ch'); [right; apply Nat.ltb_ge; lia|left; reflexivity].
  - cbn [Nat.mul] in Hlen |- *. unfold bind.
    rewrite decode_spec by lia.
    set (v := dec (firstn w s)).
    assert (HS1 : shaped channels frames (setSample smp ch i v)).
    { eapply shaped_map_length; [apply ReaderFacts.setSample_shape|assumption]. }
    destruct (IH (S ch) (setSample smp ch i v) (skipn w s) HS1 Hi ltac:(lia))
      as (S' & E & HS' & Hget).
    { rewrite length_skipn. lia. }
    exists S'. split.
    { rewrite E, skipn_skipn. do 3 f_equal. lia. }
    split; [assumption|].
    intros ch' i' Hch' Hi'. rewrite (Hget ch' i' Hch' Hi').
    rewrite (getSample_setSample channels frames smp ch i v ch' i' HS) by lia.
    destruct (Nat.eqb_spec i' i) as [->|Hne]; cbn [andb].
    + destruct (Nat.eqb_spec ch' ch) as [->|Hnc].
      * replace (S ch <=? ch)%nat with false by (symmetry; apply Nat.leb_gt; lia).
        replace (ch <=? ch)%nat with true by (symmetry; apply Nat.leb_le; lia).
        replace (ch <? ch + S n)%nat with true by (symmetry; apply Nat.ltb_lt; lia).
        cbn [andb]. rewrite Nat.sub_diag. reflexivity.
      * destruct (Nat.leb_spec (S ch) ch') as [Hle|Hgt].
        -- replace (ch <=? ch')%nat with true by (symmetry; apply Nat.leb_le; lia).
           replace (ch' <? ch + S n)%nat with (ch' <? S ch + n)%nat
             by (f_equal; lia).
           cbn [andb]. destruct (ch' <? S ch + n)%nat; [|reflexivity].
           rewrite skipn_skipn. do 3 f_equal. nia.
        -- replace (ch <=? ch')%nat with false by (symmetry; apply Nat.leb_gt; lia).
           reflexivity.
    + rewrite andb_false_r. reflexivity.
Qed.

(** The frames: frame [i'] receives, for channel [ch'], the sample
    at [((i' - i) * channels + ch') * w] of the stream. *)
Lemma readFrames_at n : forall i smp s,
  shaped channels frames smp ->
  (i + n <= frames)%nat ->
  (n * (channels * w) <= List.length s)%nat ->
  exists S',
    readFrames decode channels n i smp s
    = Ok (S', skipn (n * (channels * w)) s) /\
    shaped channels frames S' /\
    forall ch' i', (ch' < channels)%nat -> (i' < frames)%nat ->
      getSample S' ch' i'
      = if (i <=? i')%nat && (i' <? i + n)%nat
        then dec (firstn w (skipn (((i' - i) * channels + ch') * w) s))
        else getSample smp ch' i'.
Proof.
  induction n as [|n IH]; intros i smp s HS Hi Hlen; cbn [readFrames].
  - exists smp. split; [reflexivity|]. split; [assumption|].
    intros ch' i' _ _.
    replace ((i <=? i')%nat && (i' <? i + 0)%nat) with false; [reflexivity|].
    symmetry. apply andb_false_iff.
    destruct (Nat.leb_spec i i'); [right; apply Nat.ltb_ge; lia|left; reflexivity].
  - cbn [Nat.mul] in Hlen |- *. unfold bind.
    destruct (readFrame_at i channels 0%nat smp s HS ltac:(lia) ltac:(lia) ltac:(lia))
      as (S1 & E1 & HS1 & Hget1).
    rewrite E1.
    destruct (IH (S i) S1 (skipn (channels * w) s) HS1 ltac:(lia))
      as (S' & E & HS' & Hget).
    { rewrite length_skipn. lia. }
    exists S'. split.
    { rewrite E, skipn_skipn. do 3 f_equal. lia. }
    split; [assumption|].
    intros ch' i' Hch' Hi'. rewrite (Hget ch' i' Hch' Hi'), (Hget1 ch' i' Hch' Hi').
    replace (0 <=? ch')%nat with true by reflexivity.
    replace (ch' <? 0 + channels)%nat with true by (symmetry; apply Nat.ltb_lt; lia).
    rewrite !andb_true_r, Nat.sub_0_r.
    destruct (Nat.eqb_spec i' i) as [->|Hne].
    + replace (S i <=? i)%nat with false by (symmetry; apply Nat.leb_gt; lia).
      replace (i <=? i)%nat with true by (symmetry; apply Nat.leb_le; lia).
      replace (i <? i + S n)%nat with true by (symmetry; apply Nat.ltb_lt; lia).
      cbn [andb]. rewrite Nat.sub_diag. reflexivity.
    + destruct (Nat.leb_spec (S i) i') as [Hle|Hgt].
      * replace (i <=? i')%nat with true by (symmetry; apply Nat.leb_le; lia).
        replace (i' <? i + S n)%nat with (i' <? S i + n)%nat by (f_equal; lia).
        cbn [andb]. destruct (i' <? S i + n)%nat; [|reflexivity].
        rewrite skipn_skipn. do 3 f_equal. nia.
      * replace (i <=? i')%nat with false by (symmetry; apply Nat.leb_gt; lia).
        reflexivity.
Qed.

Lemma firstn_skipn_app {A} (l rest : list A) off :
  (off + w <= List.length l)%nat ->
  firstn w (skipn off (l ++ rest)) = firstn w (skipn off l).
Proof.
  intros H. rewrite skipn_app, firstn_app.
  replace (off - List.length l)%nat with 0%nat by lia.
  replace (w - List.length (skipn off l))%nat with 0%nat
    by (rewrite length_skipn; lia).
  cbn [skipn firstn]. apply app_nil_r.
Qed.

(** A payload of whole frames is decoded sample by sample, and the
    stream is left right behind it. *)
Lemma readFrames_decoded payload rest :
  List.length payload = (frames * (channels * w))%nat ->
  readFrames decode channels frames 0 (repeat (repeat zero frames) channels)
             (payload ++ rest)
  = Ok (decodedSamples dec w channels frames payload, rest).
Proof.
  intros Hlen.
  destruct (readFrames_at frames 0%nat (repeat (repeat zero frames) channels)
              (payload ++ rest) (shaped_repeat channels frames) ltac:(lia))
    as (S' & E & HS' & Hget).
  { rewrite length_app. lia. }
  rewrite E. rewrite <- Hlen, skipn_app, Nat.sub_diag, skipn_all. cbn [skipn app].
  do 2 f_equal.
  apply (shaped_ext channels frames);
    [assumption|apply shaped_decodedSamples|].
  intros ch i Hch Hi.
  rewrite (Hget ch i Hch Hi), getSample_decodedSamples by assumption.
  replace (0 <=? i)%nat with true by reflexivity.
  replace (i <? 0 + frames)%nat with true by (symmetry; apply Nat.ltb_lt; lia).
  cbn [andb]. rewrite Nat.sub_0_r. unfold sampleAt. f_equal.
  apply firstn_skipn_app. rewrite Hlen.
  assert (H1 : (i * channels + ch + 1 <= frames * channels)%nat) by nia.
  replace (frames * (channels * w))%nat with (frames * channels * w)%nat by lia.
  apply (Nat.mul_le_mono_r _ _ w) in H1. lia.
Qed.
End Positional.

(** *** The three decoders against the bytes of one sample *)

Lemma readPCM16_firstn s :
  (2 <= List.length s)%nat ->
  readPCM16 s = Ok (decodePCM16 (firstn 2 s), skipn 2 s).
Proof.
  destruct s as [|b0 [|b1 rest]]; cbn [List.length]; try lia. intros _.
  apply ConvFacts.readPCM16_spec.
Qed.

Lemma readPCM24_firstn s :
  (3 <= List.length s)%nat ->
  readPCM24 s = Ok (decodePCM24 (firstn 3 s), skipn 3 s).
Proof.
  destruct s as [|b0 [|b1 [|b2 rest]]]; cbn [List.length]; try lia. intros _.
  apply ConvFacts.readPCM24_spec.
Qed.

Lemma readFloat32_firstn s :
  (4 <= List.length s)%nat ->
  readFloat32 s = Ok (decodeFloat32 (firstn 4 s), skipn 4 s).
Proof.
  destruct s as [|b0 [|b1 [|b2 [|b3 rest]]]]; cbn [List.length]; try lia.
  intros _. apply ConvFacts.readFloat32_spec.
Qed.

(** The format switch on a payload of whole frames. *)
Lemma readSamples_decoded f w nch nfr payload rest :
  bytesPerSample f = Some w ->
  List.length payload = (nfr * (nch * Z.to_nat w))%nat ->
  readSamples f nch nfr (repeat (repeat zero nfr) nch) (payload ++ rest)
  = Ok (decodedSamples (decoderOf f) (Z.to_nat w) nch nfr payload, rest).
Proof.
  intros Hw Hlen.
  destruct (ReaderFacts.bytesPerSample_cases f w Hw)
    as [(Ha & Hb & ->)|[(Ha & Hb & ->)|(Ha & Hb & ->)]];
    rewrite ReaderFacts.readSamples_eq; unfold decoderOf;
    rewrite Ha, Hb; cbn [Z.eqb Pos.eqb negb].
  - apply (readFrames_decoded readPCM16 decodePCM16 2 readPCM16_firstn);
      assumption.
  - apply (readFrames_decoded readPCM24 decodePCM24 3 readPCM24_firstn);
      assumption.
  - apply (readFrames_decoded readFloat32 decodeFloat32 4 readFloat32_firstn);
      assumption.
Qed.

(** Only the first [frames * channels * w] bytes of a payload are
    looked at. *)
Lemma decodedSamples_prefix dec w channels frames p q :
  List.length p = (frames * (channels * w))%nat ->
  decodedSamples dec w channels frames (p ++ q)
  = decodedSamples dec w channels frames p.
Proof.
  intros Hlen.
  apply (shaped_ext channels frames); try apply shaped_decodedSamples.
  intros ch i Hch Hi. rewrite !getSample_decodedSamples by assumption.
  unfold sampleAt. f_equal. apply firstn_skipn_app. rewrite Hlen.
  assert (H1 : (i * channels + ch + 1 <= frames * channels)%nat) by nia.
  replace (frames * (channels * w))%nat with (frames * channels * w)%nat by lia.
  apply (Nat.mul_le_mono_r _ _ w) in H1. lia.
Qed.

(** The body of [case "data"] on a supported format: the frames are
    decoded from the front of the stream, [channels * w] bytes each;
    [blockAlign] only counts them. *)
Lemma readData_decoded f w n size payload tail :
  bytesPerSample f = Some w ->
  0 <= numChannels f ->
  0 < blockAlign f -> size = n * blockAlign f -> 0 <= n ->
  Z.of_nat (List.length payload) = n * (numChannels f * w) ->
  (size mod 2 = 1 -> tail <> []) ->
  dropRest (readData readSamples (numChannels f) (Some f) size (payload ++ tail))
  = Ok {| SampleRate := sampleRate f;
          Samples := decodedSamples (decoderOf f) (Z.to_nat w)
                       (Z.to_nat (numChannels f)) (Z.to_nat n) payload;
          NumSamples := n |}.
Proof.
  intros Hw Hch Hba -> Hn Hlen Hpad.
  assert (Hwpos : 0 < w).
  { destruct (ReaderFacts.bytesPerSample_cases f w Hw)
      as [(_ & _ & ->)|[(_ & _ & ->)|(_ & _ & ->)]]; lia. }
  unfold readData, fail.
  rewrite Z.eqb_refl.
  replace (blockAlign f =? 0) with false by (symmetry; apply Z.eqb_neq; lia).
  rewrite Z.mod_mul, Z.div_mul by lia.
  cbn [negb Z.eqb].
  set (nfr := Z.to_nat n). set (nch := Z.to_nat (numChannels f)).
  assert (Hbytes : List.length payload = (nfr * (nch * Z.to_nat w))%nat).
  { apply Nat2Z.inj. rewrite !Nat2Z.inj_mul. unfold nfr, nch.
    rewrite !Z2Nat.id by lia. exact Hlen. }
  unfold bind.
  rewrite (readSamples_decoded f w nch nfr payload tail Hw Hbytes).
  destruct (n * blockAlign f mod 2 =? 1) eqn:Eodd.
  - apply Z.eqb_eq in Eodd. specialize (Hpad Eodd).
    destruct tail as [|b tail']; [contradiction|]. reflexivity.
  - reflexivity.
Qed.

(** *** Whole files *)

(** The reader on a file: header, chunks and fmt chunk are walked
    through, and the body of [case "data"] decides. *)
Lemma readWAVWith_wavFile samplesOf riffSize before f ext between size body e :
  wfFormat f = true -> 16 + Z.of_nat (List.length ext) < 2 ^ 32 ->
  forallb isUnknownChunk before = true ->
  forallb isUnknownChunk between = true ->
  0 <= size < 2 ^ 32 ->
  readWAVWith samplesOf (wavFile riffSize before f ext between size body) e
  = dropRest (readData samplesOf e (Some f) size body).
Proof.
  intros Hwf Hext Hb1 Hb2 Hsize. unfold wavFile.
  rewrite ReaderFacts.readWAVWith_riff.
  rewrite ReaderFacts.chunkLoop_unknowns by assumption.
  rewrite ReaderFacts.chunkLoop_fmt by assumption.
  rewrite ReaderFacts.chunkLoop_unknowns by assumption.
  rewrite ReaderFacts.chunkLoop_data.
  rewrite Z.mod_small by assumption. reflexivity.
Qed.

(** *** Streams that end too early *)

Section Short.
Variable decode : Reader float64.
Variable dec : list byte -> float64.
Variable mk : ioError -> wavError.
Variable w : nat.
Hypothesis w_pos : (0 < w)%nat.
Hypothesis decode_spec : forall s,
  (w <= List.length s)%nat -> decode s = Ok (dec (firstn w s), skipn w s).
Hypothesis decode_short : forall s,
  (List.length s < w)%nat ->
  decode s = Err (mk (match s with [] => EOF | _ :: _ => ErrUnexpectedEOF end)).

Lemma shortRead_skipn (s : stream) :
  (w <= List.length s)%nat ->
  shortRead (List.length (skipn w s)) w = shortRead (List.length s) w.
Proof.
  intros H. unfold shortRead. rewrite length_skipn.
  replace (List.length s) with ((List.length s - w) + 1 * w)%nat at 2 by lia.
  rewrite Nat.Div0.mod_add. reflexivity.
Qed.

Lemma readFrame_short i n : forall ch smp s,
  (List.length s < n * w)%nat ->
  readFrame decode i n ch smp s = Err (mk (shortRead (List.length s) w)).
Proof.
  induction n as [|n IH]; intros ch smp s Hlen; cbn [readFrame];
    [cbn in Hlen; lia|].
  unfold bind. destruct (Nat.lt_ge_cases (List.length s) w) as [Hs|Hs].
  - rewrite decode_short by assumption. unfold shortRead.
    destruct s as [|b s']; cbn [List.length].
    + rewrite Nat.Div0.mod_0_l. reflexivity.
    + rewrite Nat.mod_small by assumption. reflexivity.
  - rewrite decode_spec by assumption.
    rewrite IH by (rewrite length_skipn; cbn [Nat.mul] in Hlen; lia).
    rewrite shortRead_skipn by assumption. reflexivity.
Qed.

Lemma shortRead_skipn_mul k (s : stream) :
  (k * w <= List.length s)%nat ->
  shortRead (List.length (skipn (k * w) s)) w = shortRead (List.length s) w.
Proof.
  intros H. unfold shortRead. rewrite length_skipn.
  replace (List.length s) with ((List.length s - k * w) + k * w)%nat at 2 by lia.
  rewrite Nat.Div0.mod_add. reflexivity.
Qed.

Lemma readFrames_short channels n : forall i smp s,
  (List.length s < n * (channels * w))%nat ->
  readFrames decode channels n i smp s
  = Err (mk (shortRead (List.length s) w)).
Proof.
  induction n as [|n IH]; intros i smp s Hlen; cbn [readFrames];
    [cbn in Hlen; lia|].
  unfold bind.
  destruct (Nat.lt_ge_cases (List.length s) (channels * w)) as [Hs|Hs].
  - rewrite readFrame_short by assumption. reflexivity.
  - destruct (ReaderFacts.readFrame_enough decode w
                (fun s H => ex_intro _ _ (decode_spec s H))
                i channels 0%nat smp s Hs) as [smp' E].
    rewrite E.
    rewrite IH by (rewrite length_skipn; cbn [Nat.mul] in Hlen; lia).
    rewrite shortRead_skipn_mul by assumption. reflexivity.
Qed.
End Short.

Lemma readPCM16_short s :
  (List.length s < 2)%nat ->
  readPCM16 s
  = Err (ErrReadPCM16Sample (match s with [] => EOF | _ :: _ => ErrUnexpectedEOF end)).
Proof.
  destruct s as [|b0 [|b1 rest]]; cbn [List.length]; try lia; reflexivity.
Qed.

Lemma readPCM24_short s :
  (List.length s < 3)%nat ->
  readPCM24 s
  = Err (ErrReadPCM24Sample (match s with [] => EOF | _ :: _ => ErrUnexpectedEOF end)).
Proof.
  destruct s as [|b0 [|b1 [|b2 rest]]]; cbn [List.length]; try lia; reflexivity.
Qed.

Lemma readFloat32_short s :
  (List.length s < 4)%nat ->
  readFloat32 s
  = Err (ErrReadFloat32Sample (match s with [] => EOF | _ :: _ => ErrUnexpectedEOF end)).
Proof.
  destruct s as [|b0 [|b1 [|b2 [|b3 rest]]]]; cbn [List.length]; try lia;
    reflexivity.
Qed.

Lemma readSamples_short f w nch nfr init s :
  bytesPerSample f = Some w ->
  (List.length s < nfr * (nch * Z.to_nat w))%nat ->
  readSamples f nch nfr init s
  = Err (sampleError f (shortRead (List.length s) (Z.to_nat w))).
Proof.
  intros Hw Hlen.
  destruct (ReaderFacts.bytesPerSample_cases f w Hw)
    as [(Ha & Hb & ->)|[(Ha & Hb & ->)|(Ha & Hb & ->)]];
    rewrite ReaderFacts.readSamples_eq; unfold sampleError;
    rewrite Ha, Hb; cbn [Z.eqb Pos.eqb negb].
  - apply (readFrames_short readPCM16 decodePCM16 ErrReadPCM16Sample 2
             ltac:(lia) readPCM16_firstn readPCM16_short); assumption.
  - apply (readFrames_short readPCM24 decodePCM24 ErrReadPCM24Sample 3
             ltac:(lia) readPCM24_firstn readPCM24_short); assumption.
  - apply (readFrames_short readFloat32 decodeFloat32 ErrReadFloat32Sample 4
             ltac:(lia) readFloat32_firstn readFloat32_short); assumption.
Qed.

(** A data chunk that declares more frames than the stream holds. *)
Lemma readData_short f w n size s :
  bytesPerSample f = Some w ->
  0 <= numChannels f ->
  0 < blockAlign f -> size = n * blockAlign f -> 0 <= n ->
  Z.of_nat (List.length s) < n * (numChannels f * w) ->
  readData readSamples (numChannels f) (Some f) size s
  = Err (sampleError f (shortRead (List.length s) (Z.to_nat w))).
Proof.
  intros Hw Hch Hba -> Hn Hlen.
  assert (Hwpos : 0 < w).
  { destruct (ReaderFacts.bytesPerSample_cases f w Hw)
      as [(_ & _ & ->)|[(_ & _ & ->)|(_ & _ & ->)]]; lia. }
  unfold readData, fail.
  rewrite Z.eqb_refl.
  replace (blockAlign f =? 0) with false by (symmetry; apply Z.eqb_neq; lia).
  rewrite Z.mod_mul, Z.div_mul by lia.
  cbn [negb Z.eqb]. unfold bind.
  rewrite (readSamples_short f w) ; [reflexivity|assumption|].
  apply Nat2Z.inj_lt. rewrite !Nat2Z.inj_mul, !Z2Nat.id by lia. exact Hlen.
Qed.

(** An odd data chunk with nothing behind it: the samples are read,
    the pad byte is missed. *)
Lemma readData_no_pad f w n size payload :
  bytesPerSample f = Some w ->
  0 <= numChannels f ->
  0 < blockAlign f -> size = n * blockAlign f -> 0 <= n ->
  Z.of_nat (List.length payload) = n * (numChannels f * w) ->
  size mod 2 = 1 ->
  readData readSamples (numChannels f) (Some f) size payload
  = Err (ErrReadDataPadByte EOF).
Proof.
  intros Hw Hch Hba -> Hn Hlen Hodd.
  assert (Hwpos : 0 < w).
  { destruct (ReaderFacts.bytesPerSample_cases f w Hw)
      as [(_ & _ & ->)|[(_ & _ & ->)|(_ & _ & ->)]]; lia. }
  unfold readData, fail.
  rewrite Z.eqb_refl.
  replace (blockAlign f =? 0) with false by (symmetry; apply Z.eqb_neq; lia).
  rewrite Hodd.
  rewrite Z.mod_mul, Z.div_mul by lia.
  cbn [negb Z.eqb Pos.eqb].
  set (nfr := Z.to_nat n). set (nch := Z.to_nat (numChannels f)).
  assert (Hbytes : List.length payload = (nfr * (nch * Z.to_nat w))%nat).
  { apply Nat2Z.inj. rewrite !Nat2Z.inj_mul. unfold nfr, nch.
    rewrite !Z2Nat.id by lia. exact Hlen. }
  unfold bind.
  rewrite <- (app_nil_r payload) at 1.
  rewrite (readSamples_decoded f w nch nfr payload [] Hw Hbytes).
  reflexivity.
Qed.

Lemma bytesPerSample_eq f :
  bytesPerSample f =
  if audioFormat f =? 1 then
    if bitsPerSample f =? 16 then Some 2
    else if bitsPerSample f =? 24 then Some 3 else None
  else if audioFormat f =? 3 then
    if bitsPerSample f =? 32 then Some 4 else None
  else None.
Proof.
  unfold bytesPerSample.
  destruct (audioFormat f) as [|p|p]; try reflexivity.
  do 2 (try (destruct p as [p|p|]; try reflexivity));
    destruct (bitsPerSample f) as [|q|q]; try reflexivity;
    do 6 (try (destruct q as [q|q|]; try reflexivity)).
Qed.

Lemma readSamples_unsupported f nch nfr init s :
  bytesPerSample f = None ->
  readSamples f nch nfr init s = Err (unsupportedError f).
Proof.
  rewrite bytesPerSample_eq, ReaderFacts.readSamples_eq. unfold unsupportedError.
  destruct (audioFormat f =? 1).
  - destruct (bitsPerSample f =? 16); [discriminate|].
    destruct (bitsPerSample f =? 24); [discriminate|]. reflexivity.
  - destruct (audioFormat f =? 3); [|reflexivity].
    destruct (bitsPerSample f =? 32); [discriminate|]. reflexivity.
Qed.

Lemma chunkLoop_nil samplesOf e f :
  chunkLoop samplesOf e f [] = Err ErrNoDataChunk.
Proof. reflexivity. Qed.

End FrameFacts.

(* ------------------------------------------------------------------ *)
(** ** The reader on longer and on shorter streams *)
(* ------------------------------------------------------------------ *)

Module StreamFacts.
Import F64 Wav WavFile.

Lemma ReadFull_stable n : stableIO (ReadFull n).
Proof.
  intros s a s' x. unfold ReadFull.
  destruct (Nat.leb_spec n (List.length s)) as [H|H]; [|discriminate].
  intros E. injection E as <- <-.
  rewrite length_app.
  replace (n <=? List.length s + List.length x)%nat with true
    by (symmetry; apply Nat.leb_le; lia).
  rewrite firstn_app, skipn_app.
  replace (n - List.length s)%nat with 0%nat by lia.
  cbn [firstn skipn]. rewrite app_nil_r. reflexivity.
Qed.

Lemma readUint_stable n : stableIO (readUint n).
Proof.
  intros s a s' x. unfold readUint.
  destruct (ReadFull n s) as [?|[bs s1]] eqn:E; [discriminate|].
  intros H. injection H as <- <-.
  rewrite (ReadFull_stable n s bs s1 x E). reflexivity.
Qed.

Lemma readInt_stable n : stableIO (readInt n).
Proof.
  intros s a s' x. unfold readInt.
  destruct (readUint n s) as [?|[u s1]] eqn:E; [discriminate|].
  intros H. injection H as <- <-.
  rewrite (readUint_stable n s u s1 x E). reflexivity.
Qed.

Lemma CopyN_stable n : stableIO (CopyN n).
Proof.
  intros s a s' x. unfold CopyN.
  destruct (Z.leb_spec n (Z.of_nat (List.length s))) as [H|H]; [|discriminate].
  intros E. injection E as <- <-.
  rewrite length_app.
  replace (n <=? Z.of_nat (List.length s + List.length x)) with true
    by (symmetry; apply Z.leb_le; lia).
  rewrite skipn_app.
  replace (Z.to_nat n - List.length s)%nat with 0%nat by lia.
  reflexivity.
Qed.

Lemma ReadByte_stable : stableIO ReadByte.
Proof.
  intros s a s' x. destruct s as [|b s1]; [discriminate|].
  cbn. intros E. injection E as <- <-. reflexivity.
Qed.

Lemma readPCM24Sample_stable : stableIO readPCM24Sample.
Proof.
  intros s a s' x. unfold readPCM24Sample.
  destruct (ReadFull 3 s) as [?|[bs s1]] eqn:E; [discriminate|].
  intros H. injection H as <- <-.
  rewrite (ReadFull_stable 3 s bs s1 x E). reflexivity.
Qed.

Lemma wrap_stable {A} mk (op : io A) : stableIO op -> stable (wrap mk op).
Proof.
  intros Hop s a s' x. unfold wrap.
  destruct (op s) as [?|[a1 s1]] eqn:E; [discriminate|].
  intros H. injection H as <- <-.
  rewrite (Hop s a1 s1 x E). reflexivity.
Qed.

Lemma ret_stable {A} (a : A) : stable (ret a).
Proof. intros s a' s' x H. injection H as <- <-. reflexivity. Qed.

Lemma fail_stable {A} e : stable (@fail A e).
Proof. intros s a s' x H. discriminate. Qed.

Lemma bind_stable {A B} (m : Reader A) (k : A -> Reader B) :
  stable m -> (forall a, stable (k a)) -> stable (bind m k).
Proof.
  intros Hm Hk s b s' x. unfold bind.
  destruct (m s) as [[a s1]|?] eqn:E; [|discriminate].
  rewrite (Hm s a s1 x E). apply Hk.
Qed.

Lemma readPCM16_stable : stable readPCM16.
Proof.
  apply bind_stable; [apply wrap_stable, readInt_stable|].
  intros a. apply ret_stable.
Qed.

Lemma readPCM24_stable : stable readPCM24.
Proof.
  apply bind_stable; [apply wrap_stable, readPCM24Sample_stable|].
  intros a. apply ret_stable.
Qed.

Lemma readFloat32_stable : stable readFloat32.
Proof.
  apply bind_stable; [apply wrap_stable, readUint_stable|].
  intros a. apply ret_stable.
Qed.

Lemma readFrame_stable decode i n :
  stable decode -> forall ch smp, stable (readFrame decode i n ch smp).
Proof.
  intros Hd. induction n as [|n IH]; intros ch smp; cbn [readFrame].
  - apply ret_stable.
  - apply bind_stable; [exact Hd|]. intros v. apply IH.
Qed.

Lemma readFrames_stable decode channels n :
  stable decode -> forall i smp, stable (readFrames decode channels n i smp).
Proof.
  intros Hd. induction n as [|n IH]; intros i smp; cbn [readFrames].
  - apply ret_stable.
  - apply bind_stable; [apply readFrame_stable; exact Hd|].
    intros smp'. apply IH.
Qed.

Lemma readSamples_stable f nch nfr init : stable (readSamples f nch nfr init).
Proof.
  rewrite ReaderFacts.readSamples_eq.
  destruct (audioFormat f =? 1).
  - destruct (bitsPerSample f =? 16);
      [apply readFrames_stable, readPCM16_stable|].
    destruct (bitsPerSample f =? 24);
      [apply readFrames_stable, readPCM24_stable|apply fail_stable].
  - destruct (audioFormat f =? 3); [|apply fail_stable].
    destruct (negb (bitsPerSample f =? 32));
      [apply fail_stable|apply readFrames_stable, readFloat32_stable].
Qed.

Lemma pad_stable mk (b : bool) :
  stable (if b then bind (wrap mk ReadByte) (fun _ => ret tt) else ret tt).
Proof.
  destruct b; [|apply ret_stable].
  apply bind_stable; [apply wrap_stable, ReadByte_stable|].
  intros a. apply ret_stable.
Qed.

Lemma readFmt_stable chunkSize : stable (readFmt chunkSize).
Proof.
  unfold readFmt. destruct (chunkSize <? 16); [apply fail_stable|].
  repeat (apply bind_stable; [apply wrap_stable, readUint_stable|intros ?]).
  apply bind_stable; [|intros ?; apply ret_stable].
  destruct (0 <? chunkSize - 16); [apply wrap_stable, CopyN_stable|apply ret_stable].
Qed.

Lemma skipChunk_stable chunkID chunkSize : stable (skipChunk chunkID chunkSize).
Proof.
  unfold skipChunk.
  apply bind_stable; [apply wrap_stable, CopyN_stable|]. intros _.
  apply pad_stable.
Qed.

Lemma readData_stable e fo chunkSize :
  stable (readData readSamples e fo chunkSize).
Proof.
  unfold readData. destruct fo as [f|]; [|apply fail_stable].
  destruct (negb (numChannels f =? e)); [apply fail_stable|].
  destruct (blockAlign f =? 0); [apply fail_stable|].
  destruct (negb (chunkSize mod blockAlign f =? 0)); [apply fail_stable|].
  cbv zeta.
  apply bind_stable; [apply readSamples_stable|]. intros smp.
  apply bind_stable; [apply pad_stable|]. intros _. apply ret_stable.
Qed.

Lemma readHeader_stable : stable readHeader.
Proof.
  unfold readHeader.
  apply bind_stable; [apply wrap_stable, ReadFull_stable|]. intros riff.
  destruct (negb (string_of_list_byte riff =? "RIFF")%string);
    [apply fail_stable|].
  apply bind_stable; [apply wrap_stable, readUint_stable|]. intros _.
  apply bind_stable; [apply wrap_stable, ReadFull_stable|]. intros wave.
  destruct (negb (string_of_list_byte wave =? "WAVE")%string);
    [apply fail_stable|apply ret_stable].
Qed.

(** A result of the chunk loop stays when bytes are added behind the
    stream: the loop returns at the data chunk. *)
Lemma chunkLoop_stable x a e : forall n s fo,
  (List.length s < n)%nat ->
  chunkLoop readSamples e fo s = Ok a ->
  chunkLoop readSamples e fo (s ++ x) = Ok a.
Proof.
  induction n as [|n IH]; intros s fo Hn; [lia|].
  rewrite !ReaderFacts.chunkLoop_step.
  destruct (ReadFull 4 s) as [[|]|[chunkID s1]] eqn:E1; try discriminate.
  rewrite (ReadFull_stable 4 s chunkID s1 x E1).
  apply ReaderFacts.ReadFull_length in E1. destruct E1 as [_ E1].
  destruct (wrap ErrReadChunkSize (readUint 4) s1) as [[chunkSize s2]|?] eqn:E2;
    [|discriminate].
  rewrite (wrap_stable _ _ (readUint_stable 4) s1 chunkSize s2 x E2).
  assert (L2 : (List.length s2 <= List.length s1)%nat).
  { unfold wrap in E2. destruct (readUint 4 s1) as [?|[v s2']] eqn:E; [discriminate|].
    injection E2 as <- <-. apply ReaderFacts.readUint_length in E. lia. }
  destruct (string_of_list_byte chunkID =? "fmt ")%string.
  { destruct (readFmt chunkSize s2) as [[f' s3]|?] eqn:E3; [|discriminate].
    rewrite (readFmt_stable chunkSize s2 f' s3 x E3).
    apply ReaderFacts.readFmt_length in E3. apply IH. lia. }
  destruct (string_of_list_byte chunkID =? "data")%string.
  { destruct (readData readSamples e fo chunkSize s2) as [[a' s3]|?] eqn:E3;
      [|discriminate].
    rewrite (readData_stable e fo chunkSize s2 a' s3 x E3). trivial. }
  destruct (skipChunk chunkID chunkSize s2) as [[u s3]|?] eqn:E3; [|discriminate].
  rewrite (skipChunk_stable chunkID chunkSize s2 u s3 x E3).
  apply ReaderFacts.skipChunk_length in E3. apply IH. lia.
Qed.

Lemma readWAV_stable r e a x :
  readWAV r e = Ok a -> readWAV (r ++ x) e = Ok a.
Proof.
  unfold readWAV, readWAVWith.
  destruct (readHeader r) as [[u s]|?] eqn:E; [|discriminate].
  rewrite (readHeader_stable r u s x E).
  apply (chunkLoop_stable x a e (S (List.length s))). lia.
Qed.

(** *** What a successful read has consumed *)

Lemma readSamples_consumes f nch nfr init s smp s' :
  readSamples f nch nfr init s = Ok (smp, s') ->
  exists w, bytesPerSample f = Some w /\
            (nfr * (nch * Z.to_nat w) <= List.length s)%nat.
Proof.
  intros E. destruct (bytesPerSample f) as [w|] eqn:Hw.
  - exists w. split; [reflexivity|].
    destruct (Nat.lt_ge_cases (List.length s) (nfr * (nch * Z.to_nat w)))
      as [H|H]; [|exact H].
    rewrite (FrameFacts.readSamples_short f w nch nfr init s Hw H) in E.
    discriminate.
  - rewrite FrameFacts.readSamples_unsupported in E by assumption. discriminate.
Qed.

Lemma readData_consumes e f chunkSize s a s' :
  fmtRead f -> 0 <= chunkSize ->
  readData readSamples e (Some f) chunkSize s = Ok (a, s') ->
  0 <= e < 2 ^ 16 /\ 0 <= NumSamples a /\
  2 * e * NumSamples a <= Z.of_nat (List.length s).
Proof.
  intros [Hnc Hba] Hcs E.
  apply ReaderFacts.readData_inv in E.
  destruct E as (He & Hba0 & smp & s1 & E & ->). cbn [NumSamples].
  destruct (readSamples_consumes _ _ _ _ _ _ _ E) as (w & Hw & Hlen).
  assert (Hw2 : 2 <= w).
  { destruct (ReaderFacts.bytesPerSample_cases f w Hw)
      as [(_ & _ & ->)|[(_ & _ & ->)|(_ & _ & ->)]]; lia. }
  assert (Hn : 0 <= chunkSize / blockAlign f) by (apply Z.div_pos; lia).
  apply Nat2Z.inj_le in Hlen.
  rewrite !Nat2Z.inj_mul, !Z2Nat.id in Hlen by lia.
  split; [lia|]. split; [lia|]. nia.
Qed.

Lemma chunkLoop_length a e : forall n s fo,
  (List.length s < n)%nat ->
  match fo with Some f => fmtRead f | None => True end ->
  chunkLoop readSamples e fo s = Ok a ->
  0 <= e < 2 ^ 16 /\ 0 <= NumSamples a /\
  match fo with None => 32 | Some _ => 8 end + 2 * e * NumSamples a
  <= Z.of_nat (List.length s).
Proof.
  induction n as [|n IH]; intros s fo Hn Hfo; [lia|].
  rewrite ReaderFacts.chunkLoop_step.
  destruct (ReadFull 4 s) as [[|]|[chunkID s1]] eqn:E1; try discriminate.
  apply ReaderFacts.ReadFull_length in E1. destruct E1 as [_ E1].
  unfold wrap.
  destruct (readUint 4 s1) as [?|[chunkSize s2]] eqn:E2; [discriminate|].
  apply ReaderFacts.readUint_length in E2. destruct E2 as [Hcs E2].
  destruct (string_of_list_byte chunkID =? "fmt ")%string.
  { destruct (readFmt chunkSize s2) as [[f' s3]|?] eqn:E3; [|discriminate].
    apply ReaderFacts.readFmt_length in E3. destruct E3 as [E3 Hf'].
    intros H. destruct (IH s3 (Some f') ltac:(lia) Hf' H) as (H1 & H2 & H3).
    split; [exact H1|]. split; [exact H2|]. destruct fo; lia. }
  destruct (string_of_list_byte chunkID =? "data")%string.
  { destruct fo as [f|]; [|discriminate].
    destruct (readData readSamples e (Some f) chunkSize s2) as [[a' s3]|?] eqn:E3;
      [|discriminate].
    intros H. injection H as <-.
    destruct (readData_consumes e f chunkSize s2 a' s3 Hfo ltac:(lia) E3)
      as (H1 & H2 & H3).
    split; [exact H1|]. split; [exact H2|]. lia. }
  destruct (skipChunk chunkID chunkSize s2) as [[u s3]|?] eqn:E3; [|discriminate].
  apply ReaderFacts.skipChunk_length in E3.
  intros H. destruct (IH s3 fo ltac:(lia) Hfo H) as (H1 & H2 & H3).
  split; [exact H1|]. split; [exact H2|]. destruct fo; lia.
Qed.

Lemma eqb_bytes (l : list byte) (str : string) :
  (string_of_list_byte l =? str)%string = true -> l = list_byte_of_string str.
Proof.
  intros H. apply String.eqb_eq in H. rewrite <- H.
  symmetry. apply list_byte_of_string_of_list_byte.
Qed.

Lemma readHeader_inv r u s :
  readHeader r = Ok (u, s) ->
  firstn 4 r = writeString "RIFF" /\
  firstn 4 (skipn 8 r) = writeString "WAVE" /\
  List.length r = (12 + List.length s)%nat.
Proof.
  unfold readHeader, bind, wrap, fail, ret.
  destruct (ReadFull 4 r) as [?|[riff s1]] eqn:E1; [discriminate|].
  destruct (string_of_list_byte riff =? "RIFF")%string eqn:Q1; [|discriminate].
  cbn [negb].
  destruct (readUint 4 s1) as [?|[sz s2]] eqn:E2; [discriminate|].
  destruct (ReadFull 4 s2) as [?|[wave s3]] eqn:E3; [discriminate|].
  destruct (string_of_list_byte wave =? "WAVE")%string eqn:Q3; [|discriminate].
  cbn [negb]. intros H. injection H as _ <-.
  apply eqb_bytes in Q1, Q3.
  pose proof (ReaderFacts.ReadFull_length _ _ _ _ E1) as [_ L1].
  pose proof (ReaderFacts.readUint_length _ _ _ _ E2) as [_ L2].
  pose proof (ReaderFacts.ReadFull_length _ _ _ _ E3) as [_ L3].
  unfold ReadFull in E1, E3. unfold readUint, ReadFull in E2.
  destruct (4 <=? List.length r)%nat; [|discriminate].
  destruct (4 <=? List.length s1)%nat; [|discriminate].
  destruct (4 <=? List.length s2)%nat; [|discriminate].
  injection E1 as F1 S1. injection E2 as _ S2. injection E3 as F3 S3.
  change (firstn 4 r = riff) in F1. change (skipn 4 r = s1) in S1.
  change (skipn 4 s1 = s2) in S2. change (firstn 4 s2 = wave) in F3.
  unfold writeString. split; [congruence|]. split; [|lia].
  rewrite <- Q3, <- F3, <- S2, <- S1, skipn_skipn. reflexivity.
Qed.

(** *** Streams that break off in the header or between chunks *)

Lemma neqb_bytes (l : list byte) (str : string) :
  l <> list_byte_of_string str ->
  (string_of_list_byte l =? str)%string = false.
Proof.
  intros H. destruct (string_of_list_byte l =? str)%string eqn:E; [|reflexivity].
  apply eqb_bytes in E. contradiction.
Qed.

Lemma ReadFull_short n (s : stream) :
  (List.length s < n)%nat ->
  ReadFull n s = inl (match s with [] => EOF | _ :: _ => ErrUnexpectedEOF end).
Proof.
  intros H. unfold ReadFull.
  replace (n <=? List.length s)%nat with false
    by (symmetry; apply Nat.leb_gt; assumption).
  reflexivity.
Qed.

Lemma ReadFull_enough n (s : stream) :
  (n <= List.length s)%nat -> ReadFull n s = inr (firstn n s, skipn n s).
Proof.
  intros H. unfold ReadFull.
  replace (n <=? List.length s)%nat with true
    by (symmetry; apply Nat.leb_le; assumption).
  reflexivity.
Qed.

Lemma CopyN_short n (s : stream) :
  Z.of_nat (List.length s) < n -> CopyN n s = inl EOF.
Proof.
  intros H. unfold CopyN.
  replace (n <=? Z.of_nat (List.length s)) with false
    by (symmetry; apply Z.leb_gt; assumption).
  reflexivity.
Qed.

(** The chunk loop on a chunk that is neither "fmt " nor "data". *)
Lemma chunkLoop_other samplesOf e fo id size rest :
  List.length id = 4%nat ->
  (string_of_list_byte id =? "fmt ")%string = false ->
  (string_of_list_byte id =? "data")%string = false ->
  0 <= size < 2 ^ 32 ->
  chunkLoop samplesOf e fo (id ++ le_split 4 size ++ rest)
  = match skipChunk id size rest with
    | Err err => Err err
    | Ok (_, s3) => chunkLoop samplesOf e fo s3
    end.
Proof.
  intros Hlen Hfmt Hdata Hsz.
  rewrite ReaderFacts.chunkLoop_step.
  rewrite ReaderFacts.ReadFull_app by assumption.
  unfold wrap at 1.
  rewrite ReaderFacts.readUint_app_small
    by (change (Z.of_nat 4 * 8) with 32; lia).
  rewrite Hfmt, Hdata. reflexivity.
Qed.

Lemma chunkLoop_fmt_header samplesOf e fo size rest :
  0 <= size < 2 ^ 32 ->
  chunkLoop samplesOf e fo (writeString "fmt " ++ le_split 4 size ++ rest)
  = match readFmt size rest with
    | Err err => Err err
    | Ok (f', s3) => chunkLoop samplesOf e (Some f') s3
    end.
Proof.
  intros Hsz.
  rewrite ReaderFacts.chunkLoop_step.
  rewrite ReaderFacts.ReadFull_app by reflexivity.
  unfold wrap at 1.
  rewrite ReaderFacts.readUint_app_small
    by (change (Z.of_nat 4 * 8) with 32; lia).
  change (string_of_list_byte (writeString "fmt ") =? "fmt ")%string with true.
  reflexivity.
Qed.

End StreamFacts.

(* ------------------------------------------------------------------ *)
(** ** The writers *)
(* ------------------------------------------------------------------ *)

Module WriterFacts.
Import F64 Wav WavFile.

(** *** The checks in front of the header *)

Lemma checkChannels_None samples numSamples n : forall ch,
  checkChannels samples numSamples n ch = None <->
  (forall c, (ch <= c < ch + n)%nat ->
             numSamples <= Z.of_nat (List.length (nth c samples []))).
Proof.
  induction n as [|n IH]; intros ch; cbn [checkChannels].
  - split; [intros _ c Hc; lia|reflexivity].
  - destruct (Z.ltb_spec (Z.of_nat (List.length (nth ch samples []))) numSamples)
      as [H|H].
    + split; [discriminate|]. intros Hall.
      specialize (Hall ch ltac:(lia)). lia.
    + rewrite IH. split; intros Hall c Hc.
      * destruct (Nat.eq_dec c ch) as [->|Hne]; [assumption|].
        apply Hall. lia.
      * apply Hall. lia.
Qed.

(** The channel reported short is the first short one. *)
Lemma checkChannels_Some samples numSamples n : forall ch e,
  checkChannels samples numSamples n ch = Some e ->
  exists c, (ch <= c < ch + n)%nat /\
    e = ErrChannelTooShort (Z.of_nat c)
          (Z.of_nat (List.length (nth c samples []))) numSamples /\
    Z.of_nat (List.length (nth c samples [])) < numSamples /\
    forall c', (ch <= c' < c)%nat ->
               numSamples <= Z.of_nat (List.length (nth c' samples [])).
Proof.
  induction n as [|n IH]; intros ch e; cbn [checkChannels]; [discriminate|].
  destruct (Z.ltb_spec (Z.of_nat (List.length (nth ch samples []))) numSamples)
    as [H|H].
  - intros E. injection E as <-. exists ch.
    split; [lia|]. split; [reflexivity|]. split; [lia|]. intros c' Hc'. lia.
  - intros E. destruct (IH (S ch) e E) as (c & Hc & He & Hlt & Hall).
    exists c. split; [lia|]. split; [assumption|]. split; [assumption|].
    intros c' Hc'. destruct (Nat.eq_dec c' ch) as [->|Hne]; [assumption|].
    apply Hall. lia.
Qed.

Lemma Forall_nth_iff {A} (P : A -> Prop) (l : list A) d :
  Forall P l <-> (forall i, (i < List.length l)%nat -> P (nth i l d)).
Proof.
  split.
  - intros H i Hi. rewrite Forall_forall in H. apply H, nth_In, Hi.
  - intros H. apply Forall_forall. intros x Hx.
    destruct (In_nth l x d Hx) as (i & Hi & <-). apply H, Hi.
Qed.

Lemma checkOutput_None data channels :
  checkOutput data channels = None <-> writable data channels.
Proof.
  unfold checkOutput, writable.
  destruct (Z.eqb_spec (Z.of_nat (List.length (Samples data))) channels)
    as [Hc|Hc]; cbn [negb].
  - destruct (Z.ltb_spec (NumSamples data) 0) as [Hn|Hn].
    + split; [discriminate|]. intros (_ & H & _). lia.
    + rewrite checkChannels_None.
      rewrite (Forall_nth_iff _ (Samples data) []).
      split.
      * intros H. repeat split; try assumption.
        intros i Hi. apply H. lia.
      * intros (_ & _ & H) c Hc'. apply H. lia.
  - split; [discriminate|]. intros (H & _). contradiction.
Qed.

(** *** The interleaved samples, by position *)

Section Frames.
Variable enc : float64 -> list byte.
Variable w : nat.
Hypothesis enc_length : forall v, List.length (enc v) = w.
Variable samples : list (list float64).

Lemma writeFrame_length i n : forall ch,
  List.length (writeFrame enc samples i n ch) = (n * w)%nat.
Proof.
  induction n as [|n IH]; intros ch; cbn [writeFrame]; [reflexivity|].
  rewrite length_app, enc_length, IH. reflexivity.
Qed.

Lemma writeFrames_length channels n : forall i,
  List.length (writeFrames enc samples channels n i)
  = (n * (channels * w))%nat.
Proof.
  induction n as [|n IH]; intros i; cbn [writeFrames]; [reflexivity|].
  rewrite length_app, writeFrame_length, IH. reflexivity.
Qed.

Lemma firstn_skipn_block {A} (a b : list A) k :
  List.length a = k -> forall off,
  firstn w (skipn (k + off) (a ++ b)) = firstn w (skipn off b).
Proof.
  intros Hk off. rewrite skipn_app, Hk.
  rewrite skipn_all2 by lia.
  replace (k + off - k)%nat with off by lia. reflexivity.
Qed.

Lemma writeFrame_at i n : forall ch c rest,
  (c < n)%nat ->
  firstn w (skipn (c * w) (writeFrame enc samples i n ch ++ rest))
  = enc (getSample samples (ch + c) i).
Proof.
  induction n as [|n IH]; intros ch c rest Hc; [lia|].
  cbn [writeFrame]. rewrite <- app_assoc.
  destruct c as [|c].
  - cbn [Nat.mul skipn]. rewrite firstn_app, enc_length, Nat.sub_diag.
    cbn [firstn]. rewrite app_nil_r, Nat.add_0_r.
    rewrite <- (enc_length (nth i (nth ch samples []) zero)).
    apply firstn_all.
  - cbn [Nat.mul].
    rewrite (firstn_skipn_block _ _ w (enc_length _)).
    rewrite IH by lia. f_equal. f_equal. lia.
Qed.

Lemma writeFrames_at channels n : forall i j c,
  (j < n)%nat -> (c < channels)%nat ->
  firstn w (skipn ((j * channels + c) * w)
                  (writeFrames enc samples channels n i))
  = enc (getSample samples c (i + j)).
Proof.
  induction n as [|n IH]; intros i j c Hj Hc; [lia|].
  cbn [writeFrames]. destruct j as [|j].
  - cbn [Nat.mul Nat.add]. rewrite writeFrame_at by assumption.
    rewrite Nat.add_0_r. reflexivity.
  - replace ((S j * channels + c) * w)%nat
      with (channels * w + (j * channels + c) * w)%nat by lia.
    rewrite (firstn_skipn_block _ _ (channels * w)%nat
               (writeFrame_length i channels 0)).
    rewrite IH by lia. f_equal. f_equal. lia.
Qed.
End Frames.

(** *** A written sample, decoded *)

Lemma floatToPCM16_int16 v : -32768 <= floatToPCM16 v <= 32767.
Proof.
  unfold floatToPCM16.
  destruct (geb _ one); [lia|]. destruct (leb _ mone); [lia|].
  unfold int16_of_float64. destruct (truncZ _) as [n|]; [|lia].
  destruct ((- 2 ^ 31 <=? n) && (n <? 2 ^ 31)); [|lia].
  pose proof (Z.mod_pos_bound (n + 2 ^ 15) (2 ^ 16) ltac:(lia)). lia.
Qed.

Lemma decodePCM16_le_split z :
  -32768 <= z <= 32767 -> decodePCM16 (le_split 2 z) = pcm16ToFloat z.
Proof.
  intros Hz. unfold decodePCM16. f_equal.
  pose proof (le_combine_split 2 z) as H.
  change (le_split 2 z) with [byte.of_Z z; byte.of_Z (Z.shiftr z 8)] in H |- *.
  cbn [nth]. unfold sint16. rewrite <- BitFacts.le_combine_2, H.
  change (Z.of_nat 2 * 8) with 16.
  destruct (Z_lt_le_dec z 0) as [Hneg|Hpos].
  - replace (z mod 2 ^ 16) with (z + 2 ^ 16)
      by (apply Z.mod_unique with (-1); lia).
    replace (z + 2 ^ 16 <? 2 ^ 15) with false by (symmetry; apply Z.ltb_ge; lia).
    lia.
  - rewrite Z.mod_small by lia.
    replace (z <? 2 ^ 15) with true by (symmetry; apply Z.ltb_lt; lia).
    reflexivity.
Qed.

Lemma decodePCM16_written v :
  decodePCM16 (le_split 2 (floatToPCM16 v)) = pcm16RoundTrip v.
Proof. apply decodePCM16_le_split, floatToPCM16_int16. Qed.

Lemma decodeFloat32_written v :
  decodeFloat32 (le_split 4 (F32.bits (clampFloat32 v))) = float32RoundTrip v.
Proof.
  unfold decodeFloat32, float32RoundTrip. rewrite le_combine_split. reflexivity.
Qed.

(** The interleaved samples read back channel by channel. *)
Lemma decoded_written enc dec w g samples nch nfr :
  (forall v, List.length (enc v) = w) ->
  (forall v, dec (enc v) = g v) ->
  List.length samples = nch ->
  Forall (fun c => (nfr <= List.length c)%nat) samples ->
  decodedSamples dec w nch nfr (writeFrames enc samples nch nfr 0)
  = map (fun c => map g (firstn nfr c)) samples.
Proof.
  intros Henc Hdec Hlen Hall.
  apply (FrameFacts.shaped_ext nch nfr).
  - apply FrameFacts.shaped_decodedSamples.
  - split; [rewrite length_map; exact Hlen|].
    apply Forall_forall. intros c Hc. apply in_map_iff in Hc.
    destruct Hc as (c0 & <- & Hc0).
    rewrite Forall_forall in Hall. specialize (Hall c0 Hc0).
    rewrite length_map, length_firstn. lia.
  - intros ch i Hch Hi.
    rewrite FrameFacts.getSample_decodedSamples by assumption.
    unfold sampleAt. rewrite (writeFrames_at enc w Henc) by assumption.
    rewrite Hdec. cbn [Nat.add]. unfold getSample.
    rewrite (nth_indep (map (fun c => map g (firstn nfr c)) samples) []
               ((fun c => map g (firstn nfr c)) []))
      by (rewrite length_map; lia).
    rewrite (map_nth (fun c => map g (firstn nfr c)) samples [] ch).
    cbn beta.
    rewrite Forall_forall in Hall.
    assert (Hc : (nfr <= List.length (nth ch samples []))%nat)
      by (apply Hall, nth_In; lia).
    rewrite (nth_indep (map g (firstn nfr (nth ch samples []))) zero (g zero))
      by (rewrite length_map, length_firstn; lia).
    rewrite map_nth, nth_firstn.
    replace (i <? nfr)%nat with true by (symmetry; apply Nat.ltb_lt; assumption).
    reflexivity.
Qed.

(** *** The file a writer leaves *)

Lemma writeHeader_wavFile af nc sr br ba bits dataSize body :
  writeHeader af nc sr br ba bits dataSize ++ body
  = wavFile ((36 + dataSize) mod 2 ^ 32) []
            {| audioFormat := af; numChannels := nc; sampleRate := sr;
               byteRate := br; blockAlign := ba; bitsPerSample := bits |}
            [] [] dataSize body.
Proof.
  unfold writeHeader, wavFile, riffHeader, fmtBytes, dataHeader, chunksBytes.
  cbn [flat_map app List.length Z.of_nat audioFormat numChannels sampleRate
       byteRate blockAlign bitsPerSample].
  change (16 + 0) with 16.
  rewrite <- !app_assoc. reflexivity.
Qed.

Lemma writeHeader_length af nc sr br ba bits dataSize :
  List.length (writeHeader af nc sr br ba bits dataSize) = 44%nat.
Proof.
  unfold writeHeader, writeString.
  rewrite !length_app, !length_le_split. reflexivity.
Qed.

Lemma writable_nat data channels :
  writable data channels ->
  List.length (Samples data) = Z.to_nat channels /\
  Forall (fun c => (Z.to_nat (NumSamples data) <= List.length c)%nat)
         (Samples data).
Proof.
  intros (Hc & Hn & Hall). split; [lia|].
  eapply Forall_impl; [|exact Hall]. cbn beta. intros c Hc'. lia.
Qed.

(** Reading back what the PCM16 writer wrote. *)
Lemma readWAV_writeWAVPCM16 data channels :
  writable data channels ->
  0 <= SampleRate data < 2 ^ 32 -> 0 < channels < 2 ^ 15 ->
  NumSamples data * (2 * channels) < 2 ^ 32 ->
  exists bytes,
    writeWAVPCM16ToWriter data channels = Ok bytes /\
    Z.of_nat (List.length bytes) = 44 + 2 * channels * NumSamples data /\
    readWAV bytes channels = Ok (readBack pcm16RoundTrip data).
Proof.
  intros Hwr Hsr Hch Hsz.
  pose proof (proj2 (checkOutput_None data channels) Hwr) as Hck.
  destruct (writable_nat data channels Hwr) as [Hlen Hall].
  destruct Hwr as (_ & Hn & _).
  unfold writeWAVPCM16ToWriter. rewrite Hck. cbv zeta.
  change (16 / 8) with 2.
  rewrite (Z.mod_small channels) by lia.
  rewrite (Z.mod_small (channels * 2)) by lia.
  rewrite (Z.mod_small (NumSamples data)) by nia.
  rewrite (Z.mod_small (NumSamples data * (channels * 2))) by nia.
  eexists. split; [reflexivity|].
  set (payload := writeFrames (fun v => le_split 2 (floatToPCM16 v))
                              (Samples data) (Z.to_nat channels)
                              (Z.to_nat (NumSamples data)) 0).
  assert (Hpl : List.length payload
                = (Z.to_nat (NumSamples data) * (Z.to_nat channels * 2))%nat).
  { apply (writeFrames_length _ 2). intros v. apply length_le_split. }
  split.
  { rewrite length_app, Hpl, writeHeader_length.
    rewrite Nat2Z.inj_add, !Nat2Z.inj_mul, !Z2Nat.id by lia. lia. }
  rewrite writeHeader_wavFile.
  set (f := {| audioFormat := 1; numChannels := channels;
               sampleRate := SampleRate data;
               byteRate := (SampleRate data * (channels * 2)) mod 2 ^ 32;
               blockAlign := channels * 2; bitsPerSample := 16 |}).
  assert (Hwf : wfFormat f = true).
  { unfold wfFormat, f.
    cbn [audioFormat numChannels sampleRate byteRate blockAlign bitsPerSample].
    pose proof (Z.mod_pos_bound (SampleRate data * (channels * 2)) (2 ^ 32)
                  ltac:(lia)).
    repeat (apply andb_true_intro; split);
      first [apply Z.leb_le; lia | apply Z.ltb_lt; lia]. }
  unfold readWAV.
  change channels with (numChannels f) at 3.
  rewrite FrameFacts.readWAVWith_wavFile;
    [|exact Hwf|cbn; lia|reflexivity|reflexivity
     |split; [apply Z.mul_nonneg_nonneg; lia
             |replace (channels * 2) with (2 * channels) by lia; exact Hsz]].
  rewrite <- (app_nil_r payload).
  rewrite (FrameFacts.readData_decoded f 2 (NumSamples data));
    [|reflexivity|cbn; lia|cbn; lia|cbn; lia|assumption| |].
  - unfold readBack. f_equal. f_equal.
    change (decoderOf f) with decodePCM16. cbn [numChannels f].
    change (Z.to_nat 2) with 2%nat.
    apply (decoded_written _ decodePCM16 2 pcm16RoundTrip);
      [intros v; apply length_le_split|apply decodePCM16_written
      |assumption|assumption].
  - rewrite Hpl. cbn [numChannels f]. rewrite !Nat2Z.inj_mul, !Z2Nat.id by lia.
    reflexivity.
  - intros Hodd. exfalso.
    replace (NumSamples data * (channels * 2))
      with (NumSamples data * channels * 2) in Hodd by lia.
    rewrite Z.mod_mul in Hodd by lia. discriminate.
Qed.

(** Reading back what the float32 writer wrote. *)
Lemma readWAV_writeWAVFloat32 data channels :
  writable data channels ->
  0 <= SampleRate data < 2 ^ 32 -> 0 < channels < 2 ^ 14 ->
  NumSamples data * (4 * channels) < 2 ^ 32 ->
  exists bytes,
    writeWAVFloat32ToWriter data channels = Ok bytes /\
    Z.of_nat (List.length bytes) = 44 + 4 * channels * NumSamples data /\
    readWAV bytes channels = Ok (readBack float32RoundTrip data).
Proof.
  intros Hwr Hsr Hch Hsz.
  pose proof (proj2 (checkOutput_None data channels) Hwr) as Hck.
  destruct (writable_nat data channels Hwr) as [Hlen Hall].
  destruct Hwr as (_ & Hn & _).
  unfold writeWAVFloat32ToWriter. rewrite Hck. cbv zeta.
  change (32 / 8) with 4.
  rewrite (Z.mod_small channels) by lia.
  rewrite (Z.mod_small (channels * 4)) by lia.
  rewrite (Z.mod_small (NumSamples data)) by nia.
  rewrite (Z.mod_small (NumSamples data * channels * 4)) by nia.
  eexists. split; [reflexivity|].
  set (payload := writeFrames (fun v => le_split 4 (F32.bits (clampFloat32 v)))
                              (Samples data) (Z.to_nat channels)
                              (Z.to_nat (NumSamples data)) 0).
  assert (Hpl : List.length payload
                = (Z.to_nat (NumSamples data) * (Z.to_nat channels * 4))%nat).
  { apply (writeFrames_length _ 4). intros v. apply length_le_split. }
  split.
  { rewrite length_app, Hpl, writeHeader_length.
    rewrite Nat2Z.inj_add, !Nat2Z.inj_mul, !Z2Nat.id by lia. lia. }
  rewrite writeHeader_wavFile.
  set (f := {| audioFormat := 3; numChannels := channels;
               sampleRate := SampleRate data;
               byteRate := (SampleRate data * channels * 4) mod 2 ^ 32;
               blockAlign := channels * 4; bitsPerSample := 32 |}).
  assert (Hwf : wfFormat f = true).
  { unfold wfFormat, f.
    cbn [audioFormat numChannels sampleRate byteRate blockAlign bitsPerSample].
    pose proof (Z.mod_pos_bound (SampleRate data * channels * 4) (2 ^ 32)
                  ltac:(lia)).
    repeat (apply andb_true_intro; split);
      first [apply Z.leb_le; lia | apply Z.ltb_lt; lia]. }
  unfold readWAV.
  change channels with (numChannels f) at 3.
  rewrite FrameFacts.readWAVWith_wavFile;
    [|exact Hwf|cbn; lia|reflexivity|reflexivity
     |split; [apply Z.mul_nonneg_nonneg; [apply Z.mul_nonneg_nonneg|]; lia
             |replace (NumSamples data * channels * 4)
                with (NumSamples data * (4 * channels)) by lia; exact Hsz]].
  rewrite <- (app_nil_r payload).
  rewrite (FrameFacts.readData_decoded f 4 (NumSamples data));
    [|reflexivity|cbn; lia|cbn; lia|cbn; lia|assumption| |].
  - unfold readBack. f_equal. f_equal.
    change (decoderOf f) with decodeFloat32. cbn [numChannels f].
    change (Z.to_nat 4) with 4%nat.
    apply (decoded_written _ decodeFloat32 4 float32RoundTrip);
      [intros v; apply length_le_split|apply decodeFloat32_written
      |assumption|assumption].
  - rewrite Hpl. cbn [numChannels f]. rewrite !Nat2Z.inj_mul, !Z2Nat.id by lia.
    reflexivity.
  - intros Hodd. exfalso.
    replace (NumSamples data * channels * 4)
      with (NumSamples data * channels * 2 * 2) in Hodd by lia.
    rewrite Z.mod_mul in Hodd by lia. discriminate.
Qed.

Lemma Ok_inj {A} (a b : A) : Ok a = Ok b -> a = b.
Proof. intros H. injection H as H. exact H. Qed.

(** Reading what the PCM16 writer wrote with another channel count. *)
Lemma readWAV_written_other data channels e :
  writable data channels ->
  0 <= SampleRate data < 2 ^ 32 -> 0 < channels < 2 ^ 15 ->
  NumSamples data * (2 * channels) < 2 ^ 32 ->
  e <> channels ->
  forall bytes, writeWAVPCM16ToWriter data channels = Ok bytes ->
                readWAV bytes e = Err (ErrInputChannels e channels).
Proof.
  intros Hwr Hsr Hch Hsz Hne bytes.
  pose proof (proj2 (checkOutput_None data channels) Hwr) as Hck.
  destruct Hwr as (_ & Hn & _).
  unfold writeWAVPCM16ToWriter. rewrite Hck. cbv zeta.
  change (16 / 8) with 2.
  rewrite (Z.mod_small channels) by lia.
  rewrite (Z.mod_small (channels * 2)) by lia.
  rewrite (Z.mod_small (NumSamples data)) by nia.
  rewrite (Z.mod_small (NumSamples data * (channels * 2))) by nia.
  intros H. apply Ok_inj in H. subst bytes.
  rewrite writeHeader_wavFile.
  set (f := {| audioFormat := 1; numChannels := channels;
               sampleRate := SampleRate data;
               byteRate := (SampleRate data * (channels * 2)) mod 2 ^ 32;
               blockAlign := channels * 2; bitsPerSample := 16 |}).
  assert (Hwf : wfFormat f = true).
  { unfold wfFormat, f.
    cbn [audioFormat numChannels sampleRate byteRate blockAlign bitsPerSample].
    pose proof (Z.mod_pos_bound (SampleRate data * (channels * 2)) (2 ^ 32)
                  ltac:(lia)).
    repeat (apply andb_true_intro; split);
      first [apply Z.leb_le; lia | apply Z.ltb_lt; lia]. }
  unfold readWAV.
  rewrite FrameFacts.readWAVWith_wavFile;
    [|exact Hwf|cbn; lia|reflexivity|reflexivity
     |split; [apply Z.mul_nonneg_nonneg; lia
             |replace (channels * 2) with (2 * channels) by lia; exact Hsz]].
  unfold readData, fail. cbn [numChannels f].
  replace (channels =? e) with false by (symmetry; apply Z.eqb_neq; lia).
  reflexivity.
Qed.

End WriterFacts.

(* ------------------------------------------------------------------ *)
(** ** How far a written sample moves *)
(* ------------------------------------------------------------------ *)

Module RoundFacts.
Import F64 Wav WavFile F64Facts.

(** One stage of rounding, two-sided: the shifted and rounded
    mantissa is within one unit of the new exponent. *)
Lemma shr_fexp_near M e B :
  0 <= M -> e <= B - 53 -> -1074 <= B - 53 -> M < 2 ^ (B - e) ->
  forall r e1, shr_fexp 53 1024 M e loc_Exact = (r, e1) ->
  e <= e1 <= B - 53 /\
  shr_m r = M / 2 ^ (e1 - e) /\
  0 <= shr_m r < 2 ^ (B - e1) /\
  shr_m r <= round_nearest_even (shr_m r) (loc_of_shr_record r) <= shr_m r + 1.
Proof.
  intros HM He HB Hb r e1 Hs.
  unfold shr_fexp in Hs. cbn [shr_record_of_loc] in Hs.
  set (k := fexp 53 1024 (Zdigits2 M + e) - e) in *.
  destruct (shr_spec M e k HM) as (H1 & H2 & _).
  rewrite Hs in H1, H2. cbn [fst snd] in H1, H2.
  assert (Hd : Zdigits2 M <= B - e) by (apply Zdigits2_le; lia).
  assert (Hk : e + Z.max 0 k <= B - 53).
  { unfold k, fexp, emin. lia. }
  assert (He1 : e <= e1 <= B - 53) by lia.
  split; [exact He1|].
  replace (e1 - e) with (Z.max 0 k) by lia.
  split; [exact H2|].
  assert (Hpk : 0 < 2 ^ Z.max 0 k) by (apply pow2_pos; lia).
  split.
  - rewrite H2. split; [apply Z.div_pos; lia|].
    apply Z.div_lt_upper_bound; [lia|].
    rewrite <- pow2_split by lia.
    replace (Z.max 0 k + (B - e1)) with (B - e) by lia. exact Hb.
  - destruct (round_nearest_even_bounds (shr_m r) (loc_of_shr_record r))
      as [Hr _]. exact Hr.
Qed.

(** Rounding a magnitude below 2^15 to binary64 moves it by at most
    two units of an exponent that is at most -37. *)
Lemma binary_round_aux_near s M e :
  e <= -38 -> Zpos M < 2 ^ (15 - e) ->
  exists m2 e2,
    e <= e2 <= -37 /\ 0 <= m2 /\
    Z.abs (m2 * 2 ^ (e2 - e) - Zpos M) <= 2 * 2 ^ (e2 - e) /\
    binary_round_aux 53 1024 s (Zpos M) e loc_Exact
    = match m2 with Zpos p => S754_finite s p e2 | _ => S754_zero s end.
Proof.
  intros He Hb. unfold binary_round_aux.
  destruct (shr_fexp 53 1024 (Zpos M) e loc_Exact) as [r1 e1] eqn:E1.
  destruct (shr_fexp_near (Zpos M) e 15 ltac:(lia) ltac:(lia) ltac:(lia) Hb
              r1 e1 E1) as (He1 & Hq1 & Hb1 & Hr1).

  set (m1 := round_nearest_even (shr_m r1) (loc_of_shr_record r1)) in *.
  destruct (shr_fexp 53 1024 m1 e1 loc_Exact) as [r2 e2] eqn:E2.
  assert (Hm1 : m1 < 2 ^ (16 - e1)).
  { replace (16 - e1) with (1 + (15 - e1)) by lia.
    rewrite pow2_split by lia. change (2 ^ 1) with 2.
    assert (0 < 2 ^ (15 - e1)) by (apply pow2_pos; lia). lia. }
  destruct (shr_fexp_near m1 e1 16 ltac:(lia) ltac:(lia) ltac:(lia) Hm1
              r2 e2 E2) as (He2 & Hq2 & Hb2 & _).
  exists (shr_m r2), e2.
  split; [lia|]. split; [lia|]. split.
  - set (K1 := e1 - e) in *. set (K2 := e2 - e1) in *.
    replace (e2 - e) with (K2 + K1) by (unfold K1, K2; lia).
    assert (HK1 : 0 <= K1) by (unfold K1; lia).
    assert (HK2 : 0 <= K2) by (unfold K2; lia).
    rewrite pow2_split by lia.
    assert (P1 : 0 < 2 ^ K1) by (apply pow2_pos; lia).
    assert (P2 : 0 < 2 ^ K2) by (apply pow2_pos; lia).
    pose proof (Z.div_mod (Zpos M) (2 ^ K1) ltac:(lia)) as D1.
    pose proof (Z.mod_pos_bound (Zpos M) (2 ^ K1) P1) as B1.
    pose proof (Z.div_mod m1 (2 ^ K2) ltac:(lia)) as D2.
    pose proof (Z.mod_pos_bound m1 (2 ^ K2) P2) as B2.
    rewrite <- Hq1 in D1. rewrite <- Hq2 in D2.
    set (q1 := shr_m r1) in *. set (q2 := shr_m r2) in *.
    set (a := 2 ^ K1) in *. set (b := 2 ^ K2) in *.
    set (r := Zpos M mod a) in *. set (t := m1 mod b) in *.
    assert (E : q2 * (b * a) - Zpos M = (m1 - q1) * a - t * a - r) by nia.
    rewrite E. apply Z.abs_le. split; nia.
  - destruct (shr_m r2) as [|p|p]; [reflexivity| |lia].
    replace (e2 <=? 1024 - 53) with true by (symmetry; apply Z.leb_le; lia).
    reflexivity.
Qed.

Lemma near_int m2 mv T A B c :
  0 < A -> 0 < B -> 0 < T -> 0 < c -> T * A = B * c ->
  Z.abs (m2 * T - mv * (32767 * c)) <= 2 * T ->
  Z.abs (m2 * B - 32767 * mv * A) <= 2 * B.
Proof.
  intros HA HB HT Hc Hprod Habs.
  assert (E : (m2 * B - 32767 * mv * A) * c
              = A * (m2 * T - mv * (32767 * c))).
  { rewrite Z.mul_sub_distr_r.
    replace (m2 * B * c) with (m2 * (B * c)) by ring.
    rewrite <- Hprod. ring. }
  apply Z.abs_le in Habs. destruct Habs as [Hlo Hhi].
  set (D := m2 * B - 32767 * mv * A) in *.
  set (X := m2 * T - mv * (32767 * c)) in *.
  assert (H1 : A * X <= A * (2 * T)) by (apply Z.mul_le_mono_nonneg_l; lia).
  assert (H2 : A * (- (2 * T)) <= A * X) by (apply Z.mul_le_mono_nonneg_l; lia).
  assert (H3 : A * (2 * T) = 2 * B * c) by (rewrite <- Z.mul_assoc, <- Hprod; ring).
  apply Z.abs_le. split.
  - apply (Z.mul_le_mono_pos_r _ _ c Hc). rewrite E. 
    replace (- (2 * B) * c) with (A * (- (2 * T))) by (rewrite Z.mul_opp_r, H3; ring).
    exact H2.
  - apply (Z.mul_le_mono_pos_r _ _ c Hc). rewrite E, <- H3. exact H1.
Qed.

Lemma toQ_round_result s m2 e2 :
  e2 < 0 -> 0 <= m2 ->
  toQ (match m2 with Zpos p => S754_finite s p e2 | _ => S754_zero s end)
  = (if m2 =? 0 then 0%Q
     else Qmake (cond_Zopp s m2) (Z.to_pos (2 ^ (- e2)))).
Proof.
  intros He Hm. destruct m2 as [|p|p]; [reflexivity| |lia].
  cbn [Z.eqb]. apply toQ_neg_exp. exact He.
Qed.

(** The float64 product [v * 32767.0], for [|v| < 1], against the
    exact product. *)
Lemma mul_32767_near s m e :
  e <= -53 -> Zpos m < 2 ^ 53 ->
  (Qabs (toQ (mul (S754_finite s m e) (of_Z 32767))
         - inject_Z 32767 * toQ (S754_finite s m e)) <= 1 # 1073741824)%Q.
Proof.
  intros He Hm. rewrite ConvFacts.of_Z_32767. unfold mul, prec, emax. cbn [SFmul].
  rewrite xorb_false_r.
  assert (Hpe : 2 ^ 53 <= 2 ^ (- e)) by (apply Z.pow_le_mono_r; lia).
  assert (Hb : Zpos (m * 9006924376834048) < 2 ^ (15 - (e + -38))).
  { rewrite Pos2Z.inj_mul.
    replace (15 - (e + -38)) with (53 + - e) by lia.
    rewrite pow2_split by lia.
    apply Z.le_lt_trans with (Zpos m * 2 ^ 53).
    - apply Z.mul_le_mono_nonneg_l; lia.
    - rewrite (Z.mul_comm (2 ^ 53)).
      apply Z.mul_lt_mono_pos_r; lia. }
  destruct (binary_round_aux_near s (m * 9006924376834048) (e + -38)
              ltac:(lia) Hb) as (m2 & e2 & He2 & Hm2 & Habs & ->).
  rewrite toQ_round_result by lia.
  rewrite (toQ_neg_exp s m e) by lia.
  set (A := 2 ^ (- e2)). set (B := 2 ^ (- e)).
  set (T := 2 ^ (e2 - (e + -38))) in *.
  assert (HA : 0 < A) by (apply pow2_pos; lia).
  assert (HB : 0 < B) by (apply pow2_pos; lia).
  assert (HT : 0 < T) by (apply pow2_pos; lia).
  assert (HA37 : 2 ^ 37 <= A) by (apply Z.pow_le_mono_r; lia).
  assert (Hprod : T * A = B * 2 ^ 38).
  { unfold T, A, B. rewrite <- !pow2_split by lia. f_equal. lia. }
  rewrite Pos2Z.inj_mul in Habs.
  change (Zpos 9006924376834048) with (32767 * 2 ^ 38) in Habs.
  pose proof (near_int m2 (Zpos m) T A B (2 ^ 38) HA HB HT
                ltac:(apply pow2_pos; lia) Hprod Habs) as HD.
  apply Z.abs_le in HD. destruct HD as [HD1 HD2].
  apply Qabs_Qle_condition.
  destruct (Z.eqb_spec m2 0) as [->|Hne];
    unfold Qle, Qminus, Qplus, Qmult, Qopp, inject_Z; cbn [Qnum Qden];
    rewrite ?Pos2Z.inj_mul, ?Zpos_to_pos_pow2 by lia;
    fold A B; destruct s; cbn [cond_Zopp]; split; nia.
Qed.

Lemma toQ_abs_lt_one s m e :
  e <= -53 -> Zpos m < 2 ^ 53 ->
  (- (1) <= toQ (S754_finite s m e) <= 1)%Q.
Proof.
  intros He Hm. rewrite toQ_neg_exp by lia.
  assert (Hpe : 2 ^ 53 <= 2 ^ (- e)) by (apply Z.pow_le_mono_r; lia).
  unfold Qle. cbn [Qnum Qden Qopp].
  rewrite Zpos_to_pos_pow2 by lia.
  destruct s; cbn [cond_Zopp]; lia.
Qed.

(** A sample strictly inside (-1, 1), written as PCM16 and read
    back, against the sample. *)
Lemma pcm16RoundTrip_near s m e :
  valid (S754_finite s m e) = true ->
  geb (S754_finite s m e) one = false ->
  leb (S754_finite s m e) mone = false ->
  (Qabs (toQ (pcm16RoundTrip (S754_finite s m e)) - toQ (S754_finite s m e))
   <= 1 # 16384)%Q.
Proof.
  intros Hv Hge Hle.
  destruct (abs_lt_one s m e Hv Hge Hle) as [He Hm].
  destruct (ConvFacts.floatToPCM16_inner s m e Hv Hge Hle) as [Hn Hhalf].
  pose proof (mul_32767_near s m e He Hm) as Hmul.
  pose proof (toQ_abs_lt_one s m e He Hm) as [Hx1 Hx2].
  unfold pcm16RoundTrip, floatToPCM16. cbn [IsNaN IsInf orb].
  rewrite Hge, Hle.
  set (f := mul (S754_finite s m e) (of_Z 32767)) in *.
  set (n := int16_of_float64 (Round f)) in *.
  destruct (ConvFacts.pcm16ToFloat_exact n ltac:(lia)) as (_ & _ & Hy).
  rewrite Hy, Qmake_Qdiv.
  apply Qabs_Qle_condition in Hhalf, Hmul.
  apply Qabs_Qle_condition.
  change (inject_Z 32767) with (32767 # 1)%Q in Hmul.
  change (inject_Z (Zpos 32768)) with (32768 # 1)%Q.
  set (x := toQ (S754_finite s m e)) in *.
  set (y := toQ f) in *. set (z := inject_Z n) in *.
  clearbody x y z. unfold Qdiv. change (/ (32768 # 1))%Q with (1 # 32768)%Q.
  split; lra.
Qed.

(** *** A sample read and written again *)

Lemma ge_one_toQ x :
  valid x = true -> is_finite x = true -> geb x one = true -> (1 <= toQ x)%Q.
Proof.
  intros Hv Hf Hge. rewrite one_eq in Hge.
  destruct x as [s|s| |s m e]; try destruct s; try discriminate.
  destruct (valid_finite false m e Hv) as (Hm & He & Hn).
  unfold geb, SFleb, SFcompare in Hge.
  change (Pos.compare_cont Eq) with Pos.compare in Hge.
  rewrite Pos2Z.inj_compare in Hge.
  destruct (Z.compare_spec (-52) e) as [E|E|E]; try discriminate.
  - subst e. specialize (Hn ltac:(lia)).
    rewrite toQ_neg_exp by lia. unfold Qle. cbn [Qnum Qden cond_Zopp].
    rewrite Zpos_to_pos_pow2 by lia. change (- -52) with 52. lia.
  - specialize (Hn ltac:(lia)).
    destruct e as [|k|k]; cbn [toQ cond_Zopp]; unfold Qle;
      cbn [Qnum Qden inject_Z].
    + lia.
    + assert (0 < 2 ^ Zpos k) by (apply pow2_pos; lia). nia.
    + rewrite Pos2Z.inj_pow.
      assert (2 ^ Zpos k <= 2 ^ 51) by (apply Z.pow_le_mono_r; lia). lia.
Qed.

Lemma le_mone_toQ x :
  valid x = true -> is_finite x = true -> leb x mone = true ->
  (toQ x <= - (1))%Q.
Proof.
  intros Hv Hf Hle. rewrite mone_eq in Hle.
  destruct x as [s|s| |s m e]; try destruct s; try discriminate.
  destruct (valid_finite true m e Hv) as (Hm & He & Hn).
  unfold leb, SFleb, SFcompare in Hle.
  change (Pos.compare_cont Eq) with Pos.compare in Hle.
  rewrite Pos2Z.inj_compare in Hle.
  destruct (Z.compare_spec e (-52)) as [E|E|E]; try discriminate.
  - subst e. specialize (Hn ltac:(lia)).
    rewrite toQ_neg_exp by lia. unfold Qle. cbn [Qnum Qden cond_Zopp Qopp].
    rewrite Zpos_to_pos_pow2 by lia. change (- -52) with 52. lia.
  - specialize (Hn ltac:(lia)).
    destruct e as [|k|k]; cbn [toQ cond_Zopp]; unfold Qle;
      cbn [Qnum Qden inject_Z Qopp].
    + lia.
    + assert (0 < 2 ^ Zpos k) by (apply pow2_pos; lia). nia.
    + rewrite Pos2Z.inj_pow.
      assert (2 ^ Zpos k <= 2 ^ 51) by (apply Z.pow_le_mono_r; lia). lia.
Qed.

Lemma Qdiff_int (a b : Z) :
  (- (1) < inject_Z a - inject_Z b)%Q -> (inject_Z a - inject_Z b < 1)%Q ->
  a = b.
Proof.
  unfold Qlt, Qminus, Qplus, Qopp, inject_Z. cbn [Qnum Qden]. lia.
Qed.

(** The four ranges of a sample that is not 0, not at half scale and
    not -32768. *)
Lemma reencode_inner n :
  -32767 <= n <= 32767 -> n <> 0 -> n <> 16384 -> n <> -16384 ->
  floatToPCM16 (pcm16ToFloat n) = reencoded n.
Proof.
  intros Hn H0 H1 H2.
  destruct (ConvFacts.pcm16ToFloat_exact n ltac:(lia)) as (Hf & Hv & Hq).
  set (v := pcm16ToFloat n) in *.
  assert (Hge : geb v one = false).
  { destruct (geb v one) eqn:E; [|reflexivity].
    pose proof (ge_one_toQ v Hv Hf E) as H. rewrite Hq in H.
    unfold Qle in H. cbn [Qnum Qden] in H. lia. }
  assert (Hle : leb v mone = false).
  { destruct (leb v mone) eqn:E; [|reflexivity].
    pose proof (le_mone_toQ v Hv Hf E) as H. rewrite Hq in H.
    unfold Qle in H. cbn [Qnum Qden Qopp] in H. lia. }
  destruct v as [s|s| |s m e] eqn:Ev; try discriminate.
  { exfalso. unfold Qeq in Hq. cbn [toQ Qnum Qden] in Hq. lia. }
  destruct (abs_lt_one s m e Hv Hge Hle) as [He Hm].
  destruct (ConvFacts.floatToPCM16_inner s m e Hv Hge Hle) as [Hn' Hhalf].
  pose proof (mul_32767_near s m e He Hm) as Hmul.
  unfold floatToPCM16. cbn [IsNaN IsInf orb]. rewrite Hge, Hle.
  set (f := mul (S754_finite s m e) (of_Z 32767)) in *.
  set (n' := int16_of_float64 (Round f)) in *.
  rewrite Qmake_Qdiv in Hq. unfold Qdiv in Hq.
  change (/ inject_Z (Zpos 32768))%Q with (1 # 32768)%Q in Hq.
  apply Qabs_Qle_condition in Hhalf, Hmul.
  change (inject_Z 32767) with (32767 # 1)%Q in Hmul.
  set (x := toQ (S754_finite s m e)) in *.
  set (y := toQ f) in *.
  unfold reencoded.
  replace (n =? -32768) with false by (symmetry; apply Z.eqb_neq; lia).
  cbn [orb].
  destruct (Z.leb_spec (Z.abs n) 16384) as [Hs|Hs].
  - (* below half scale: unchanged *)
    assert (Hq1 : (inject_Z (-16383) <= inject_Z n)%Q)
      by (rewrite <- Zle_Qle; lia).
    assert (Hq2 : (inject_Z n <= inject_Z 16383)%Q)
      by (rewrite <- Zle_Qle; lia).
    change (inject_Z (-16383)) with (-16383 # 1)%Q in Hq1.
    change (inject_Z 16383) with (16383 # 1)%Q in Hq2.
    apply Qdiff_int;
      set (a := inject_Z n') in *; set (b := inject_Z n) in *;
      clearbody x y a b; lra.
  - destruct (Z_lt_le_dec 0 n) as [Hpos|Hneg].
    + (* above half scale: one step down *)
      rewrite Z.sgn_pos by lia.
      assert (Hq1 : (inject_Z 16385 <= inject_Z n)%Q)
        by (rewrite <- Zle_Qle; lia).
      assert (Hq2 : (inject_Z n <= inject_Z 32767)%Q)
        by (rewrite <- Zle_Qle; lia).
      change (inject_Z 16385) with (16385 # 1)%Q in Hq1.
      change (inject_Z 32767) with (32767 # 1)%Q in Hq2.
      assert (Hb : (inject_Z (n - 1) == inject_Z n - (1 # 1))%Q).
      { unfold Qeq, Qminus, Qplus, Qopp, inject_Z. cbn [Qnum Qden]. lia. }
      apply Qdiff_int; rewrite Hb;
        set (a := inject_Z n') in *; set (b := inject_Z n) in *;
        clearbody x y a b; lra.
    + (* below minus half scale: one step up *)
      rewrite Z.sgn_neg by lia.
      assert (Hq1 : (inject_Z (-32767) <= inject_Z n)%Q)
        by (rewrite <- Zle_Qle; lia).
      assert (Hq2 : (inject_Z n <= inject_Z (-16385))%Q)
        by (rewrite <- Zle_Qle; lia).
      change (inject_Z (-32767)) with (-32767 # 1)%Q in Hq1.
      change (inject_Z (-16385)) with (-16385 # 1)%Q in Hq2.
      assert (Hb : (inject_Z (n - -1) == inject_Z n + (1 # 1))%Q).
      { unfold Qeq, Qminus, Qplus, Qopp, inject_Z. cbn [Qnum Qden]. lia. }
      apply Qdiff_int; rewrite Hb;
        set (a := inject_Z n') in *; set (b := inject_Z n) in *;
        clearbody x y a b; lra.
Qed.

(** *** Ties *)

(** [round_half_up] resolves a tie upwards. *)
Lemma round_half_up_tie m k :
  0 <= m -> 0 < k ->
  2 * Z.abs (round_half_up m k * 2 ^ k - m) = 2 ^ k ->
  m < round_half_up m k * 2 ^ k.
Proof.
  intros Hm Hk. unfold round_half_up.
  assert (Hp : 0 < 2 ^ k) by (apply pow2_pos; lia).
  pose proof (Z.div_mod m (2 ^ k) ltac:(lia)) as Hdm.
  pose proof (Z.mod_pos_bound m (2 ^ k) Hp) as Hmb.
  destruct (Z.leb_spec (2 ^ k) (2 * (m mod 2 ^ k))) as [H|H]; intros Ht; nia.
Qed.

(** [int16(math.Round(x))] at a tie: the integer of the larger
    magnitude. *)
Lemma int16_Round_tie s m e N :
  e <= 0 -> 0 < N <= 32767 -> Zpos m <= N * 2 ^ (- e) ->
  (Qabs (inject_Z (int16_of_float64 (Round (S754_finite s m e)))
         - toQ (S754_finite s m e)) == 1 # 2)%Q ->
  (Qabs (toQ (S754_finite s m e))
   < Qabs (inject_Z (int16_of_float64 (Round (S754_finite s m e)))))%Q.
Proof.
  intros He HN Hb.
  destruct (Z.eq_dec e 0) as [->|Hne].
  - change (2 ^ (- 0)) with 1 in Hb.
    rewrite (ConvFacts.int16_of_float64_trunc _ (cond_Zopp s (Zpos m))).
    + cbn [toQ]. unfold Qminus, Qplus, Qopp, Qabs, Qeq, Qlt, inject_Z.
      cbn [Qnum Qden]. destruct s; cbn [cond_Zopp]; lia.
    + rewrite (truncZ_Round s m 0 (Zpos m)); [reflexivity|cbn; lia|lia].
    + destruct s; cbn [cond_Zopp]; lia.
  - destruct (round_half_up_spec (Zpos m) (- e) N ltac:(lia) ltac:(lia)
                ltac:(lia) Hb) as [Hr Hn].
    pose proof (round_half_up_tie (Zpos m) (- e) ltac:(lia) ltac:(lia)) as Ht.
    set (n := round_half_up (Zpos m) (- e)) in *.
    assert (Htr : truncZ (Round (S754_finite s m e)) = Some (cond_Zopp s n)).
    { apply truncZ_Round; [|lia].
      replace (0 <=? e) with false by (symmetry; apply Z.leb_gt; lia).
      reflexivity. }
    rewrite (ConvFacts.int16_of_float64_trunc _ _ Htr)
      by (destruct s; cbn [cond_Zopp]; lia).
    rewrite toQ_neg_exp by lia.
    assert (Hp : 0 < 2 ^ (- e)) by (apply pow2_pos; lia).
    unfold Qminus, Qplus, Qopp, Qabs, Qeq, Qlt, inject_Z. cbn [Qnum Qden].
    rewrite Pos.mul_1_l, Zpos_to_pos_pow2 by lia.
    destruct s; cbn [cond_Zopp]; intros Hq; nia.
Qed.

(** The conversion inside (-1, 1): the float64 product is within
    2^-30 of the exact one; the result is an integer nearest to the
    float64 product, and at a tie the one away from zero. *)
Lemma floatToPCM16_inner_exact s m e :
  valid (S754_finite s m e) = true ->
  geb (S754_finite s m e) one = false ->
  leb (S754_finite s m e) mone = false ->
  let p := toQ (mul (S754_finite s m e) (of_Z 32767)) in
  let n := int16_of_float64 (Round (mul (S754_finite s m e) (of_Z 32767))) in
  -32767 <= n <= 32767 /\
  (Qabs (p - inject_Z 32767 * toQ (S754_finite s m e)) <= 1 # 1073741824)%Q /\
  (Qabs (inject_Z n - p) <= 1 # 2)%Q /\
  ((Qabs (inject_Z n - p) == 1 # 2)%Q -> (Qabs p < Qabs (inject_Z n))%Q).
Proof.
  intros Hv Hge Hle p n.
  destruct (abs_lt_one s m e Hv Hge Hle) as [He Hm].
  destruct (ConvFacts.floatToPCM16_inner s m e Hv Hge Hle) as [Hn Hhalf].
  split; [exact Hn|]. split; [exact (mul_32767_near s m e He Hm)|].
  split; [exact Hhalf|].
  unfold p, n. clear p n Hn Hhalf.
  rewrite ConvFacts.of_Z_32767. unfold mul, prec, emax. cbn [SFmul].
  assert (Hb : Zpos (m * 9006924376834048) <= 32767 * 2 ^ (- (e + -38))).
  { rewrite Pos2Z.inj_mul.
    replace (- (e + -38)) with (38 + - e) by lia.
    rewrite pow2_split by lia.
    assert (2 ^ 53 <= 2 ^ (- e)) by (apply Z.pow_le_mono_r; lia).
    change (Zpos 9006924376834048) with (32767 * 2 ^ 38).
    assert (0 < 2 ^ 38) by (apply pow2_pos; lia).
    nia. }
  pose proof (binary_round_aux_bound (xorb s false) (m * 9006924376834048)
                (e + -38) 32767 ltac:(lia) ltac:(split; [lia|reflexivity]) Hb)
    as Hr.
  destruct (binary_round_aux 53 1024 (xorb s false)
              (Zpos (m * 9006924376834048)) (e + -38) loc_Exact)
    as [s'|s'| |s' m' e']; try contradiction.
  - intros H. exfalso. revert H. cbn.
    unfold Qeq. cbn. discriminate.
  - destruct Hr as (_ & He' & Hm').
    apply (int16_Round_tie s' m' e' 32767); [assumption|lia|assumption].
Qed.

End RoundFacts.

(* ------------------------------------------------------------------ *)
(** ** float32 and the samples it holds exactly *)
(* ------------------------------------------------------------------ *)

Module F32Facts.
Import F64 Wav WavFile F64Facts.

Lemma digits_of_bounds p k :
  1 <= k -> 2 ^ (k - 1) <= Zpos p < 2 ^ k -> Zpos (digits2_pos p) = k.
Proof.
  intros Hk [Hlo Hhi].
  pose proof (digits2_pos_bounds p) as [Dlo Dhi].
  set (d := Zpos (digits2_pos p)) in *.
  assert (Hd : 1 <= d) by (unfold d; lia).
  destruct (Z.lt_trichotomy d k) as [H|[H|H]]; [|exact H|].
  - assert (2 ^ d <= 2 ^ (k - 1)) by (apply Z.pow_le_mono_r; lia). lia.
  - assert (2 ^ k <= 2 ^ (d - 1)) by (apply Z.pow_le_mono_r; lia). lia.
Qed.

(** Rounding that only drops [k] zero bits. *)
Lemma binary_round_aux_exact prec emax s M e k q :
  0 <= k -> Zpos M = Zpos q * 2 ^ k ->
  fexp prec emax (Zdigits2 (Zpos M) + e) - e = k ->
  fexp prec emax (Zdigits2 (Zpos q) + (e + k)) - (e + k) <= 0 ->
  e + k <= emax - prec ->
  binary_round_aux prec emax s (Zpos M) e loc_Exact = S754_finite s q (e + k).
Proof.
  intros Hk HM Hk1 Hk2 He.
  unfold binary_round_aux, shr_fexp. rewrite Hk1.
  cbn [shr_record_of_loc].
  destruct (shr_spec (Zpos M) e k ltac:(lia)) as (H1 & H2 & H3).
  destruct (shr {| shr_m := Zpos M; shr_r := false; shr_s := false |} e k)
    as [r1 e1].
  cbn [fst snd] in H1, H2, H3.
  rewrite Z.max_r in H1, H2, H3 by lia.
  rewrite HM, Z.div_mul in H2 by (apply Z.pow_nonzero; lia).
  rewrite HM, Z.mod_mul in H3 by (apply Z.pow_nonzero; lia).
  rewrite (proj2 H3 eq_refl), H2. cbn [round_nearest_even].
  subst e1.
  destruct (fexp prec emax (Zdigits2 (Zpos q) + (e + k)) - (e + k))
    as [|p|p]; [| lia |]; cbn [shr shr_m];
    (replace (e + k <=? emax - prec) with true
       by (symmetry; apply Z.leb_le; lia)); reflexivity.
Qed.

(** [float32(v)] for a float64 whose low 29 mantissa bits are zero. *)
Lemma of_float64_exact s m e q :
  Zpos (digits2_pos m) = 53 -> Zpos m = Zpos q * 2 ^ 29 ->
  -178 <= e <= 75 ->
  F32.of_float64 (S754_finite s m e) = S754_finite s q (e + 29).
Proof.
  intros Hd Hm He.
  assert (Hq : Zpos (digits2_pos q) = 24).
  { pose proof (digits2_pos_bounds m) as Hb. rewrite Hd in Hb.
    apply digits_of_bounds; [lia|].
    change (2 ^ (53 - 1)) with (2 ^ 23 * 2 ^ 29) in Hb.
    change (2 ^ 53) with (2 ^ 24 * 2 ^ 29) in Hb.
    change (2 ^ (24 - 1)) with (2 ^ 23). lia. }
  assert (E : binary_round F32.prec F32.emax s m e = S754_finite s q (e + 29)).
  { unfold binary_round, shl_align, F32.prec, F32.emax. rewrite Hd.
    replace (fexp 24 128 (53 + e)) with (e + 29) by (unfold fexp, emin; lia).
    replace (e + 29 - e) with 29 by lia. cbv iota beta.
    apply binary_round_aux_exact.
    - lia.
    - exact Hm.
    - cbn [Zdigits2]. rewrite Hd. unfold fexp, emin. lia.
    - cbn [Zdigits2]. rewrite Hq. unfold fexp, emin. lia.
    - lia. }
  unfold F32.of_float64. destruct s; cbn [cond_Zopp Z.opp binary_normalize];
    exact E.
Qed.

(** [float64(v)] for a normal float32. *)
Lemma to_float64_exact s m e q :
  Zpos (digits2_pos q) = 24 -> Zpos m = Zpos q * 2 ^ 29 ->
  -1045 <= e <= 1000 ->
  F32.to_float64 (S754_finite s q e) = S754_finite s m (e - 29).
Proof.
  intros Hq Hm He.
  assert (E : binary_round 53 1024 s q e = S754_finite s m (e - 29)).
  { destruct (binary_round_normal s q e ltac:(lia) ltac:(lia))
      as (m' & E & Hm' & _).
    rewrite E. rewrite Hq in Hm' |- *.
    change (53 - 24) with 29 in Hm'.
    assert (m' = m) by (apply Pos2Z.inj; lia). subst m'.
    f_equal. lia. }
  unfold F32.to_float64, prec, emax.
  destruct s; cbn [cond_Zopp Z.opp binary_normalize]; exact E.
Qed.

(** [Float32frombits(Float32bits(v))] for a normal float32. *)
Lemma frombits_bits s q e :
  2 ^ 23 <= Zpos q < 2 ^ 24 -> -149 <= e <= 104 ->
  F32.frombits (F32.bits (S754_finite s q e) mod 2 ^ 32) = S754_finite s q e.
Proof.
  intros Hq He. unfold F32.bits.
  replace (Zpos q <? 2 ^ 23) with false by (symmetry; apply Z.ltb_ge; lia).
  set (sg := if s then 2 ^ 31 else 0).
  set (b := sg + (e + 150) * 2 ^ 23 + (Zpos q - 2 ^ 23)).
  assert (Hsg : sg = (if s then 1 else 0) * 2 ^ 31) by (unfold sg; destruct s; lia).
  assert (Hb : 0 <= b < 2 ^ 32) by (unfold b; destruct s; lia).
  rewrite Z.mod_small by exact Hb.
  assert (H31 : b / 2 ^ 31 = if s then 1 else 0).
  { symmetry. apply Z.div_unique with ((e + 150) * 2 ^ 23 + (Zpos q - 2 ^ 23));
      [left; lia|unfold b; destruct s; lia]. }
  assert (H23 : b / 2 ^ 23 = (if s then 1 else 0) * 2 ^ 8 + (e + 150)).
  { symmetry. apply Z.div_unique with (Zpos q - 2 ^ 23);
      [left; lia|unfold b; destruct s; lia]. }
  assert (Hm : b mod 2 ^ 23 = Zpos q - 2 ^ 23).
  { symmetry.
    apply Z.mod_unique with ((if s then 1 else 0) * 2 ^ 8 + (e + 150));
      [left; lia|unfold b; destruct s; lia]. }
  assert (Hexp : (b / 2 ^ 23) mod 2 ^ 8 = e + 150).
  { rewrite H23. symmetry.
    apply Z.mod_unique with (if s then 1 else 0); [left; lia|lia]. }
  assert (Hs : Z.testbit b 31 = s).
  { rewrite Z.testbit_odd, Z.shiftr_div_pow2, H31 by lia.
    destruct s; reflexivity. }
  unfold F32.frombits. rewrite Hs, Hexp, Hm.
  replace (e + 150 =? 255) with false by (symmetry; apply Z.eqb_neq; lia).
  replace (e + 150 =? 0) with false by (symmetry; apply Z.eqb_neq; lia).
  replace (Zpos q - 2 ^ 23 + 2 ^ 23) with (Zpos q) by lia.
  f_equal. lia.
Qed.

(** A float64 of magnitude below one against 1.0 and -1.0. *)
Lemma small_cmp s m e :
  e <= -53 ->
  gtb (S754_finite s m e) one = false /\ ltb (S754_finite s m e) mone = false.
Proof.
  intros He. rewrite one_eq, mone_eq. unfold gtb, ltb, SFltb, SFcompare.
  destruct s.
  - split; [reflexivity|].
    destruct (Z.compare_spec e (-52)) as [E|E|E]; reflexivity || lia.
  - split; [|reflexivity].
    destruct (Z.compare_spec (-52) e) as [E|E|E]; reflexivity || lia.
Qed.

(** A float64 of magnitude below one with at most 24 significant
    bits passes the float32 writer and reader unchanged. *)
Lemma float32RoundTrip_exact s m e q :
  Zpos (digits2_pos m) = 53 -> Zpos m = Zpos q * 2 ^ 29 ->
  -178 <= e <= -53 ->
  float32RoundTrip (S754_finite s m e) = S754_finite s m e.
Proof.
  intros Hd Hm He.
  destruct (small_cmp s m e ltac:(lia)) as [Hgt Hlt].
  assert (Hqb : 2 ^ 23 <= Zpos q < 2 ^ 24).
  { pose proof (digits2_pos_bounds m) as Hb. rewrite Hd in Hb.
    change (2 ^ (53 - 1)) with (2 ^ 23 * 2 ^ 29) in Hb.
    change (2 ^ 53) with (2 ^ 24 * 2 ^ 29) in Hb. lia. }
  assert (Hq : Zpos (digits2_pos q) = 24)
    by (apply digits_of_bounds; [lia|exact Hqb]).
  unfold float32RoundTrip, clampFloat32. rewrite Hgt, Hlt.
  cbn [IsNaN IsInf orb].
  rewrite (of_float64_exact s m e q Hd Hm) by lia.
  rewrite frombits_bits by (assumption || lia).
  unfold float32ToFloat.
  rewrite (to_float64_exact s m (e + 29) q Hq Hm) by lia.
  replace (e + 29 - 29) with e by lia.
  cbn [IsNaN IsInf orb]. rewrite Hgt, Hlt. reflexivity.
Qed.

Lemma Zdigits2_abs_le n k : 0 <= k -> Z.abs n < 2 ^ k -> Zdigits2 n <= k.
Proof.
  intros Hk Hn. destruct n as [|p|p]; cbn [Zdigits2 Z.abs] in *; [lia| |];
    apply (Zdigits2_le (Zpos p) k Hk); lia.
Qed.

(** The float64 quotient of a non-zero integer of at most 24 bits by
    a power of two above it. *)
Lemma div_repr n b k :
  of_Z b = S754_finite false 4503599627370496 (k - 52) ->
  1 <= k <= 64 -> n <> 0 -> Z.abs n < 2 ^ 24 -> Z.abs n < 2 ^ k ->
  exists m q e,
    div (of_Z n) (of_Z b) = S754_finite (n <? 0) m e /\
    Zpos (digits2_pos m) = 53 /\ Zpos m = Zpos q * 2 ^ 29 /\
    -178 <= e <= -53.
Proof.
  intros Hb Hk Hz H24 Hnk.
  destruct (binary_normalize_int n false Hz ltac:(lia)) as (m & E & Hm & Hdm & Hd).
  set (d := Zdigits2 n) in *.
  assert (Hd24 : d <= 24) by (apply Zdigits2_abs_le; lia).
  assert (Hdk : d <= k) by (apply Zdigits2_abs_le; lia).
  exists m, (Z.to_pos (Z.abs n * 2 ^ (24 - d))), (d - 53 - k).
  split.
  { rewrite Hb. unfold of_Z, div, prec, emax. rewrite E.
    rewrite div_pow2 by (assumption || lia). f_equal. lia. }
  split; [exact Hdm|]. split; [|lia].
  assert (0 < 2 ^ (24 - d)) by (apply pow2_pos; lia).
  rewrite Z2Pos.id by nia.
  rewrite Hm. replace (53 - d) with ((24 - d) + 29) by lia.
  rewrite pow2_split by lia. ring.
Qed.

Lemma float32RoundTrip_div n b k :
  of_Z b = S754_finite false 4503599627370496 (k - 52) ->
  1 <= k <= 24 -> n <> 0 -> Z.abs n < 2 ^ k ->
  float32RoundTrip (div (of_Z n) (of_Z b)) = div (of_Z n) (of_Z b).
Proof.
  intros Hb Hk Hz Hn.
  assert (H24 : Z.abs n < 2 ^ 24).
  { assert (2 ^ k <= 2 ^ 24) by (apply Z.pow_le_mono_r; lia). lia. }
  destruct (div_repr n b k Hb ltac:(lia) Hz H24 Hn)
    as (m & q & e & E & Hd & Hm & He).
  rewrite E. apply (float32RoundTrip_exact _ m e q); assumption.
Qed.

(** *** The sign of a sample *)

Lemma binary_round_aux_opp prec emax s M e l :
  binary_round_aux prec emax (negb s) M e l
  = SFopp (binary_round_aux prec emax s M e l).
Proof.
  unfold binary_round_aux.
  destruct (shr_fexp prec emax M e l) as [r1 e1].
  destruct (shr_fexp prec emax _ e1 loc_Exact) as [r2 e2].
  destruct (shr_m r2); [reflexivity| |reflexivity].
  destruct (e2 <=? emax - prec); reflexivity.
Qed.

Lemma binary_round_opp prec emax s p e :
  binary_round prec emax (negb s) p e = SFopp (binary_round prec emax s p e).
Proof.
  unfold binary_round.
  destruct (shl_align p e _) as [mz ez]. apply binary_round_aux_opp.
Qed.

Lemma mul_opp s m e :
  mul (S754_finite (negb s) m e) (of_Z 32767)
  = SFopp (mul (S754_finite s m e) (of_Z 32767)).
Proof.
  rewrite ConvFacts.of_Z_32767. unfold mul. cbn [SFmul].
  rewrite !xorb_false_r. apply binary_round_aux_opp.
Qed.

Lemma Round_opp x : Round (SFopp x) = SFopp (Round x).
Proof.
  destruct x as [s|s| |s m e]; try reflexivity.
  cbn [SFopp Round]. destruct (0 <=? e); [reflexivity|].
  destruct (round_half_up (Zpos m) (- e)) as [|p|p]; [reflexivity| |];
    unfold prec, emax; destruct s;
    cbn [cond_Zopp Z.opp negb binary_normalize];
    first [ exact (binary_round_opp 53 1024 true p 0)
          | exact (binary_round_opp 53 1024 false p 0) ].
Qed.

(** [int16(-x) = -int16(x)] but at -32768. *)
Lemma int16_opp y :
  int16_of_float64 y <> -32768 ->
  int16_of_float64 (SFopp y) = - int16_of_float64 y.
Proof.
  unfold int16_of_float64.
  destruct y as [s|s| |s m e]; try reflexivity. cbn [SFopp truncZ].
  set (X := if 0 <=? e then Zpos m * 2 ^ e else Zpos m / 2 ^ (- e)).
  replace (cond_Zopp (negb s) X) with (- cond_Zopp s X)
    by (destruct s; cbn [cond_Zopp negb]; lia).
  set (n := cond_Zopp s X). clearbody n. clear X.
  pose proof (Z.div_mod (n + 2 ^ 15) (2 ^ 16) ltac:(lia)) as D.
  pose proof (Z.mod_pos_bound (n + 2 ^ 15) (2 ^ 16) ltac:(lia)) as B.
  set (q := (n + 2 ^ 15) / 2 ^ 16) in *.
  set (r := (n + 2 ^ 15) mod 2 ^ 16) in *.
  destruct (Z.leb_spec (- 2 ^ 31) n) as [L1|L1];
    destruct (Z.ltb_spec n (2 ^ 31)) as [U1|U1];
    destruct (Z.leb_spec (- 2 ^ 31) (- n)) as [L2|L2];
    destruct (Z.ltb_spec (- n) (2 ^ 31)) as [U2|U2];
    cbn [andb]; intros Hne; try lia.
  - (* both conversions are in the int32 range *)
    assert (Hr : r <> 0) by lia.
    replace ((- n + 2 ^ 15) mod 2 ^ 16) with (2 ^ 16 - r); [lia|].
    apply Z.mod_unique with (- q); [left; lia|lia].
  - (* n = 2^31 *)
    assert (n = 2 ^ 31) by lia. subst n. vm_compute. reflexivity.
Qed.

Lemma small_cmp_le s m e :
  e <= -53 ->
  geb (S754_finite s m e) one = false /\ leb (S754_finite s m e) mone = false.
Proof.
  intros He. rewrite one_eq, mone_eq. unfold geb, leb, SFleb, SFcompare.
  destruct s.
  - split; [reflexivity|].
    destruct (Z.compare_spec e (-52)) as [E|E|E]; reflexivity || lia.
  - split; [|reflexivity].
    destruct (Z.compare_spec (-52) e) as [E|E|E]; reflexivity || lia.
Qed.

Lemma floatToPCM16_opp_inner s m e :
  valid (S754_finite s m e) = true ->
  geb (S754_finite s m e) one = false ->
  leb (S754_finite s m e) mone = false ->
  floatToPCM16 (S754_finite (negb s) m e) = - floatToPCM16 (S754_finite s m e).
Proof.
  intros Hv Hge Hle.
  destruct (abs_lt_one s m e Hv Hge Hle) as [He _].
  destruct (small_cmp_le (negb s) m e He) as [Hge' Hle'].
  destruct (ConvFacts.floatToPCM16_inner s m e Hv Hge Hle) as [Hr _].
  unfold floatToPCM16. cbn [IsNaN IsInf orb].
  rewrite Hge, Hle, Hge', Hle'.
  rewrite mul_opp, Round_opp. apply int16_opp. lia.
Qed.

Lemma cmp_opp_gen (c m : positive) (e0 e : Z) :
  match (match (e0 ?= e) with
         | Eq => Pos.compare_cont Eq c m | Lt => Lt | Gt => Gt end)
  with Gt => false | _ => true end = true ->
  match (match (e ?= e0) with
         | Eq => CompOpp (Pos.compare_cont Eq m c) | Lt => Gt | Gt => Lt end)
  with Gt => false | _ => true end = true.
Proof.
  change (Pos.compare_cont Eq) with Pos.compare.
  rewrite (Z.compare_antisym e0 e), (Pos.compare_antisym c m).
  destruct (e0 ?= e); cbn [CompOpp]; [destruct (c ?= m)%positive|..];
    cbn [CompOpp]; congruence.
Qed.

(** A finite sample at or above 1.0 and its negation, against -1.0. *)
Lemma ge_one_opp s m e :
  geb (S754_finite s m e) one = true ->
  s = false /\
  geb (S754_finite true m e) one = false /\
  leb (S754_finite true m e) mone = true.
Proof.
  rewrite one_eq, mone_eq.
  destruct s; [intros H; discriminate H|]. intros H.
  split; [reflexivity|]. split; [reflexivity|].
  exact (cmp_opp_gen 4503599627370496 m (-52) e H).
Qed.

End F32Facts.
(* ------------------------------------------------------------------ *)
(** ** Where the two readers part: the 24-bit PCM data chunk *)
(* ------------------------------------------------------------------ *)

Module OldNewFacts.
Import F64 Wav WavFile.

(** Every read leaves a suffix of the stream. *)
Lemma ReadFull_split n s bs s' :
  ReadFull n s = inr (bs, s') -> s = bs ++ s' /\ List.length bs = n.
Proof.
  intros H. pose proof (ReaderFacts.ReadFull_length n s bs s' H) as [Hl _].
  split; [|exact Hl].
  unfold ReadFull in H. destruct (n <=? List.length s)%nat.
  - injection H as <- <-. symmetry. apply firstn_skipn.
  - destruct s; discriminate.
Qed.

Lemma readUint_split n s v s' :
  readUint n s = inr (v, s') -> s = le_split n v ++ s'.
Proof.
  unfold readUint. destruct (ReadFull n s) as [e|[bs s1]] eqn:E; [discriminate|].
  intros H. injection H as <- <-.
  apply ReadFull_split in E. destruct E as [-> Hl].
  rewrite <- Hl at 1. rewrite split_le_combine. reflexivity.
Qed.

Lemma ReadFull_consumes n : consumesIO (ReadFull n).
Proof.
  intros s bs s' H. exists bs. apply (ReadFull_split n s bs s' H).
Qed.

Lemma readUint_consumes n : consumesIO (readUint n).
Proof.
  intros s v s' H. exists (le_split n v). apply (readUint_split n s v s' H).
Qed.

Lemma CopyN_consumes n : consumesIO (CopyN n).
Proof.
  intros s [] s'. unfold CopyN.
  destruct (n <=? Z.of_nat (List.length s)); [|discriminate].
  intros H. injection H as <-. exists (firstn (Z.to_nat n) s).
  symmetry. apply firstn_skipn.
Qed.

Lemma ReadByte_consumes : consumesIO ReadByte.
Proof.
  intros [|b s] a s'; cbn [ReadByte]; [discriminate|].
  intros H. injection H as <- <-. exists [b]. reflexivity.
Qed.

Lemma wrap_consumes {A} mk (op : io A) : consumesIO op -> consumes (wrap mk op).
Proof.
  intros Hop s a s'. unfold wrap.
  destruct (op s) as [e|[a0 s0]] eqn:E; [discriminate|].
  intros H. injection H as <- <-. exact (Hop s a0 s0 E).
Qed.

Lemma ret_consumes {A} (a : A) : consumes (ret a).
Proof.
  intros s a' s'. unfold ret. intros H. injection H as <- <-.
  exists []. reflexivity.
Qed.

Lemma fail_consumes {A} e : consumes (@fail A e).
Proof. intros s a s'. unfold fail. discriminate. Qed.

Lemma bind_consumes {A B} (m : Reader A) (k : A -> Reader B) :
  consumes m -> (forall a, consumes (k a)) -> consumes (bind m k).
Proof.
  intros Hm Hk s b s'. unfold bind.
  destruct (m s) as [[a s1]|e] eqn:E; [|discriminate].
  intros H. destruct (Hm s a s1 E) as [c1 ->].
  destruct (Hk a s1 b s' H) as [c2 ->].
  exists (c1 ++ c2). apply app_assoc.
Qed.

Lemma readFmt_consumes chunkSize : consumes (readFmt chunkSize).
Proof.
  unfold readFmt. destruct (chunkSize <? 16); [apply fail_consumes|].
  repeat (apply bind_consumes;
          [apply wrap_consumes, readUint_consumes|intros ?]).
  apply bind_consumes; [|intros ?; apply ret_consumes].
  destruct (0 <? chunkSize - 16); [|apply ret_consumes].
  apply wrap_consumes, CopyN_consumes.
Qed.

Lemma skipChunk_consumes chunkID chunkSize : consumes (skipChunk chunkID chunkSize).
Proof.
  unfold skipChunk.
  apply bind_consumes; [apply wrap_consumes, CopyN_consumes|intros ?].
  destruct (chunkSize mod 2 =? 1); [|apply ret_consumes].
  apply bind_consumes; [apply wrap_consumes, ReadByte_consumes|intros ?].
  apply ret_consumes.
Qed.

Lemma readHeader_consumes : consumes readHeader.
Proof.
  unfold readHeader.
  apply bind_consumes; [apply wrap_consumes, ReadFull_consumes|intros riff].
  destruct (negb (string_of_list_byte riff =? "RIFF")%string);
    [apply fail_consumes|].
  apply bind_consumes; [apply wrap_consumes, readUint_consumes|intros ?].
  apply bind_consumes; [apply wrap_consumes, ReadFull_consumes|intros wave].
  destruct (negb (string_of_list_byte wave =? "WAVE")%string);
    [apply fail_consumes|apply ret_consumes].
Qed.

(** The format the loop holds was read by [readFmt]. *)
Definition fmtSeen (fo : option wavFormat) : Prop :=
  match fo with
  | Some f => fmtRead f
  | None => True
  end.

(** The earlier reader ends in the 24-bit rejection only at a data
    chunk reached under a 24-bit PCM format that passes the checks of
    the data case; the present reader reaches the same chunk with the
    same format and answers with the body of its data case. *)
Lemma chunkLoop_old_depth24 e n :
  forall s fo,
    (List.length s < n)%nat -> fmtSeen fo ->
    chunkLoop readSamples_old e fo s = Err depth24 ->
    exists pre f size body,
      s = pre ++ dataHeader size ++ body /\
      fmtRead f /\ 0 <= size < 2 ^ 32 /\
      numChannels f = e /\ blockAlign f <> 0 /\ size mod blockAlign f = 0 /\
      audioFormat f = 1 /\ bitsPerSample f = 24 /\
      chunkLoop readSamples e fo s
      = dropRest (readData readSamples e (Some f) size body).
Proof.
  induction n as [|n IH]; intros s fo Hlen Hfo; [lia|].
  rewrite !ReaderFacts.chunkLoop_step.
  destruct (ReadFull 4 s) as [[|]|[chunkID s1]] eqn:E1;
    [discriminate|discriminate|].
  pose proof (ReaderFacts.ReadFull_length _ _ _ _ E1) as [_ L1].
  apply ReadFull_split in E1. destruct E1 as [-> Hid].
  unfold wrap.
  destruct (readUint 4 s1) as [?|[chunkSize s2]] eqn:E2; [discriminate|].
  pose proof (ReaderFacts.readUint_length _ _ _ _ E2) as [Hsz L2].
  apply readUint_split in E2. subst s1.
  destruct (string_of_list_byte chunkID =? "fmt ")%string eqn:Efmt.
  { destruct (readFmt chunkSize s2) as [[f' s3]|err] eqn:E3.
    - pose proof (ReaderFacts.readFmt_length _ _ _ _ E3) as [L3 Hf'].
      destruct (readFmt_consumes _ _ _ _ E3) as [c ->].
      intros H. destruct (IH s3 (Some f') ltac:(lia) Hf' H)
        as (pre & f & size & body & -> & Hf & Hs & H1 & H2 & H3 & H4 & H5 & H6).
      exists (chunkID ++ le_split 4 chunkSize ++ c ++ pre), f, size, body.
      repeat (split; [first [assumption | lia | idtac]|]); [|exact H6].
      rewrite <- !app_assoc. reflexivity.
    - intros H. injection H as ->.
      exfalso. exact (ReaderFacts.readFmt_err _ _ _ E3 eq_refl). }
  destruct (string_of_list_byte chunkID =? "data")%string eqn:Edata.
  { apply StreamFacts.eqb_bytes in Edata. subst chunkID.
    destruct fo as [f|]; [|discriminate].
    intros H.
    change (dropRest (readData readSamples_old e (Some f) chunkSize s2)
            = Err depth24) in H.
    apply ReaderFacts.readData_old_depth24 in H.
    destruct H as (H1 & H2 & H3 & H4 & H5).
    exists [], f, chunkSize, s2.
    repeat (split; [first [assumption | exact Hfo | exact Hsz | reflexivity]|]).
    reflexivity. }
  destruct (skipChunk chunkID chunkSize s2) as [[u s3]|err] eqn:E3.
  - pose proof (ReaderFacts.skipChunk_length _ _ _ _ _ E3) as L3.
    destruct (skipChunk_consumes _ _ _ _ _ E3) as [c ->].
    intros H. destruct (IH s3 fo ltac:(lia) Hfo H)
      as (pre & f & size & body & -> & Hf & Hs & H1 & H2 & H3 & H4 & H5 & H6).
    exists (chunkID ++ le_split 4 chunkSize ++ c ++ pre), f, size, body.
    repeat (split; [first [assumption | lia | idtac]|]); [|exact H6].
    rewrite <- !app_assoc. reflexivity.
  - intros H. injection H as ->.
    exfalso. exact (ReaderFacts.skipChunk_err _ _ _ _ E3 eq_refl).
Qed.

(** The data case of the present reader under a 24-bit PCM format,
    for every body. *)
Lemma readData_pcm24 f size body :
  fmtRead f -> blockAlign f <> 0 -> size mod blockAlign f = 0 ->
  audioFormat f = 1 -> bitsPerSample f = 24 -> 0 <= size ->
  dropRest (readData readSamples (numChannels f) (Some f) size body)
  = pcm24Outcome f size body.
Proof.
  intros [Hch Hba] Hnz Hmod Haf Hbits Hsize.
  assert (Hba' : 0 < blockAlign f) by lia.
  assert (Hw : bytesPerSample f = Some 3).
  { rewrite FrameFacts.bytesPerSample_eq, Haf, Hbits. reflexivity. }
  set (n := size / blockAlign f).
  assert (Hn : 0 <= n) by (apply Z.div_pos; lia).
  assert (Hsz : size = n * blockAlign f).
  { unfold n. pose proof (Z.div_mod size (blockAlign f) Hnz). lia. }
  unfold pcm24Outcome. fold n.
  set (need := (Z.to_nat n * (Z.to_nat (numChannels f) * 3))%nat).
  assert (Hneed : Z.of_nat need = n * (numChannels f * 3)).
  { unfold need. rewrite !Nat2Z.inj_mul, !Z2Nat.id by lia. reflexivity. }
  destruct (Nat.ltb_spec (List.length body) need) as [Hlt|Hge].
  - rewrite (FrameFacts.readData_short f 3 n size body Hw) by lia.
    cbn [dropRest]. unfold sampleError. rewrite Haf, Hbits. reflexivity.
  - destruct (Z.eqb_spec (size mod 2) 1) as [Hodd|Heven]; cbn [andb].
    + destruct (Nat.eqb_spec (List.length body) need) as [Heq|Hne].
      * rewrite (FrameFacts.readData_no_pad f 3 n size body Hw) by lia.
        reflexivity.
      * rewrite <- (firstn_skipn need body) at 1.
        rewrite (FrameFacts.readData_decoded f 3 n size _ _ Hw); try lia.
        -- unfold decoderOf. rewrite Haf, Hbits.
           rewrite <- (firstn_skipn need body) at 2.
           rewrite FrameFacts.decodedSamples_prefix; [reflexivity|].
           rewrite length_firstn. fold need. change (Z.to_nat 3) with 3%nat. lia.
        -- rewrite length_firstn. lia.
        -- intros _ Hnil. apply (f_equal (@List.length byte)) in Hnil.
           rewrite length_skipn in Hnil. cbn [List.length] in Hnil. lia.
    + rewrite <- (firstn_skipn need body) at 1.
      rewrite (FrameFacts.readData_decoded f 3 n size _ _ Hw); try lia.
      * unfold decoderOf. rewrite Haf, Hbits.
        rewrite <- (firstn_skipn need body) at 2.
        rewrite FrameFacts.decodedSamples_prefix; [reflexivity|].
        rewrite length_firstn. fold need. change (Z.to_nat 3) with 3%nat. lia.
      * rewrite length_firstn. lia.
Qed.

(** The two readers on a whole stream. *)
Lemma readWAV_old_depth24 r e :
  readWAV_old r e = Err depth24 ->
  exists pre f size body,
    r = pre ++ dataHeader size ++ body /\
    0 <= size < 2 ^ 32 /\
    numChannels f = e /\ blockAlign f <> 0 /\ size mod blockAlign f = 0 /\
    audioFormat f = 1 /\ bitsPerSample f = 24 /\
    readWAV r e = pcm24Outcome f size body.
Proof.
  unfold readWAV_old, readWAV, readWAVWith.
  destruct (readHeader r) as [[u s]|err] eqn:Eh.
  - destruct (readHeader_consumes _ _ _ Eh) as [c ->].
    intros H.
    destruct (chunkLoop_old_depth24 e (S (List.length s)) s None
                ltac:(lia) I H)
      as (pre & f & size & body & -> & Hf & Hs & H1 & H2 & H3 & H4 & H5 & H6).
    exists (c ++ pre), f, size, body.
    split; [rewrite <- app_assoc; reflexivity|].
    repeat (split; [first [assumption | lia]|]).
    rewrite H6, <- H1. apply readData_pcm24; try assumption. lia.
  - intros H. injection H as ->.
    exfalso. exact (ReaderFacts.readHeader_err _ _ Eh eq_refl).
Qed.

(** Outside 24-bit PCM the two format switches are the same text. *)
Lemma readSamples_same f nch nfr init :
  ~ (audioFormat f = 1 /\ bitsPerSample f = 24) ->
  readSamples_old f nch nfr init = readSamples f nch nfr init.
Proof.
  intros H. rewrite ReaderFacts.readSamples_eq, ReaderFacts.readSamples_old_eq.
  destruct (Z.eqb_spec (audioFormat f) 1) as [Haf|Haf]; [|reflexivity].
  destruct (Z.eqb_spec (bitsPerSample f) 16) as [H16|H16]; [reflexivity|].
  destruct (Z.eqb_spec (bitsPerSample f) 24) as [H24|H24]; [tauto|reflexivity].
Qed.

Lemma readData_same e f chunkSize s :
  ~ (audioFormat f = 1 /\ bitsPerSample f = 24) ->
  readData readSamples_old e (Some f) chunkSize s
  = readData readSamples e (Some f) chunkSize s.
Proof.
  intros H. unfold readData.
  destruct (negb (numChannels f =? e)); [reflexivity|].
  destruct (blockAlign f =? 0); [reflexivity|].
  destruct (negb (chunkSize mod blockAlign f =? 0)); [reflexivity|].
  unfold bind. rewrite (readSamples_same f _ _ _ H). reflexivity.
Qed.

Lemma wfFormat_fmtRead f : wfFormat f = true -> fmtRead f.
Proof.
  intros Hwf.
  pose proof (ReaderFacts.wfFormat_bounds f Hwf) as (H1 & H2 & H3 & H4 & H5 & H6).
  split; assumption.
Qed.

(** A file whose data chunk stands under a 24-bit PCM format. *)
Lemma readWAV_wavFile_pcm24 riffSize before f ext between size body :
  wfFormat f = true -> 16 + Z.of_nat (List.length ext) < 2 ^ 32 ->
  forallb isUnknownChunk before = true ->
  forallb isUnknownChunk between = true ->
  0 <= size < 2 ^ 32 ->
  audioFormat f = 1 -> bitsPerSample f = 24 ->
  blockAlign f <> 0 -> size mod blockAlign f = 0 ->
  readWAV_old (wavFile riffSize before f ext between size body) (numChannels f)
  = Err depth24 /\
  readWAV (wavFile riffSize before f ext between size body) (numChannels f)
  = pcm24Outcome f size body.
Proof.
  intros Hwf Hext Hb1 Hb2 Hsize Haf Hbits Hnz Hmod.
  unfold readWAV_old, readWAV.
  rewrite !FrameFacts.readWAVWith_wavFile by assumption.
  split.
  - apply ReaderFacts.readData_old_depth24. repeat split; assumption.
  - apply readData_pcm24; try assumption; [apply wfFormat_fmtRead, Hwf|lia].
Qed.

(** The sample of channel [ch] in frame [i]: the three bytes at its
    place, least significant first, as a signed 24-bit number. *)
Lemma sampleAt_pcm24 channels body ch i :
  let k := ((i * channels + ch) * 3)%nat in
  (k + 3 <= List.length body)%nat ->
  sampleAt decodePCM24 3 channels body ch i
  = div (of_Z (sint24 (nth k body Byte.x00) (nth (k + 1) body Byte.x00)
                      (nth (k + 2) body Byte.x00)))
        (of_Z 8388608).
Proof.
  intros k Hk. unfold sampleAt, decodePCM24, pcm24ToFloat. fold k.
  rewrite !nth_firstn, !nth_skipn. cbn [Nat.ltb Nat.leb].
  rewrite Nat.add_0_r. reflexivity.
Qed.

Lemma readPCM24Sample_at body k :
  (k + 3 <= List.length body)%nat ->
  readPCM24Sample (firstn 3 (skipn k body))
  = inr (sint24 (nth k body Byte.x00) (nth (k + 1) body Byte.x00)
                (nth (k + 2) body Byte.x00), []).
Proof.
  intros Hk.
  assert (Hl : (3 <= List.length (skipn k body))%nat)
    by (rewrite length_skipn; lia).
  rewrite <- (Nat.add_0_r k) at 2.
  rewrite <- !(nth_skipn k body).
  destruct (skipn k body) as [|b0 [|b1 [|b2 t]]];
    cbn [List.length] in Hl; try lia.
  cbn [firstn nth]. apply ConvFacts.readPCM24Sample_3.
Qed.

End OldNewFacts.

(* ------------------------------------------------------------------ *)
(** ** The specification against the code *)
(* ------------------------------------------------------------------ *)

Import F64 Wav WavFile.

(** C2 (S2, WAV stereo round trip).  Writing the stereo frame of the
    test (sample rate 44100, seven samples per channel) as PCM16 and
    reading the bytes back with two channels succeeds, gives sample rate
    44100, two channels and seven samples, and every sample read is
    within 2/32767 of the sample written. *)
Theorem stereo_round_trip :
  exists bytes out,
    WriteStereoWAV stereoIn = Ok bytes /\
    ReadWAVChannels bytes 2 = Ok out /\
    SampleRate out = 44100 /\
    List.length (Samples out) = 2%nat /\
    NumSamples out = 7 /\
    Forall2 (Forall2 (fun got want =>
                        (Qabs (toQ got - toQ want) <= 2 # 32767)%Q))
            (Samples out) (Samples stereoIn).
Proof.
  eexists. eexists.
  split; [vm_compute; reflexivity|].
  split; [vm_compute; reflexivity|].
  split; [reflexivity|]. split; [reflexivity|]. split; [reflexivity|].
  repeat constructor; vm_compute; discriminate.
Qed.

(** C3 (float32 output: clamp to [-1, +1], NaN and the infinities to 0).
    The code does not write an infinity as 0: [val > 1.0] and
    [val < -1.0] are tested before [math.IsInf], so positive infinity is
    written as 1.0 (bits 0x3f800000) and negative infinity as -1.0 (bits
    0xbf800000); only NaN reaches the third branch and is written as 0.
    The data of the file written for a stereo frame holding the two
    infinities are the bytes 00 00 80 3f 00 00 80 bf. *)
Theorem float32_writer_infinity :
  F32.bits (clampFloat32 (S754_infinity false)) = 1065353216 /\
  F32.bits (clampFloat32 (S754_infinity true)) = 3212836864 /\
  F32.bits (clampFloat32 S754_nan) = 0 /\
  exists bytes,
    WriteStereoFloat32WAV infiniteStereo = Ok bytes /\
    skipn 44 bytes
    = [Byte.x00; Byte.x00; Byte.x80; Byte.x3f;
       Byte.x00; Byte.x00; Byte.x80; Byte.xbf].
Proof.
  split; [reflexivity|]. split; [reflexivity|]. split; [reflexivity|].
  eexists. split; [vm_compute; reflexivity|]. vm_compute. reflexivity.
Qed.

(** C4, as the spec states it, fails on the code: the conversion rounds
    the float64 product [v * 32767.0], not the real one.  At the
    float64 nearest to 3/65534 the real product [v * 32767] lies
    strictly between 1 and 3/2, so the integer nearest to it is 1; the
    float64 product is exactly 3/2 and the sample written is 2, farther
    than 1/2 from the real product. *)
Lemma floatToPCM16_double_rounding :
  let v := decimal 3 65534 in
  valid v = true /\ is_finite v = true /\
  geb v one = false /\ leb v mone = false /\
  (1 < inject_Z 32767 * toQ v)%Q /\ (inject_Z 32767 * toQ v < 3 # 2)%Q /\
  (toQ (mul v (of_Z 32767)) == 3 # 2)%Q /\
  floatToPCM16 v = 2 /\
  ~ (Qabs (inject_Z (floatToPCM16 v) - inject_Z 32767 * toQ v) <= 1 # 2)%Q.
Proof.
  cbv zeta.
  repeat (split; [vm_compute; reflexivity|]).
  intros H. vm_compute in H. apply H. reflexivity.
Qed.

(** C4, amended (PCM16 conversion).  For every float64 [v]: NaN and the
    infinities give 0; a finite [v >= 1.0] gives 32767 and a finite
    [v <= -1.0] gives -32768; every other [v] gives an integer of
    [-32767, 32767] nearest to the float64 product [v * 32767.0], which
    lies within 2^-30 of the real product; where the float64 product is
    halfway between two integers, the one away from zero. *)
Theorem floatToPCM16_spec (v : float64) (Hv : valid v = true) :
  (IsNaN v || IsInf v = true -> floatToPCM16 v = 0) /\
  (is_finite v = true -> geb v one = true -> floatToPCM16 v = 32767) /\
  (is_finite v = true -> leb v mone = true -> floatToPCM16 v = -32768) /\
  (is_finite v = true -> geb v one = false -> leb v mone = false ->
   let p := toQ (mul v (of_Z 32767)) in
   -32767 <= floatToPCM16 v <= 32767 /\
   (Qabs (p - inject_Z 32767 * toQ v) <= 1 # 1073741824)%Q /\
   (Qabs (inject_Z (floatToPCM16 v) - p) <= 1 # 2)%Q /\
   ((Qabs (inject_Z (floatToPCM16 v) - p) == 1 # 2)%Q ->
    (Qabs p < Qabs (inject_Z (floatToPCM16 v)))%Q)).
Proof.
  assert (Hfin : is_finite v = true -> IsNaN v || IsInf v = false)
    by (destruct v; intros; try discriminate; reflexivity).
  split; [|split; [|split]].
  - intros Hnan. destruct v; try discriminate; reflexivity.
  - intros Hf Hge. unfold floatToPCM16. rewrite (Hfin Hf), Hge. reflexivity.
  - intros Hf Hle. unfold floatToPCM16.
    rewrite (Hfin Hf), (F64Facts.le_mone_not_ge_one v Hf Hle), Hle. reflexivity.
  - intros Hf Hge Hle. unfold floatToPCM16. rewrite (Hfin Hf), Hge, Hle.
    destruct v as [s|s| |s m e]; try discriminate Hf.
    + clear. destruct s; vm_compute;
        (split; [split; intros H; discriminate H|]);
        (split; [intros H; discriminate H|]);
        (split; [intros H; discriminate H|]);
        intros H; discriminate H.
    + exact (RoundFacts.floatToPCM16_inner_exact s m e Hv Hge Hle).
Qed.

(** At 0.1: the float64 product is within 2^-30 of 3276.7 and the
    sample written is 3277.  At the float64 nearest to 3/65534 the
    float64 product is 3/2, halfway between 1 and 2, and the sample
    written is 2, the one away from zero. *)
Lemma floatToPCM16_spec_witness :
  valid (decimal 1 10) = true /\
  floatToPCM16 (decimal 1 10) = 3277 /\
  (Qabs (toQ (mul (decimal 1 10) (of_Z 32767))
         - inject_Z 32767 * toQ (decimal 1 10)) <= 1 # 1073741824)%Q /\
  (Qabs (inject_Z (floatToPCM16 (decimal 1 10))
         - toQ (mul (decimal 1 10) (of_Z 32767))) <= 1 # 2)%Q /\
  valid (decimal 3 65534) = true /\
  (Qabs (toQ (mul (decimal 3 65534) (of_Z 32767)))
   < Qabs (inject_Z (floatToPCM16 (decimal 3 65534))))%Q.
Proof.
  split; [reflexivity|]. split; [reflexivity|].
  pose proof (proj2 (proj2 (proj2 (floatToPCM16_spec (decimal 1 10) eq_refl)))
                eq_refl eq_refl eq_refl) as H.
  cbv zeta in H. destruct H as (_ & H1 & H2 & _).
  split; [exact H1|]. split; [exact H2|]. split; [reflexivity|].
  pose proof (proj2 (proj2 (proj2 (floatToPCM16_spec (decimal 3 65534) eq_refl)))
                eq_refl eq_refl eq_refl) as H.
  cbv zeta in H. destruct H as (_ & _ & _ & H3).
  apply H3. vm_compute. reflexivity.
Defined.

(** C5 (the PCM16 boundary).  The read path stores, for the int16 [v]
    of two little-endian bytes, [float64(v) / 32768.0], and that
    quotient is exactly [v / 32768]; so -32768 (bytes 00 80) is read as
    exactly -1.0.  The write path multiplies by 32767.0 and saturates:
    1.0 is written as 32767 (and 0.9 as 29490, the integer nearest to
    0.9 * 32767 = 29490.3, where 0.9 * 32768 would give 29491). *)
Theorem pcm16_boundary :
  (forall b0 b1 rest,
      readPCM16 (b0 :: b1 :: rest)
      = Ok (div (of_Z (sint16 b0 b1)) (of_Z 32768), rest) /\
      (toQ (div (of_Z (sint16 b0 b1)) (of_Z 32768)) == sint16 b0 b1 # 32768)%Q) /\
  pcm16ToFloat (-32768) = mone /\
  readPCM16 [Byte.x00; Byte.x80] = Ok (mone, []) /\
  floatToPCM16 one = 32767 /\
  floatToPCM16 (decimal 9 10) = 29490.
Proof.
  split.
  { intros b0 b1 rest. split.
    - apply ConvFacts.readPCM16_spec.
    - apply (ConvFacts.pcm16ToFloat_exact (sint16 b0 b1)), ConvFacts.sint16_range. }
  repeat split; reflexivity.
Qed.

(** C6, as the spec states it, fails on the code: a file that holds a
    data chunk of a supported format and, after it, its fmt chunk is
    rejected with "data chunk before fmt chunk"; the same two chunks in
    the other order are read. *)
Lemma data_before_fmt_rejected :
  readWAV fileDataFirst 1 = Err ErrDataBeforeFmt /\
  readWAV fileFmtFirst 1
  = Ok {| SampleRate := 8000; Samples := [[mone]]; NumSamples := 1 |}.
Proof. split; vm_compute; reflexivity. Qed.

(** C6, amended.  In a file whose fmt chunk has an even size,
    [readWAV] skips every unknown chunk in front of the data chunk,
    with its pad byte when its size is odd: the result is that of the
    file without those chunks.  It succeeds, with the samples of the
    data chunk decoded in their order, when the fmt chunk stands in
    front of the data chunk, declares the requested number of
    channels, a supported format (PCM of 16 or 24 bits, IEEE float of
    32 bits) and a block alignment of channels times bytes per sample,
    and the data chunk holds whole frames (and its pad byte when its
    size is odd).  A data chunk met before any fmt chunk is rejected
    with "data chunk before fmt chunk", whatever follows and whatever
    number of channels is requested. *)
Theorem unknown_chunks_skipped
        (us1 us2 : list chunk) (f : wavFormat) (ext payload rest : list byte)
        (pad : byte) (riffSize w n : Z) :
  forallb isUnknownChunk us1 = true ->
  forallb isUnknownChunk us2 = true ->
  wfFormat f = true ->
  16 + Z.of_nat (List.length ext) < 2 ^ 32 ->
  Z.of_nat (List.length ext) mod 2 = 0 ->
  bytesPerSample f = Some w ->
  0 < numChannels f ->
  blockAlign f = numChannels f * w ->
  Z.of_nat (List.length payload) = n * blockAlign f ->
  Z.of_nat (List.length payload) < 2 ^ 32 ->
  let data :=
    dataHeader (Z.of_nat (List.length payload)) ++ payload ++ padOf payload pad in
  (forall tail channels,
      readWAV (riffHeader riffSize ++ chunksBytes us1 ++ fmtBytes f ext ++
               chunksBytes us2 ++ tail) channels
      = readWAV (riffHeader riffSize ++ fmtBytes f ext ++ tail) channels) /\
  readWAV (riffHeader riffSize ++ chunksBytes us1 ++ fmtBytes f ext ++
           chunksBytes us2 ++ data ++ rest) (numChannels f)
  = Ok {| SampleRate := sampleRate f;
          Samples := decodedSamples (decoderOf f) (Z.to_nat w)
                       (Z.to_nat (numChannels f)) (Z.to_nat n) payload;
          NumSamples := n |} /\
  (forall channels,
      readWAV (riffHeader riffSize ++ chunksBytes us1 ++ data ++
               fmtBytes f ext ++ rest) channels
      = Err ErrDataBeforeFmt).
Proof.
  intros Hu1 Hu2 Hwf Hext Heven Hw Hch Hba Hlen Hsz data.
  assert (Hwpos : 0 < w).
  { destruct (ReaderFacts.bytesPerSample_cases f w Hw)
      as [(_ & _ & ->)|[(_ & _ & ->)|(_ & _ & ->)]]; lia. }
  assert (Hba' : 0 < blockAlign f) by nia.
  split; [|split].
  - intros tail channels. unfold readWAV.
    rewrite !ReaderFacts.readWAVWith_riff.
    rewrite ReaderFacts.chunkLoop_unknowns by assumption.
    rewrite !ReaderFacts.chunkLoop_fmt by assumption.
    apply ReaderFacts.chunkLoop_unknowns. assumption.
  - unfold data. rewrite <- !app_assoc.
    change (readWAV (wavFile riffSize us1 f ext us2
                       (Z.of_nat (List.length payload))
                       (payload ++ padOf payload pad ++ rest)) (numChannels f)
            = Ok {| SampleRate := sampleRate f;
                    Samples := decodedSamples (decoderOf f) (Z.to_nat w)
                                 (Z.to_nat (numChannels f)) (Z.to_nat n) payload;
                    NumSamples := n |}).
    unfold readWAV.
    rewrite FrameFacts.readWAVWith_wavFile by (assumption || lia).
    apply (FrameFacts.readData_decoded f w n); try assumption; try lia; try nia.
    intros Hodd. unfold padOf.
    destruct (Z.eqb_spec (Z.of_nat (List.length payload) mod 2) 1) as [_|Hne];
      [discriminate|contradiction].
  - intros channels. unfold readWAV, data.
    rewrite ReaderFacts.readWAVWith_riff.
    rewrite ReaderFacts.chunkLoop_unknowns by assumption.
    rewrite <- !app_assoc. rewrite ReaderFacts.chunkLoop_data. reflexivity.
Qed.

(** A mono PCM16 file with a "LIST" chunk of three bytes and its pad
    byte in front of the fmt chunk and again in front of the data
    chunk: the frame 00 80 is read as -1. *)
Lemma unknown_chunks_skipped_witness :
  readWAV fileWithList 1
  = Ok {| SampleRate := 8000; Samples := [[mone]]; NumSamples := 1 |} /\
  readWAV (riffHeader 0 ++ chunksBytes [listChunk] ++ dataMin16 ++
           fmtBytes monoPCM16 []) 1
  = Err ErrDataBeforeFmt.
Proof.
  pose proof (unknown_chunks_skipped [listChunk] [listChunk] monoPCM16 []
                [Byte.x00; Byte.x80] [] Byte.x00 0 2 1
                eq_refl eq_refl eq_refl eq_refl eq_refl eq_refl eq_refl eq_refl
                eq_refl eq_refl) as H.
  destruct H as (_ & H2 & H3). split; [exact H2|exact (H3 1)].
Defined.

(** C7 (channel mismatch).  The data case compares the channel count of
    the format at hand with the requested one, as the claim says; but
    the fmt case reads no pad byte behind a fmt chunk of odd size, as
    the data case and the default case do behind theirs, and from
    there on bytes of chunk payloads are taken for chunk headers.
    [oddFmtFile] is a RIFF file of four chunks whose fmt chunk, of size
    17, declares two channels: read with four channels requested it
    yields the four-channel frame lying in the payload of its second
    "JUNK" chunk, and read with two it is rejected for having four.
    The same file with a fmt chunk of size 18 is rejected with four
    channels requested and read with two. *)
Theorem odd_fmt_pad_byte_unread :
  oddFmtFile
  = riffHeader 166 ++ fmtBytes stereoPCM16 [Byte.x00] ++ [Byte.x00] ++
    chunkBytes emptyJunk ++ chunkBytes carrierJunk ++ chunkBytes stereoData /\
  Z.of_nat (List.length oddFmtFile) = 8 + 166 /\
  forallb isUnknownChunk [emptyJunk; carrierJunk] = true /\
  numChannels stereoPCM16 = 2 /\
  readWAV oddFmtFile 4
  = Ok {| SampleRate := 44100;
          Samples := [[pcm16ToFloat 16384]; [pcm16ToFloat (-16384)];
                      [pcm16ToFloat 0]; [pcm16ToFloat 32767]];
          NumSamples := 1 |} /\
  ReadWAVBytes oddFmtFile 4 = readWAV oddFmtFile 4 /\
  ReadWAVChannels oddFmtFile 4 = readWAV oddFmtFile 4 /\
  readWAV oddFmtFile 2 = Err (ErrInputChannels 2 4) /\
  readWAV evenFmtFile 4 = Err (ErrInputChannels 4 2) /\
  readWAV evenFmtFile 2
  = Ok {| SampleRate := 44100; Samples := [[zero]; [zero]]; NumSamples := 1 |}.
Proof.
  repeat (split; [vm_compute; reflexivity|]).
  vm_compute. reflexivity.
Qed.

(** C8 (the AudioFrame invariant).  Every AudioData [readWAV] returns
    has as many channels as were requested, and every channel has
    exactly [NumSamples] samples. *)
Theorem readWAV_shape (r : stream) (channels : Z) (a : AudioData) :
  readWAV r channels = Ok a ->
  Forall (fun c => Z.of_nat (List.length c) = NumSamples a) (Samples a) /\
  Z.of_nat (List.length (Samples a)) = channels.
Proof.
  unfold readWAV.
  apply (ReaderFacts.readWAVWith_Q readSamples
           (fun e a => Forall (fun c => Z.of_nat (List.length c) = NumSamples a)
                              (Samples a)
                       /\ Z.of_nat (List.length (Samples a)) = e)).
  intros e f chunkSize s a' s'. apply ReaderFacts.readData_shape.
Qed.

(** The PCM24 file of two frames: one channel of two samples. *)
Lemma readWAV_shape_witness :
  Forall (fun c => Z.of_nat (List.length c) = 2)
         [[pcm24ToFloat (-8388608); pcm24ToFloat 8388607]] /\
  Z.of_nat (List.length [[pcm24ToFloat (-8388608); pcm24ToFloat 8388607]]) = 1.
Proof.
  apply (readWAV_shape filePCM24 1
           {| SampleRate := 8000;
              Samples := [[pcm24ToFloat (-8388608); pcm24ToFloat 8388607]];
              NumSamples := 2 |}).
  vm_compute. reflexivity.
Defined.

(** C9 (samples of the nominal range).  Every sample of every AudioData
    [readWAV] returns is finite and lies in [-1, 1].  By format: the
    samples of a PCM16 data chunk lie in [-1, 32767/32768], those of a
    PCM24 data chunk in [-1, 8388607/8388608]; a float32 sample is
    clamped to [-1, 1], NaN and the infinities being read as 0. *)
Theorem readWAV_unit_range :
  (forall r channels a,
      readWAV r channels = Ok a -> Forall (Forall unit_range) (Samples a)) /\
  (forall e f chunkSize s a s',
      readData readSamples e (Some f) chunkSize s = Ok (a, s') ->
      audioFormat f = 1 -> bitsPerSample f = 16 ->
      Forall (Forall (fun x => is_finite x = true /\
                               (- (1) <= toQ x <= 32767 # 32768)%Q)) (Samples a)) /\
  (forall e f chunkSize s a s',
      readData readSamples e (Some f) chunkSize s = Ok (a, s') ->
      audioFormat f = 1 -> bitsPerSample f = 24 ->
      Forall (Forall (fun x => is_finite x = true /\
                               (- (1) <= toQ x <= 8388607 # 8388608)%Q)) (Samples a)) /\
  (forall s x s', readFloat32 s = Ok (x, s') -> unit_range x) /\
  float32ToFloat S754_nan = zero /\
  float32ToFloat (S754_infinity false) = zero /\
  float32ToFloat (S754_infinity true) = zero /\
  float32ToFloat (F32.of_float64 (of_Z 2)) = one /\
  float32ToFloat (F32.of_float64 (of_Z (-2))) = mone.
Proof.
  split.
  { intros r channels a. unfold readWAV.
    apply (ReaderFacts.readWAVWith_Q readSamples
             (fun _ a => Forall (Forall unit_range) (Samples a))).
    intros e f chunkSize s a' s'. apply ReaderFacts.readData_range. }
  split; [exact ReaderFacts.readData_range16|].
  split; [exact ReaderFacts.readData_range24|].
  split; [exact ConvFacts.readFloat32_range|].
  repeat split; reflexivity.
Qed.

(** The PCM24 file of the two extreme frames: -1 and 8388607/8388608. *)
Lemma readWAV_unit_range_witness :
  Forall (Forall unit_range) [[pcm24ToFloat (-8388608); pcm24ToFloat 8388607]].
Proof.
  apply (proj1 readWAV_unit_range filePCM24 1
           {| SampleRate := 8000;
              Samples := [[pcm24ToFloat (-8388608); pcm24ToFloat 8388607]];
              NumSamples := 2 |}).
  vm_compute. reflexivity.
Defined.

(** C10 (the earlier reader against the present one).  On every input
    the two readers return the same result, unless the earlier one
    answers "unsupported PCM bit depth 24".  It answers so only at a
    data chunk reached under a PCM format of 24 bits that declares the
    requested channels and a block alignment dividing the chunk size,
    and there the present reader returns [pcm24Outcome]: the frames of
    the chunk, the sample of a channel in a frame being the three bytes
    at its place, least significant first, sign-extended and divided by
    8388608.0 (or the read error of a chunk cut short).  The data case
    of the two readers is the same for every format other than 24-bit
    PCM, and on a file whose fmt chunk declares 24-bit PCM the earlier
    reader answers with that error. *)
Theorem readWAV_old_new :
  (forall r channels,
      (readWAV_old r channels <> Err depth24 ->
       readWAV r channels = readWAV_old r channels) /\
      (readWAV_old r channels = Err depth24 ->
       readWAV r channels <> readWAV_old r channels /\
       exists pre f size body,
         r = pre ++ dataHeader size ++ body /\
         0 <= size < 2 ^ 32 /\
         numChannels f = channels /\
         blockAlign f <> 0 /\ size mod blockAlign f = 0 /\
         audioFormat f = 1 /\ bitsPerSample f = 24 /\
         readWAV r channels = pcm24Outcome f size body)) /\
  (forall e f chunkSize s,
      (dropRest (readData readSamples_old e (Some f) chunkSize s) = Err depth24 <->
       numChannels f = e /\ blockAlign f <> 0 /\ chunkSize mod blockAlign f = 0 /\
       audioFormat f = 1 /\ bitsPerSample f = 24) /\
      (~ (audioFormat f = 1 /\ bitsPerSample f = 24) ->
       readData readSamples_old e (Some f) chunkSize s
       = readData readSamples e (Some f) chunkSize s)) /\
  (forall riffSize before f ext between size body,
      wfFormat f = true -> 16 + Z.of_nat (List.length ext) < 2 ^ 32 ->
      Z.of_nat (List.length ext) mod 2 = 0 ->
      forallb isUnknownChunk before = true ->
      forallb isUnknownChunk between = true ->
      0 <= size < 2 ^ 32 ->
      audioFormat f = 1 -> bitsPerSample f = 24 ->
      blockAlign f <> 0 -> size mod blockAlign f = 0 ->
      readWAV_old (wavFile riffSize before f ext between size body) (numChannels f)
      = Err depth24 /\
      readWAV (wavFile riffSize before f ext between size body) (numChannels f)
      = pcm24Outcome f size body) /\
  (forall channels body ch i,
      let k := ((i * channels + ch) * 3)%nat in
      (k + 3 <= List.length body)%nat ->
      let v := sint24 (nth k body Byte.x00) (nth (k + 1) body Byte.x00)
                      (nth (k + 2) body Byte.x00) in
      sampleAt decodePCM24 3 channels body ch i = div (of_Z v) (of_Z 8388608) /\
      readPCM24Sample (firstn 3 (skipn k body)) = inr (v, []) /\
      (toQ (div (of_Z v) (of_Z 8388608)) == v # 8388608)%Q).
Proof.
  split; [|split; [|split]].
  - intros r channels.
    destruct (ReaderFacts.readWAV_oldNew r channels) as [Hn [Heq|[Ho Hp]]].
    + split; [intros _; symmetry; exact Heq|].
      intros Ho. rewrite Heq in Ho. contradiction.
    + split; [intros H; contradiction|].
      intros _. split; [rewrite Ho; exact Hn|].
      destruct (OldNewFacts.readWAV_old_depth24 r channels Ho)
        as (pre & f & size & body & H).
      exists pre, f, size, body. exact H.
  - intros e f chunkSize s. split.
    + apply ReaderFacts.readData_old_depth24.
    + apply OldNewFacts.readData_same.
  - intros riffSize before f ext between size body Hwf Hext _.
    apply OldNewFacts.readWAV_wavFile_pcm24; assumption.
  - intros channels body ch i k Hk v. split; [|split].
    + apply (OldNewFacts.sampleAt_pcm24 channels body ch i Hk).
    + apply OldNewFacts.readPCM24Sample_at. exact Hk.
    + apply (ConvFacts.pcm24ToFloat_exact v), ConvFacts.sint24_range.
Qed.

(** The PCM24 file: rejected by the earlier reader; the present one
    returns the frames 0x800000 and 0x7fffff as -1 and 8388607/8388608. *)
Lemma readWAV_old_new_witness :
  readWAV_old filePCM24 1 = Err depth24 /\
  readWAV filePCM24 1 <> readWAV_old filePCM24 1 /\
  readWAV filePCM24 1
  = Ok {| SampleRate := 8000;
          Samples := [[pcm24ToFloat (-8388608); pcm24ToFloat 8388607]];
          NumSamples := 2 |}.
Proof.
  split; [vm_compute; reflexivity|].
  split.
  - apply (proj2 (proj1 readWAV_old_new filePCM24 1)).
    vm_compute. reflexivity.
  - vm_compute. reflexivity.
Defined.

(* ------------------------------------------------------------------ *)
(** ** Further properties of the reader *)
(* ------------------------------------------------------------------ *)

(** X1 (samples by position).  On a file whose fmt chunk declares a
    supported format with [blockAlign = numChannels * bytes per sample],
    followed (after any unknown chunks) by a data chunk of whole frames,
    [readWAV] returns the declared sample rate, the number of frames,
    and for channel [ch] of frame [i] the value decoded from the bytes
    at offset [(i * numChannels + ch) * bytes per sample] of the
    payload; whatever follows the data chunk is not looked at. *)
Theorem readWAV_decodes_payload
        riffSize before f ext between w n payload pad rest :
  wfFormat f = true -> 16 + Z.of_nat (List.length ext) < 2 ^ 32 ->
  forallb isUnknownChunk before = true ->
  forallb isUnknownChunk between = true ->
  bytesPerSample f = Some w ->
  0 < numChannels f -> blockAlign f = numChannels f * w ->
  Z.of_nat (List.length payload) = n * blockAlign f ->
  Z.of_nat (List.length payload) < 2 ^ 32 ->
  readWAV (wavFile riffSize before f ext between
                   (Z.of_nat (List.length payload))
                   (payload ++ padOf payload pad ++ rest))
          (numChannels f)
  = Ok {| SampleRate := sampleRate f;
          Samples := decodedSamples (decoderOf f) (Z.to_nat w)
                       (Z.to_nat (numChannels f)) (Z.to_nat n) payload;
          NumSamples := n |}.
Proof.
  intros Hwf Hext Hb1 Hb2 Hw Hch Hba Hlen Hsz.
  assert (Hwpos : 0 < w).
  { destruct (ReaderFacts.bytesPerSample_cases f w Hw)
      as [(_ & _ & ->)|[(_ & _ & ->)|(_ & _ & ->)]]; lia. }
  assert (Hn : 0 <= n) by nia.
  unfold readWAV.
  rewrite FrameFacts.readWAVWith_wavFile by (assumption || lia).
  apply (FrameFacts.readData_decoded f w n);
    [assumption|lia|nia|assumption|assumption|rewrite Hlen, Hba; reflexivity|].
  intros Hodd. unfold padOf. rewrite Hodd. cbn. discriminate.
Qed.

(** A mono PCM16 file with a LIST chunk on either side of the fmt
    chunk, the frame 00 80 and two stray bytes behind it. *)
Lemma readWAV_decodes_payload_witness :
  readWAV (wavFile 0 [listChunk] monoPCM16 [] [listChunk] 2
                   ([Byte.x00; Byte.x80] ++ padOf [Byte.x00; Byte.x80] Byte.x00
                    ++ [Byte.xff; Byte.xff])) 1
  = Ok {| SampleRate := 8000;
          Samples := decodedSamples decodePCM16 2 1 1 [Byte.x00; Byte.x80];
          NumSamples := 1 |}.
Proof.
  apply (readWAV_decodes_payload 0 [listChunk] monoPCM16 [] [listChunk] 2 1
           [Byte.x00; Byte.x80] Byte.x00 [Byte.xff; Byte.xff]);
    try reflexivity; cbn; lia.
Defined.

(** X2 (blockAlign only counts the frames).  When the fmt chunk
    declares a [blockAlign] larger than [numChannels * bytes per
    sample], [readWAV] still succeeds: it returns [size / blockAlign]
    frames and takes them back to back from the front of the payload,
    frame [i] at offset [i * numChannels * bytes per sample], not at
    [i * blockAlign]. *)
Theorem readWAV_blockAlign_counts
        riffSize before f ext between w n payload rest :
  wfFormat f = true -> 16 + Z.of_nat (List.length ext) < 2 ^ 32 ->
  forallb isUnknownChunk before = true ->
  forallb isUnknownChunk between = true ->
  bytesPerSample f = Some w ->
  0 < numChannels f -> numChannels f * w < blockAlign f ->
  Z.of_nat (List.length payload) = n * blockAlign f ->
  Z.of_nat (List.length payload) < 2 ^ 32 ->
  readWAV (wavFile riffSize before f ext between
                   (Z.of_nat (List.length payload)) (payload ++ rest))
          (numChannels f)
  = Ok {| SampleRate := sampleRate f;
          Samples := decodedSamples (decoderOf f) (Z.to_nat w)
                       (Z.to_nat (numChannels f)) (Z.to_nat n) payload;
          NumSamples := n |}.
Proof.
  intros Hwf Hext Hb1 Hb2 Hw Hch Hba Hlen Hsz.
  assert (Hwpos : 0 < w).
  { destruct (ReaderFacts.bytesPerSample_cases f w Hw)
      as [(_ & _ & ->)|[(_ & _ & ->)|(_ & _ & ->)]]; lia. }
  assert (Hn : 0 <= n) by nia.
  unfold readWAV.
  rewrite FrameFacts.readWAVWith_wavFile by (assumption || lia).
  set (k := (Z.to_nat n * (Z.to_nat (numChannels f) * Z.to_nat w))%nat).
  assert (Hk : Z.of_nat k = n * (numChannels f * w)).
  { unfold k. rewrite !Nat2Z.inj_mul, !Z2Nat.id by lia. reflexivity. }
  assert (Hkle : (k <= List.length payload)%nat) by nia.
  rewrite <- (firstn_skipn k payload) at 2 3.
  rewrite <- app_assoc.
  rewrite (FrameFacts.decodedSamples_prefix _ _ _ _ (firstn k payload)
             (skipn k payload)) by (rewrite length_firstn; lia).
  apply (FrameFacts.readData_decoded f w n);
    [assumption|lia|nia|assumption|assumption| |].
  - rewrite length_firstn. lia.
  - intros Hodd Hnil. apply (f_equal (@List.length byte)) in Hnil.
    rewrite length_app, length_skipn in Hnil. cbn [List.length] in Hnil.
    assert (n <> 0) by (intros ->; rewrite Z.mul_0_l in Hlen;
                        rewrite Hlen in Hodd; discriminate).
    nia.
Qed.

(** Stereo PCM16 declared with blockAlign 8: the eight bytes count as
    one frame, read from the first four. *)
Lemma readWAV_blockAlign_counts_witness :
  readWAV (wavFile 0 [] stereoPCM16Wide [] [] 8
                   ([Byte.x00; Byte.x40; Byte.x00; Byte.xc0;
                     Byte.x01; Byte.x02; Byte.x03; Byte.x04] ++ [])) 2
  = Ok {| SampleRate := 44100;
          Samples := decodedSamples decodePCM16 2 2 1
                       [Byte.x00; Byte.x40; Byte.x00; Byte.xc0;
                        Byte.x01; Byte.x02; Byte.x03; Byte.x04];
          NumSamples := 1 |}.
Proof.
  apply (readWAV_blockAlign_counts 0 [] stereoPCM16Wide [] [] 2 1
           [Byte.x00; Byte.x40; Byte.x00; Byte.xc0;
            Byte.x01; Byte.x02; Byte.x03; Byte.x04] []);
    try reflexivity; cbn; lia.
Defined.

(** X3 (a data chunk cut short).  When the data chunk declares more
    frames than the rest of the file holds bytes for, [readWAV] returns
    no AudioData at all but the sample-read error of the format,
    wrapping [io.EOF] when the file ends on a sample boundary and
    [io.ErrUnexpectedEOF] when it ends inside a sample. *)
Theorem readWAV_truncated_data
        riffSize before f ext between w n size body :
  wfFormat f = true -> 16 + Z.of_nat (List.length ext) < 2 ^ 32 ->
  forallb isUnknownChunk before = true ->
  forallb isUnknownChunk between = true ->
  bytesPerSample f = Some w ->
  0 < blockAlign f -> size = n * blockAlign f -> size < 2 ^ 32 ->
  Z.of_nat (List.length body) < n * (numChannels f * w) ->
  readWAV (wavFile riffSize before f ext between size body) (numChannels f)
  = Err (sampleError f (shortRead (List.length body) (Z.to_nat w))).
Proof.
  intros Hwf Hext Hb1 Hb2 Hw Hba Hsize Hsz Hlen.
  assert (Hwpos : 0 < w).
  { destruct (ReaderFacts.bytesPerSample_cases f w Hw)
      as [(_ & _ & ->)|[(_ & _ & ->)|(_ & _ & ->)]]; lia. }
  pose proof (ReaderFacts.wfFormat_bounds f Hwf) as (_ & Hnc & _).
  assert (Hn : 0 <= n) by nia.
  unfold readWAV.
  rewrite FrameFacts.readWAVWith_wavFile by (assumption || nia).
  rewrite (FrameFacts.readData_short f w n) by (assumption || lia).
  reflexivity.
Qed.

(** A mono PCM16 file that declares two frames and ends after three
    bytes, inside the second sample. *)
Lemma readWAV_truncated_data_witness :
  readWAV (wavFile 0 [] monoPCM16 [] [] 4 [Byte.x00; Byte.x80; Byte.x01]) 1
  = Err (ErrReadPCM16Sample ErrUnexpectedEOF).
Proof.
  apply (readWAV_truncated_data 0 [] monoPCM16 [] [] 2 2 4
           [Byte.x00; Byte.x80; Byte.x01]);
    try reflexivity; cbn; lia.
Defined.

(** X4 (the pad byte is demanded).  A data chunk of odd size that ends
    the file without its pad byte is rejected with "read data pad
    byte: EOF", although every sample of it was read. *)
Theorem readWAV_missing_pad_byte
        riffSize before f ext between w n payload :
  wfFormat f = true -> 16 + Z.of_nat (List.length ext) < 2 ^ 32 ->
  forallb isUnknownChunk before = true ->
  forallb isUnknownChunk between = true ->
  bytesPerSample f = Some w ->
  0 < numChannels f -> blockAlign f = numChannels f * w ->
  Z.of_nat (List.length payload) = n * blockAlign f ->
  Z.of_nat (List.length payload) < 2 ^ 32 ->
  Z.of_nat (List.length payload) mod 2 = 1 ->
  readWAV (wavFile riffSize before f ext between
                   (Z.of_nat (List.length payload)) payload)
          (numChannels f)
  = Err (ErrReadDataPadByte EOF).
Proof.
  intros Hwf Hext Hb1 Hb2 Hw Hch Hba Hlen Hsz Hodd.
  assert (Hwpos : 0 < w).
  { destruct (ReaderFacts.bytesPerSample_cases f w Hw)
      as [(_ & _ & ->)|[(_ & _ & ->)|(_ & _ & ->)]]; lia. }
  assert (Hn : 0 <= n) by nia.
  unfold readWAV.
  rewrite FrameFacts.readWAVWith_wavFile by (assumption || lia).
  rewrite (FrameFacts.readData_no_pad f w n);
    [reflexivity|assumption|lia|nia|assumption|assumption| |assumption].
  rewrite Hlen, Hba. reflexivity.
Qed.

(** A mono PCM24 file of one frame: three bytes and the end. *)
Lemma readWAV_missing_pad_byte_witness :
  readWAV (wavFile 0 [] monoPCM24 [] [] 3 [Byte.x00; Byte.x00; Byte.x80]) 1
  = Err (ErrReadDataPadByte EOF).
Proof.
  apply (readWAV_missing_pad_byte 0 [] monoPCM24 [] [] 3 1
           [Byte.x00; Byte.x00; Byte.x80]);
    try reflexivity; cbn; lia.
Defined.

(** X5 (no data chunk).  A file that ends without a data chunk, with or
    without a fmt chunk among its unknown chunks, is rejected with "no
    data chunk found"; the fmt chunk alone is never an error, and never
    a result. *)
Theorem readWAV_no_data_chunk riffSize before f ext between e :
  wfFormat f = true -> 16 + Z.of_nat (List.length ext) < 2 ^ 32 ->
  forallb isUnknownChunk before = true ->
  forallb isUnknownChunk between = true ->
  readWAV (riffHeader riffSize ++ chunksBytes before) e = Err ErrNoDataChunk /\
  readWAV (riffHeader riffSize ++ chunksBytes before ++ fmtBytes f ext ++
           chunksBytes between) e
  = Err ErrNoDataChunk.
Proof.
  intros Hwf Hext Hb1 Hb2. unfold readWAV. split.
  - rewrite ReaderFacts.readWAVWith_riff.
    rewrite <- (app_nil_r (chunksBytes before)).
    rewrite ReaderFacts.chunkLoop_unknowns by assumption.
    apply FrameFacts.chunkLoop_nil.
  - rewrite ReaderFacts.readWAVWith_riff.
    rewrite ReaderFacts.chunkLoop_unknowns by assumption.
    rewrite ReaderFacts.chunkLoop_fmt by assumption.
    rewrite <- (app_nil_r (chunksBytes between)).
    rewrite ReaderFacts.chunkLoop_unknowns by assumption.
    apply FrameFacts.chunkLoop_nil.
Qed.

Lemma readWAV_no_data_chunk_witness :
  readWAV (riffHeader 0 ++ chunksBytes [listChunk]) 1 = Err ErrNoDataChunk /\
  readWAV (riffHeader 0 ++ chunksBytes [listChunk] ++ fmtBytes monoPCM16 [] ++
           chunksBytes [listChunk]) 1
  = Err ErrNoDataChunk.
Proof.
  apply (readWAV_no_data_chunk 0 [listChunk] monoPCM16 [] [listChunk] 1);
    try reflexivity; cbn; lia.
Defined.

(** X6 (the last fmt chunk counts).  When a file holds two fmt chunks
    in front of its data chunk, the data chunk is read under the second
    one: the result is that of the file without the first fmt chunk
    and without the unknown chunks around it. *)
Theorem readWAV_last_fmt_wins
        riffSize before f1 ext1 between f2 ext2 rest e :
  wfFormat f1 = true -> 16 + Z.of_nat (List.length ext1) < 2 ^ 32 ->
  wfFormat f2 = true -> 16 + Z.of_nat (List.length ext2) < 2 ^ 32 ->
  forallb isUnknownChunk before = true ->
  forallb isUnknownChunk between = true ->
  readWAV (riffHeader riffSize ++ chunksBytes before ++ fmtBytes f1 ext1 ++
           chunksBytes between ++ fmtBytes f2 ext2 ++ rest) e
  = readWAV (riffHeader riffSize ++ fmtBytes f2 ext2 ++ rest) e.
Proof.
  intros Hwf1 Hext1 Hwf2 Hext2 Hb1 Hb2. unfold readWAV.
  rewrite !ReaderFacts.readWAVWith_riff.
  rewrite ReaderFacts.chunkLoop_unknowns by assumption.
  rewrite ReaderFacts.chunkLoop_fmt by assumption.
  rewrite ReaderFacts.chunkLoop_unknowns by assumption.
  rewrite !ReaderFacts.chunkLoop_fmt by assumption.
  reflexivity.
Qed.

(** A stereo fmt chunk overridden by a mono one: the file reads as
    mono. *)
Lemma readWAV_last_fmt_wins_witness :
  readWAV (riffHeader 0 ++ chunksBytes [] ++ fmtBytes stereoPCM16 [] ++
           chunksBytes [listChunk] ++ fmtBytes monoPCM16 [] ++ dataMin16) 1
  = readWAV (riffHeader 0 ++ fmtBytes monoPCM16 [] ++ dataMin16) 1.
Proof.
  apply (readWAV_last_fmt_wins 0 [] stereoPCM16 [] [listChunk] monoPCM16 []
           dataMin16 1);
    try reflexivity; cbn; lia.
Defined.

(** X7 (formats without a decoder).  With the channel count as
    expected, a non-zero [blockAlign] and a data size that is a multiple
    of it, a format other than PCM 16, PCM 24 and float 32 is rejected
    whatever the data chunk holds: PCM with "unsupported PCM bit depth",
    IEEE float with "unsupported IEEE float bit depth", any other format
    code with "unsupported WAV audio format". *)
Theorem readWAV_unsupported_format
        riffSize before f ext between n size body :
  wfFormat f = true -> 16 + Z.of_nat (List.length ext) < 2 ^ 32 ->
  forallb isUnknownChunk before = true ->
  forallb isUnknownChunk between = true ->
  bytesPerSample f = None ->
  0 < blockAlign f -> size = n * blockAlign f -> 0 <= size < 2 ^ 32 ->
  readWAV (wavFile riffSize before f ext between size body) (numChannels f)
  = Err (unsupportedError f).
Proof.
  intros Hwf Hext Hb1 Hb2 Hw Hba -> Hsz. unfold readWAV.
  rewrite FrameFacts.readWAVWith_wavFile by assumption.
  unfold readData, fail. rewrite Z.eqb_refl.
  replace (blockAlign f =? 0) with false by (symmetry; apply Z.eqb_neq; lia).
  rewrite Z.mod_mul by lia. cbn [negb Z.eqb]. unfold bind.
  rewrite FrameFacts.readSamples_unsupported by assumption. reflexivity.
Qed.

(** Mono 8-bit PCM. *)
Lemma readWAV_unsupported_format_witness :
  readWAV (wavFile 0 [] monoPCM8 [] [] 2 [Byte.x80; Byte.x7f]) 1
  = Err (ErrUnsupportedPCMBitDepth 8).
Proof.
  apply (readWAV_unsupported_format 0 [] monoPCM8 [] [] 2 2
           [Byte.x80; Byte.x7f]);
    try reflexivity; cbn; lia.
Defined.

(** X8 (the block size is checked before the format).  With the channel
    count as expected, a fmt chunk whose [blockAlign] is 0 is rejected
    with "invalid blockAlign=0", and a data size that is no multiple of
    [blockAlign] with "data chunk not aligned to block size"; neither
    depends on the audio format, on the bit depth or on the bytes of
    the data chunk. *)
Theorem readWAV_block_checks riffSize before f ext between size body :
  wfFormat f = true -> 16 + Z.of_nat (List.length ext) < 2 ^ 32 ->
  forallb isUnknownChunk before = true ->
  forallb isUnknownChunk between = true ->
  0 <= size < 2 ^ 32 ->
  (blockAlign f = 0 ->
   readWAV (wavFile riffSize before f ext between size body) (numChannels f)
   = Err ErrInvalidBlockAlign) /\
  (blockAlign f <> 0 -> size mod blockAlign f <> 0 ->
   readWAV (wavFile riffSize before f ext between size body) (numChannels f)
   = Err ErrDataNotAligned).
Proof.
  intros Hwf Hext Hb1 Hb2 Hsz. unfold readWAV.
  rewrite FrameFacts.readWAVWith_wavFile by assumption.
  unfold readData, fail. rewrite Z.eqb_refl. cbn [negb]. split.
  - intros ->. reflexivity.
  - intros Hba Hmod.
    replace (blockAlign f =? 0) with false by (symmetry; apply Z.eqb_neq; lia).
    replace (size mod blockAlign f =? 0) with false
      by (symmetry; apply Z.eqb_neq; lia).
    reflexivity.
Qed.

Lemma readWAV_block_checks_witness :
  readWAV (wavFile 0 [] monoPCM16NoAlign [] [] 2 [Byte.x00; Byte.x80]) 1
  = Err ErrInvalidBlockAlign /\
  readWAV (wavFile 0 [] monoPCM16 [] [] 3 [Byte.x00; Byte.x80; Byte.x01]) 1
  = Err ErrDataNotAligned.
Proof.
  split.
  - apply (proj1 (readWAV_block_checks 0 [] monoPCM16NoAlign [] [] 2
                    [Byte.x00; Byte.x80] eq_refl ltac:(cbn; lia) eq_refl eq_refl
                    ltac:(lia))).
    reflexivity.
  - apply (proj2 (readWAV_block_checks 0 [] monoPCM16 [] [] 3
                    [Byte.x00; Byte.x80; Byte.x01] eq_refl ltac:(cbn; lia)
                    eq_refl eq_refl ltac:(lia))).
    + cbn. discriminate.
    + cbn. discriminate.
Defined.

(** X9 (bytes behind the data chunk).  Whatever [readWAV] returns for
    a stream it returns for every stream that continues it: the reader
    stops at the end of the first data chunk, so appended bytes (further
    chunks, a second data chunk, garbage) never change a result. *)
Theorem readWAV_ignores_appended r e a x :
  readWAV r e = Ok a -> readWAV (r ++ x) e = Ok a.
Proof. apply StreamFacts.readWAV_stable. Qed.

Lemma readWAV_ignores_appended_witness :
  readWAV (fileFmtFirst ++ dataMin16) 1
  = Ok {| SampleRate := 8000;
          Samples := [[pcm16ToFloat (-32768)]];
          NumSamples := 1 |}.
Proof.
  apply (readWAV_ignores_appended fileFmtFirst 1). vm_compute. reflexivity.
Defined.

(** X10 (no sample without its bytes).  Every stream [readWAV] accepts
    begins with "RIFF", four bytes, "WAVE", and is at least 44 bytes
    long (the header, a fmt chunk and the header of the data chunk)
    plus two bytes for every sample returned: [NumSamples] is never
    negative and never more than the stream has bytes for.  The
    expected channel count of a successful read is a uint16. *)
Theorem readWAV_minimum_length r e a :
  readWAV r e = Ok a ->
  firstn 4 r = writeString "RIFF" /\
  firstn 4 (skipn 8 r) = writeString "WAVE" /\
  0 <= e < 2 ^ 16 /\ 0 <= NumSamples a /\
  44 + 2 * e * NumSamples a <= Z.of_nat (List.length r).
Proof.
  unfold readWAV, readWAVWith.
  destruct (readHeader r) as [[u s]|?] eqn:E; [|discriminate].
  apply StreamFacts.readHeader_inv in E. destruct E as (H1 & H2 & H3).
  intros H.
  destruct (StreamFacts.chunkLoop_length a e (S (List.length s)) s None
              ltac:(lia) I H) as (H4 & H5 & H6).
  split; [exact H1|]. split; [exact H2|]. split; [exact H4|].
  split; [exact H5|]. lia.
Qed.

Lemma readWAV_minimum_length_witness :
  firstn 4 fileFmtFirst = writeString "RIFF" /\
  firstn 4 (skipn 8 fileFmtFirst) = writeString "WAVE" /\
  0 <= 1 < 2 ^ 16 /\ 0 <= 1 /\
  44 + 2 * 1 * 1 <= Z.of_nat (List.length fileFmtFirst).
Proof.
  apply (readWAV_minimum_length fileFmtFirst 1
           {| SampleRate := 8000;
              Samples := [[pcm16ToFloat (-32768)]];
              NumSamples := 1 |}).
  vm_compute. reflexivity.
Defined.

(** X11 (the 24-bit sample).  [readPCM24Sample] returns, for three
    bytes, their little-endian two's-complement value, an integer of
    [-8388608, 8388607], and leaves the stream behind them; on an empty
    stream it reports [io.EOF], on one or two bytes
    [io.ErrUnexpectedEOF]. *)
Theorem readPCM24Sample_spec :
  (forall b0 b1 b2 rest,
     readPCM24Sample (b0 :: b1 :: b2 :: rest) = inr (sint24 b0 b1 b2, rest) /\
     -8388608 <= sint24 b0 b1 b2 <= 8388607) /\
  readPCM24Sample [] = inl EOF /\
  (forall b0, readPCM24Sample [b0] = inl ErrUnexpectedEOF) /\
  (forall b0 b1, readPCM24Sample [b0; b1] = inl ErrUnexpectedEOF).
Proof.
  split; [|repeat split].
  intros b0 b1 b2 rest. split.
  - apply ConvFacts.readPCM24Sample_3.
  - apply ConvFacts.sint24_range.
Qed.

(** X12 (24-bit samples are exact).  The sample the PCM24 loop stores
    for three bytes is a finite float64 whose value is exactly their
    two's-complement value over 8388608: the division rounds nothing
    away. *)
Theorem readPCM24_exact b0 b1 b2 rest :
  exists x,
    readPCM24 (b0 :: b1 :: b2 :: rest) = Ok (x, rest) /\
    is_finite x = true /\ valid x = true /\
    (toQ x == sint24 b0 b1 b2 # 8388608)%Q.
Proof.
  exists (pcm24ToFloat (sint24 b0 b1 b2)).
  split; [apply ConvFacts.readPCM24_spec|].
  apply ConvFacts.pcm24ToFloat_exact, ConvFacts.sint24_range.
Qed.

(* ------------------------------------------------------------------ *)
(** ** Further properties of the writers *)
(* ------------------------------------------------------------------ *)

(** X13 (what the writers accept).  Either writer produces a file
    exactly when [Samples] has [channels] channels, [NumSamples] is not
    negative and every channel holds at least [NumSamples] samples; on
    any other frame both return the same error and write nothing. *)
Theorem writers_validate data channels :
  ((exists bytes, writeWAVPCM16ToWriter data channels = Ok bytes)
   <-> writable data channels) /\
  ((exists bytes, writeWAVFloat32ToWriter data channels = Ok bytes)
   <-> writable data channels) /\
  (forall e, writeWAVPCM16ToWriter data channels = Err e
             <-> writeWAVFloat32ToWriter data channels = Err e).
Proof.
  pose proof (WriterFacts.checkOutput_None data channels) as H.
  unfold writeWAVPCM16ToWriter, writeWAVFloat32ToWriter.
  destruct (checkOutput data channels) as [e|].
  - split; [|split].
    + split; [intros [b Hb]; discriminate|].
      intros Hw. apply H in Hw. discriminate.
    + split; [intros [b Hb]; discriminate|].
      intros Hw. apply H in Hw. discriminate.
    + intros e'. split; trivial.
  - split; [|split].
    + split; [intros _; apply H; reflexivity|]. intros _. eexists. reflexivity.
    + split; [intros _; apply H; reflexivity|]. intros _. eexists. reflexivity.
    + intros e'. split; discriminate.
Qed.

(** X14 (which error a writer reports).  The channel count is checked
    first, then the sign of [NumSamples], then the channels in order:
    a frame with the wrong number of channels is rejected with "output
    must have ... channels" whatever else is wrong with it; with the
    right number and a negative [NumSamples], with "NumSamples must be
    >= 0"; and the channel named by "channel ... has ... samples" is
    the first one shorter than [NumSamples], reported with its
    length. *)
Theorem writer_errors data channels :
  (Z.of_nat (List.length (Samples data)) <> channels ->
   writeWAVPCM16ToWriter data channels
   = Err (ErrOutputChannels channels (Z.of_nat (List.length (Samples data))))) /\
  (Z.of_nat (List.length (Samples data)) = channels -> NumSamples data < 0 ->
   writeWAVPCM16ToWriter data channels = Err ErrNumSamplesNegative) /\
  (forall ch len want,
     writeWAVPCM16ToWriter data channels = Err (ErrChannelTooShort ch len want) ->
     want = NumSamples data /\ 0 <= ch < channels /\
     len = Z.of_nat (List.length (nth (Z.to_nat ch) (Samples data) [])) /\
     len < want /\
     forall c, (c < Z.to_nat ch)%nat ->
       NumSamples data <= Z.of_nat (List.length (nth c (Samples data) []))).
Proof.
  unfold writeWAVPCM16ToWriter, checkOutput.
  destruct (Z.eqb_spec (Z.of_nat (List.length (Samples data))) channels)
    as [Hc|Hc]; cbn [negb].
  - split; [intros H; contradiction|].
    destruct (Z.ltb_spec (NumSamples data) 0) as [Hn|Hn].
    + split; [reflexivity|]. intros ch len want H. discriminate.
    + split; [intros _ H; lia|].
      intros ch len want H.
      destruct (checkChannels (Samples data) (NumSamples data)
                              (Z.to_nat channels) 0) as [e|] eqn:E;
        [|discriminate].
      injection H as ->.
      apply WriterFacts.checkChannels_Some in E.
      destruct E as (c & Hcr & He & Hlt & Hall).
      injection He as -> -> ->. rewrite Nat2Z.id.
      split; [reflexivity|]. split; [lia|]. split; [reflexivity|].
      split; [assumption|]. intros c' Hc'. apply Hall. lia.
  - split; [reflexivity|]. split; [intros H; contradiction|].
    intros ch len want H. discriminate.
Qed.

(** A stereo frame with [NumSamples = 2] whose second channel holds
    one sample. *)
Lemma writer_errors_witness :
  2 = NumSamples shortStereo /\ 0 <= 1 < 2 /\
  1 = Z.of_nat (List.length (nth (Z.to_nat 1) (Samples shortStereo) [])) /\
  1 < 2 /\
  forall c, (c < Z.to_nat 1)%nat ->
    NumSamples shortStereo
    <= Z.of_nat (List.length (nth c (Samples shortStereo) [])).
Proof.
  apply (proj2 (proj2 (writer_errors shortStereo 2)) 1 1 2). reflexivity.
Defined.

(** X15 (PCM16 files read back).  For a frame the writer accepts, with
    a sample rate that fits uint32, fewer than 32768 channels and a
    data size below 2^32 bytes, the PCM16 writer produces
    [44 + 2 * channels * NumSamples] bytes, and [readWAV] reads them
    back as the same sample rate and [NumSamples], each channel cut to
    its first [NumSamples] samples and each sample [v] replaced by
    [floatToPCM16(v) / 32768]. *)
Theorem pcm16_write_read data channels :
  writable data channels ->
  0 <= SampleRate data < 2 ^ 32 -> 0 < channels < 2 ^ 15 ->
  NumSamples data * (2 * channels) < 2 ^ 32 ->
  exists bytes,
    writeWAVPCM16ToWriter data channels = Ok bytes /\
    Z.of_nat (List.length bytes) = 44 + 2 * channels * NumSamples data /\
    readWAV bytes channels = Ok (readBack pcm16RoundTrip data).
Proof. apply WriterFacts.readWAV_writeWAVPCM16. Qed.

Lemma pcm16_write_read_witness :
  exists bytes,
    writeWAVPCM16ToWriter stereoIn 2 = Ok bytes /\
    Z.of_nat (List.length bytes) = 44 + 2 * 2 * NumSamples stereoIn /\
    readWAV bytes 2 = Ok (readBack pcm16RoundTrip stereoIn).
Proof.
  apply (pcm16_write_read stereoIn 2).
  - split; [reflexivity|]. split; [cbn; lia|].
    repeat constructor; cbn; lia.
  - cbn. lia.
  - lia.
  - cbn. lia.
Defined.

(** X16 (float32 files read back).  For a frame the writer accepts,
    with a sample rate that fits uint32, fewer than 16384 channels and
    a data size below 2^32 bytes, the float32 writer produces
    [44 + 4 * channels * NumSamples] bytes, and [readWAV] reads them
    back as the same sample rate and [NumSamples], each channel cut to
    its first [NumSamples] samples and each sample replaced by what the
    reader makes of the float32 the writer stored for it. *)
Theorem float32_write_read data channels :
  writable data channels ->
  0 <= SampleRate data < 2 ^ 32 -> 0 < channels < 2 ^ 14 ->
  NumSamples data * (4 * channels) < 2 ^ 32 ->
  exists bytes,
    writeWAVFloat32ToWriter data channels = Ok bytes /\
    Z.of_nat (List.length bytes) = 44 + 4 * channels * NumSamples data /\
    readWAV bytes channels = Ok (readBack float32RoundTrip data).
Proof. apply WriterFacts.readWAV_writeWAVFloat32. Qed.

Lemma float32_write_read_witness :
  exists bytes,
    writeWAVFloat32ToWriter stereoIn 2 = Ok bytes /\
    Z.of_nat (List.length bytes) = 44 + 4 * 2 * NumSamples stereoIn /\
    readWAV bytes 2 = Ok (readBack float32RoundTrip stereoIn).
Proof.
  apply (float32_write_read stereoIn 2).
  - split; [reflexivity|]. split; [cbn; lia|].
    repeat constructor; cbn; lia.
  - cbn. lia.
  - lia.
  - cbn. lia.
Defined.

(* ------------------------------------------------------------------ *)
(** ** Streams the reader gives up on *)
(* ------------------------------------------------------------------ *)

(** X17 (the RIFF header).  A stream of one to three bytes is rejected
    with "read RIFF header: unexpected EOF"; a longer one that does not
    begin with "RIFF" with "not a RIFF file"; one of twelve bytes or more
    that begins with "RIFF" but has no "WAVE" at offset 8 with "not a
    WAVE file".  The RIFF size field is read and never looked at: two
    files that differ in it alone give the same result. *)
Theorem readWAV_header r e :
  ((0 < List.length r < 4)%nat ->
   readWAV r e = Err (ErrReadRIFFHeader ErrUnexpectedEOF)) /\
  ((4 <= List.length r)%nat -> firstn 4 r <> writeString "RIFF" ->
   readWAV r e = Err ErrNotRIFF) /\
  ((12 <= List.length r)%nat -> firstn 4 r = writeString "RIFF" ->
   firstn 4 (skipn 8 r) <> writeString "WAVE" ->
   readWAV r e = Err ErrNotWAVE) /\
  (forall size1 size2 rest,
     r = riffHeader size1 ++ rest ->
     readWAV r e = readWAV (riffHeader size2 ++ rest) e).
Proof.
  split; [|split; [|split]];
    [unfold readWAV, readWAVWith, readHeader, bind, wrap, fail, ret ..|].
  - intros H. rewrite StreamFacts.ReadFull_short by lia.
    destruct r; [cbn in H; lia|reflexivity].
  - intros H Hne. rewrite StreamFacts.ReadFull_enough by assumption.
    rewrite StreamFacts.neqb_bytes by exact Hne. reflexivity.
  - intros H Hriff Hne. rewrite StreamFacts.ReadFull_enough by lia.
    rewrite Hriff.
    change (string_of_list_byte (writeString "RIFF") =? "RIFF")%string with true.
    cbn [negb]. unfold readUint.
    rewrite StreamFacts.ReadFull_enough by (rewrite length_skipn; lia).
    rewrite StreamFacts.ReadFull_enough by (rewrite !length_skipn; lia).
    rewrite !skipn_skipn. cbn [Nat.add].
    rewrite StreamFacts.neqb_bytes by exact Hne. reflexivity.
  - intros size1 size2 rest ->. unfold readWAV.
    rewrite !ReaderFacts.readWAVWith_riff. reflexivity.
Qed.

(** A RIFF file of another form type. *)
Lemma readWAV_header_witness :
  readWAV (writeString "RIFF" ++ le_split 4 4 ++ writeString "AVI ") 2
  = Err ErrNotWAVE.
Proof.
  apply (proj1 (proj2 (proj2 (readWAV_header
           (writeString "RIFF" ++ le_split 4 4 ++ writeString "AVI ") 2))));
    [vm_compute; lia|reflexivity|vm_compute; discriminate].
Defined.

(** X18 (a chunk header cut short).  Behind the RIFF header and any
    unknown chunks, one to three stray bytes are rejected with "read
    chunk id: unexpected EOF", and a chunk identifier followed by fewer
    than four bytes with "read chunk size", wrapping [io.EOF] when
    nothing follows the identifier and [io.ErrUnexpectedEOF]
    otherwise. *)
Theorem readWAV_truncated_chunk_header riffSize before id tail e :
  forallb isUnknownChunk before = true ->
  ((0 < List.length tail < 4)%nat ->
   readWAV (riffHeader riffSize ++ chunksBytes before ++ tail) e
   = Err (ErrReadChunkID ErrUnexpectedEOF)) /\
  (List.length id = 4%nat -> (List.length tail < 4)%nat ->
   readWAV (riffHeader riffSize ++ chunksBytes before ++ id ++ tail) e
   = Err (ErrReadChunkSize
            (match tail with [] => EOF | _ :: _ => ErrUnexpectedEOF end))).
Proof.
  intros Hb. unfold readWAV. rewrite !ReaderFacts.readWAVWith_riff.
  rewrite !ReaderFacts.chunkLoop_unknowns by assumption.
  rewrite !ReaderFacts.chunkLoop_step. split.
  - intros H. rewrite StreamFacts.ReadFull_short by lia.
    destruct tail; [cbn in H; lia|reflexivity].
  - intros Hid H. rewrite ReaderFacts.ReadFull_app by assumption.
    unfold wrap, readUint. rewrite StreamFacts.ReadFull_short by assumption.
    reflexivity.
Qed.

Lemma readWAV_truncated_chunk_header_witness :
  readWAV (riffHeader 0 ++ chunksBytes [listChunk] ++
           writeString "data" ++ [Byte.x02; Byte.x00]) 1
  = Err (ErrReadChunkSize ErrUnexpectedEOF).
Proof.
  apply (proj2 (readWAV_truncated_chunk_header 0 [listChunk]
                  (writeString "data") [Byte.x02; Byte.x00] 1 eq_refl));
    [reflexivity|cbn; lia].
Defined.

(** X19 (an unknown chunk that overruns the file).  An unknown chunk
    whose declared size exceeds the bytes left is rejected with "skip
    chunk <id>: EOF"; one of odd size that ends the file without its
    pad byte with "read pad byte: EOF". *)
Theorem readWAV_unknown_chunk_overrun riffSize before id size body e :
  forallb isUnknownChunk before = true ->
  List.length id = 4%nat ->
  (string_of_list_byte id =? "fmt ")%string = false ->
  (string_of_list_byte id =? "data")%string = false ->
  0 <= size < 2 ^ 32 ->
  (Z.of_nat (List.length body) < size ->
   readWAV (riffHeader riffSize ++ chunksBytes before ++
            id ++ le_split 4 size ++ body) e
   = Err (ErrSkipChunk (string_of_list_byte id) EOF)) /\
  (Z.of_nat (List.length body) = size -> size mod 2 = 1 ->
   readWAV (riffHeader riffSize ++ chunksBytes before ++
            id ++ le_split 4 size ++ body) e
   = Err (ErrReadPadByte EOF)).
Proof.
  intros Hb Hid Hfmt Hdata Hsz. unfold readWAV.
  rewrite !ReaderFacts.readWAVWith_riff.
  rewrite !ReaderFacts.chunkLoop_unknowns by assumption.
  rewrite !StreamFacts.chunkLoop_other by assumption.
  unfold skipChunk, bind, wrap. split.
  - intros H. rewrite StreamFacts.CopyN_short by assumption. reflexivity.
  - intros H Hodd. rewrite <- H.
    rewrite <- (app_nil_r body) at 2. rewrite ReaderFacts.CopyN_app.
    rewrite H, Hodd. reflexivity.
Qed.

(** A LIST chunk that declares ten bytes and holds three. *)
Lemma readWAV_unknown_chunk_overrun_witness :
  readWAV (riffHeader 0 ++ chunksBytes [] ++
           writeString "LIST" ++ le_split 4 10 ++
           [Byte.x01; Byte.x02; Byte.x03]) 1
  = Err (ErrSkipChunk "LIST" EOF).
Proof.
  apply (proj1 (readWAV_unknown_chunk_overrun 0 [] (writeString "LIST") 10
                  [Byte.x01; Byte.x02; Byte.x03] 1
                  eq_refl eq_refl eq_refl eq_refl ltac:(lia))).
  cbn. lia.
Defined.

(** X20 (the fmt chunk).  A fmt chunk that declares fewer than sixteen
    bytes is rejected with "invalid fmt chunk size", whatever follows
    it; one that declares more has the bytes beyond the sixteenth
    skipped, and is rejected with "skip fmt extension: EOF" when the
    file ends before them.  No pad byte is consumed behind a fmt chunk
    of odd size: the next chunk is looked for right behind the declared
    bytes. *)
Theorem readWAV_fmt_chunk riffSize before e :
  forallb isUnknownChunk before = true ->
  (forall size rest, 0 <= size < 16 ->
     readWAV (riffHeader riffSize ++ chunksBytes before ++
              writeString "fmt " ++ le_split 4 size ++ rest) e
     = Err (ErrInvalidFmtChunkSize size)) /\
  (forall f size ext, wfFormat f = true ->
     16 + Z.of_nat (List.length ext) < size < 2 ^ 32 ->
     readWAV (riffHeader riffSize ++ chunksBytes before ++
              writeString "fmt " ++ le_split 4 size ++
              le_split 2 (audioFormat f) ++ le_split 2 (numChannels f) ++
              le_split 4 (sampleRate f) ++ le_split 4 (byteRate f) ++
              le_split 2 (blockAlign f) ++ le_split 2 (bitsPerSample f) ++
              ext) e
     = Err (ErrSkipFmtExtension EOF)) /\
  (forall f ext rest, wfFormat f = true ->
     16 + Z.of_nat (List.length ext) < 2 ^ 32 ->
     readWAV (riffHeader riffSize ++ chunksBytes before ++
              fmtBytes f ext ++ rest) e
     = chunkLoop readSamples e (Some f) rest).
Proof.
  intros Hb. unfold readWAV. split; [|split].
  - intros size rest Hsz.
    rewrite ReaderFacts.readWAVWith_riff.
    rewrite ReaderFacts.chunkLoop_unknowns by assumption.
    rewrite StreamFacts.chunkLoop_fmt_header by lia.
    unfold readFmt, fail.
    replace (size <? 16) with true by (symmetry; apply Z.ltb_lt; lia).
    reflexivity.
  - intros f size ext Hwf Hsz.
    pose proof (ReaderFacts.wfFormat_bounds f Hwf) as (H1 & H2 & H3 & H4 & H5 & H6).
    rewrite ReaderFacts.readWAVWith_riff.
    rewrite ReaderFacts.chunkLoop_unknowns by assumption.
    rewrite StreamFacts.chunkLoop_fmt_header by lia.
    unfold readFmt, fail, bind, wrap, ret.
    replace (size <? 16) with false by (symmetry; apply Z.ltb_ge; lia).
    rewrite !ReaderFacts.readUint_app_small
      by (change (Z.of_nat 4 * 8) with 32; change (Z.of_nat 2 * 8) with 16; lia).
    replace (0 <? size - 16) with true by (symmetry; apply Z.ltb_lt; lia).
    rewrite StreamFacts.CopyN_short by lia. reflexivity.
  - intros f ext rest Hwf Hsz.
    rewrite ReaderFacts.readWAVWith_riff.
    rewrite ReaderFacts.chunkLoop_unknowns by assumption.
    rewrite ReaderFacts.chunkLoop_fmt by assumption. reflexivity.
Qed.

Lemma readWAV_fmt_chunk_witness :
  readWAV (riffHeader 0 ++ chunksBytes [listChunk] ++
           writeString "fmt " ++ le_split 4 14 ++ dataMin16) 1
  = Err (ErrInvalidFmtChunkSize 14).
Proof.
  apply (proj1 (readWAV_fmt_chunk 0 [listChunk] 1 eq_refl) 14 dataMin16). lia.
Defined.

(* ------------------------------------------------------------------ *)
(** ** How far a sample moves *)
(* ------------------------------------------------------------------ *)

(** X21 (the accuracy of a PCM16 round trip).  A finite sample of
    [-1, 1] that is written as PCM16 and read back comes within 2/32768
    of itself: at most half a step from rounding (and the rounding of
    the float64 product), and at most one step from the two scale
    factors, 32767 on the way out and 32768 on the way in. *)
Theorem pcm16_round_trip_error v :
  valid v = true -> is_finite v = true -> (- (1) <= toQ v <= 1)%Q ->
  (Qabs (toQ (pcm16RoundTrip v) - toQ v) <= 1 # 16384)%Q.
Proof.
  intros Hv Hf [Hlo Hhi].
  destruct (geb v one) eqn:Hge.
  { pose proof (RoundFacts.ge_one_toQ v Hv Hf Hge) as H1.
    unfold pcm16RoundTrip, floatToPCM16.
    replace (IsNaN v || IsInf v) with false by (destruct v; discriminate || reflexivity).
    rewrite Hge.
    destruct (ConvFacts.pcm16ToFloat_exact 32767 ltac:(lia)) as (_ & _ & Hq).
    rewrite Hq. apply Qabs_Qle_condition.
    set (x := toQ v) in *. clearbody x. split; lra. }
  destruct (leb v mone) eqn:Hle.
  { pose proof (RoundFacts.le_mone_toQ v Hv Hf Hle) as H1.
    unfold pcm16RoundTrip, floatToPCM16.
    replace (IsNaN v || IsInf v) with false by (destruct v; discriminate || reflexivity).
    rewrite Hge, Hle.
    destruct (ConvFacts.pcm16ToFloat_exact (-32768) ltac:(lia)) as (_ & _ & Hq).
    rewrite Hq. apply Qabs_Qle_condition.
    set (x := toQ v) in *. clearbody x. split; lra. }
  destruct v as [s|s| |s m e]; try discriminate Hf.
  - clear. destruct s; vm_compute; intros H; discriminate H.
  - apply RoundFacts.pcm16RoundTrip_near; assumption.
Qed.

(** At 0.1: written as 3277, read back as 3277/32768. *)
Lemma pcm16_round_trip_error_witness :
  (Qabs (toQ (pcm16RoundTrip (decimal 1 10)) - toQ (decimal 1 10))
   <= 1 # 16384)%Q.
Proof.
  apply (pcm16_round_trip_error (decimal 1 10)); try reflexivity.
  split; vm_compute; discriminate.
Defined.

(** X22 (reading and writing again).  The sample read for the int16
    [n] is written back as [n] itself when [|n| <= 16384] and when
    [n = -32768], and as the next integer towards zero otherwise: a
    PCM16 file that is read and written again keeps its quiet samples
    and lowers every sample beyond half scale by one step. *)
Theorem pcm16_reencode n :
  -32768 <= n <= 32767 -> floatToPCM16 (pcm16ToFloat n) = reencoded n.
Proof.
  intros Hn.
  destruct (Z.eq_dec n (-32768)) as [->|H1]; [vm_compute; reflexivity|].
  destruct (Z.eq_dec n 0) as [->|H2]; [vm_compute; reflexivity|].
  destruct (Z.eq_dec n 16384) as [->|H3]; [vm_compute; reflexivity|].
  destruct (Z.eq_dec n (-16384)) as [->|H4]; [vm_compute; reflexivity|].
  apply RoundFacts.reencode_inner; lia.
Qed.

(** Full scale: 32767 is read as 32767/32768 and written as 32766. *)
Lemma pcm16_reencode_witness :
  floatToPCM16 (pcm16ToFloat 32767) = 32766.
Proof. apply (pcm16_reencode 32767). lia. Defined.

(** X23 (float32 holds every PCM sample).  A sample read from a PCM16
    or a PCM24 file survives the float32 writer and reader unchanged:
    for every int16 [n] the float64 [n / 32768], and for every 24-bit
    [n] the float64 [n / 8388608], is written as a float32 and read
    back as the very same float64. *)
Theorem float32_keeps_pcm :
  (forall n, -32768 <= n <= 32767 ->
     float32RoundTrip (pcm16ToFloat n) = pcm16ToFloat n) /\
  (forall n, -8388608 <= n <= 8388607 ->
     float32RoundTrip (pcm24ToFloat n) = pcm24ToFloat n).
Proof.
  split; intros n Hn.
  - destruct (Z.eq_dec n 0) as [->|H0]; [vm_compute; reflexivity|].
    destruct (Z.eq_dec n (-32768)) as [->|H1]; [vm_compute; reflexivity|].
    apply (F32Facts.float32RoundTrip_div n 32768 15);
      [reflexivity|lia|assumption|lia].
  - destruct (Z.eq_dec n 0) as [->|H0]; [vm_compute; reflexivity|].
    destruct (Z.eq_dec n (-8388608)) as [->|H1]; [vm_compute; reflexivity|].
    apply (F32Facts.float32RoundTrip_div n 8388608 23);
      [reflexivity|lia|assumption|lia].
Qed.

Lemma float32_keeps_pcm_witness :
  float32RoundTrip (pcm24ToFloat 8388607) = pcm24ToFloat 8388607.
Proof. apply (proj2 float32_keeps_pcm 8388607). lia. Defined.

(* ------------------------------------------------------------------ *)
(** ** The exported functions together *)
(* ------------------------------------------------------------------ *)

(** X24 (stereo and four-channel files).  The file [WriteWAV] leaves
    for an acceptable four-channel frame is read back by
    [ReadWAVChannels] with 4 channels, each sample through the PCM16
    round trip, and refused by [ReadWAV] with "failed to read WAV:
    input must have 2 channels, got 4 channels"; the file
    [WriteStereoWAV] leaves is read back by [ReadWAV] and refused by
    [ReadWAVChannels] with 4 channels. *)
Theorem stereo_and_quad_files data :
  0 <= SampleRate data < 2 ^ 32 -> NumSamples data * 8 < 2 ^ 32 ->
  (writable data 4 ->
   exists bytes,
     WriteWAV data = Ok bytes /\
     ReadWAVChannels bytes 4 = Ok (readBack pcm16RoundTrip data) /\
     ReadWAV bytes = Err (ErrFailedToReadWAV (ErrInputChannels 2 4))) /\
  (writable data 2 ->
   exists bytes,
     WriteStereoWAV data = Ok bytes /\
     ReadWAV bytes = Ok (readBack pcm16RoundTrip data) /\
     ReadWAVChannels bytes 4 = Err (ErrFailedToReadWAV (ErrInputChannels 4 2))).
Proof.
  intros Hsr Hsz. split; intros Hwr.
  - destruct (WriterFacts.readWAV_writeWAVPCM16 data 4 Hwr Hsr ltac:(lia)
                ltac:(lia)) as (bytes & Hw & _ & Hr).
    exists bytes. split; [exact Hw|].
    unfold ReadWAV, ReadWAVChannels, ReadWAVFromReader.
    rewrite Hr.
    rewrite (WriterFacts.readWAV_written_other data 4 2 Hwr Hsr ltac:(lia)
               ltac:(lia) ltac:(lia) bytes Hw).
    split; reflexivity.
  - assert (Hn : 0 <= NumSamples data) by (destruct Hwr as (_ & H & _); exact H).
    destruct (WriterFacts.readWAV_writeWAVPCM16 data 2 Hwr Hsr ltac:(lia)
                ltac:(lia)) as (bytes & Hw & _ & Hr).
    exists bytes. split; [exact Hw|].
    unfold ReadWAV, ReadWAVChannels, ReadWAVFromReader.
    rewrite Hr.
    rewrite (WriterFacts.readWAV_written_other data 2 4 Hwr Hsr ltac:(lia)
               ltac:(lia) ltac:(lia) bytes Hw).
    split; reflexivity.
Qed.

Lemma stereo_and_quad_files_witness :
  exists bytes,
    WriteWAV silentQuad = Ok bytes /\
    ReadWAVChannels bytes 4 = Ok (readBack pcm16RoundTrip silentQuad) /\
    ReadWAV bytes = Err (ErrFailedToReadWAV (ErrInputChannels 2 4)).
Proof.
  apply (proj1 (stereo_and_quad_files silentQuad ltac:(cbn; lia)
                  ltac:(cbn; lia))).
  split; [reflexivity|]. split; [cbn; lia|].
  repeat constructor; cbn; lia.
Defined.

(* ------------------------------------------------------------------ *)
(** ** The sign of a sample, and a field that is not looked at *)
(* ------------------------------------------------------------------ *)

(** X25 (the sign of a PCM16 sample).  Strictly inside (-1, 1), and on
    NaN, [floatToPCM16] is odd: the negated sample gives the negated
    integer.  At and beyond the ends it is not: a finite [v >= 1] gives
    32767 while [-v] gives -32768. *)
Theorem floatToPCM16_sign v :
  valid v = true ->
  (geb v one = false -> leb v mone = false ->
   floatToPCM16 (SFopp v) = - floatToPCM16 v) /\
  (is_finite v = true -> geb v one = true ->
   floatToPCM16 v = 32767 /\ floatToPCM16 (SFopp v) = -32768).
Proof.
  intros Hv. split.
  - intros Hge Hle.
    destruct v as [s|s| |s m e].
    + destruct s; vm_compute; reflexivity.
    + destruct s; [discriminate Hle|discriminate Hge].
    + reflexivity.
    + apply (F32Facts.floatToPCM16_opp_inner s m e Hv Hge Hle).
  - intros Hf Hge.
    destruct v as [s|s| |s m e]; try discriminate Hf.
    + destruct s; discriminate Hge.
    + destruct (F32Facts.ge_one_opp s m e Hge) as (-> & Hge' & Hle').
      unfold floatToPCM16. cbn [SFopp negb IsNaN IsInf orb].
      rewrite Hge, Hge', Hle'. split; reflexivity.
Qed.

(** At 0.1 and -0.1: 3277 and -3277. *)
Lemma floatToPCM16_sign_witness :
  floatToPCM16 (SFopp (decimal 1 10)) = - floatToPCM16 (decimal 1 10).
Proof.
  apply (proj1 (floatToPCM16_sign (decimal 1 10) eq_refl)); reflexivity.
Defined.

(** X26 (the byte rate).  The [byteRate] field of the fmt chunk is read
    and never looked at: two files that differ in it alone give the
    same result. *)
Theorem readWAV_ignores_byteRate
        riffSize before f ext between size body e br :
  wfFormat f = true -> 0 <= br < 2 ^ 32 ->
  16 + Z.of_nat (List.length ext) < 2 ^ 32 ->
  forallb isUnknownChunk before = true ->
  forallb isUnknownChunk between = true ->
  0 <= size < 2 ^ 32 ->
  readWAV (wavFile riffSize before (withByteRate f br) ext between size body) e
  = readWAV (wavFile riffSize before f ext between size body) e.
Proof.
  intros Hwf Hbr Hext Hb1 Hb2 Hsz.
  assert (Hwf' : wfFormat (withByteRate f br) = true).
  { pose proof (ReaderFacts.wfFormat_bounds f Hwf) as (H1 & H2 & H3 & H4 & H5 & H6).
    unfold wfFormat, withByteRate.
    cbn [audioFormat numChannels sampleRate byteRate blockAlign bitsPerSample].
    repeat (apply andb_true_intro; split);
      first [apply Z.leb_le; lia | apply Z.ltb_lt; lia]. }
  unfold readWAV.
  rewrite !FrameFacts.readWAVWith_wavFile by assumption.
  unfold readData.
  cbn [withByteRate audioFormat numChannels sampleRate byteRate blockAlign
       bitsPerSample].
  rewrite !ReaderFacts.readSamples_eq.
  cbn [withByteRate audioFormat numChannels sampleRate byteRate blockAlign
       bitsPerSample].
  reflexivity.
Qed.

Lemma readWAV_ignores_byteRate_witness :
  readWAV (wavFile 0 [] (withByteRate monoPCM16 0) [] [] 2
                   [Byte.x00; Byte.x80]) 1
  = readWAV (wavFile 0 [] monoPCM16 [] [] 2 [Byte.x00; Byte.x80]) 1.
Proof.
  apply (readWAV_ignores_byteRate 0 [] monoPCM16 [] [] 2 [Byte.x00; Byte.x80]
           1 0);
    try reflexivity; cbn; lia.
Defined.

(** X27 (the channel check of the data case).  On a stream laid out as
    RIFF header, unknown chunks, a fmt chunk with the next chunk right
    behind its declared bytes, unknown chunks and the header of a data
    chunk, a fmt chunk declaring a channel count other than the
    requested one makes [readWAV] answer "input must have ... channels,
    got ... channels" at the data chunk, whatever its size and whatever
    follows; [ReadWAVBytes] and [ReadWAVChannels] wrap that error, and
    no AudioData is returned.  The stereo file written for four silent
    frames, read with four channels requested, fails so. *)
Theorem channel_mismatch_rejected
        (us1 us2 : list chunk) (f : wavFormat) (ext rest : list byte)
        (riffSize size channels : Z) :
  forallb isUnknownChunk us1 = true ->
  forallb isUnknownChunk us2 = true ->
  wfFormat f = true ->
  16 + Z.of_nat (List.length ext) < 2 ^ 32 ->
  numChannels f <> channels ->
  let file :=
    riffHeader riffSize ++ chunksBytes us1 ++ fmtBytes f ext ++
    chunksBytes us2 ++ dataHeader size ++ rest in
  readWAV file channels = Err (ErrInputChannels channels (numChannels f)) /\
  ReadWAVBytes file channels
  = Err (ErrFailedToReadWAV (ErrInputChannels channels (numChannels f))) /\
  ReadWAVChannels file channels
  = Err (ErrFailedToReadWAV (ErrInputChannels channels (numChannels f))) /\
  (exists bytes,
      WriteStereoWAV silentStereo = Ok bytes /\
      ReadWAVChannels bytes 4 = Err (ErrFailedToReadWAV (ErrInputChannels 4 2))).
Proof.
  intros Hu1 Hu2 Hwf Hext Hne file.
  assert (H : readWAV file channels
              = Err (ErrInputChannels channels (numChannels f))).
  { unfold readWAV, file.
    rewrite ReaderFacts.readWAVWith_riff.
    rewrite ReaderFacts.chunkLoop_unknowns by assumption.
    rewrite ReaderFacts.chunkLoop_fmt by assumption.
    rewrite ReaderFacts.chunkLoop_unknowns by assumption.
    rewrite ReaderFacts.chunkLoop_data. unfold readData, fail.
    replace (numChannels f =? channels) with false
      by (symmetry; apply Z.eqb_neq; assumption).
    reflexivity. }
  split; [exact H|].
  unfold ReadWAVBytes, ReadWAVChannels, ReadWAVFromReader. rewrite H.
  split; [reflexivity|]. split; [reflexivity|].
  eexists. split; [vm_compute; reflexivity|]. vm_compute. reflexivity.
Qed.

(** A stereo PCM16 file behind a "LIST" chunk, read with four channels
    requested. *)
Lemma channel_mismatch_rejected_witness :
  readWAV (riffHeader 0 ++ chunksBytes [listChunk] ++ fmtBytes stereoPCM16 [] ++
           chunksBytes [] ++ dataHeader 4 ++
           [Byte.x00; Byte.x00; Byte.x00; Byte.x00]) 4
  = Err (ErrInputChannels 4 2).
Proof.
  apply (channel_mismatch_rejected [listChunk] [] stereoPCM16 []
           [Byte.x00; Byte.x00; Byte.x00; Byte.x00] 0 4 4
           eq_refl eq_refl eq_refl eq_refl).
  cbn. discriminate.
Defined.
